(** * pm-store: the turn engine and the invitation state machine of store.go

    A shallow embedding of the Go package [v1] (file [store.go], with the
    functions of the second copy of the package that differ from it in
    module [Part000]) and the properties of its step scheduler, vote aggregator, archival,
    invitation transitions and current-step advancement.

    Conventions of the embedding.
    - Go [int] is a 64-bit two's-complement integer: values live in [Z] and
      every arithmetic operation is followed by [Go.wrap64].
    - Go strings are [string]; [strconv.Atoi] and [strconv.Itoa] are
      [Go.Atoi] and [Go.Itoa].
    - Go maps are [gmap string _].  A map decoded from the remote tree is
      [nil] exactly when it has no entry (the tree stores no empty object),
      so [nil] and the empty map are both [∅]; the one place where the
      difference is observable (a write into a [nil] map) is modelled as a
      panic on [∅].
    - Pointers to structs decoded from the remote tree are distinct and
      non-nil, so structs are values and in-place mutation is state passing:
      a function that mutates an object of its caller returns the object.
    - The remote tree is a typed record [Db]; path segments (the [bin]s) are
      taken to be non-empty keys without a [/].  Every remote call consumes
      one flag of a fault schedule and fails, without effect, when the flag
      is set.
    - [uuid.New()] and [time.Now()] are inputs of the functions that call
      them. *)

From Stdlib Require Import ZArith String Ascii List DecimalString DecimalZ Lia.
From stdpp Require Import gmap strings list fin_maps pretty.

Local Open Scope string_scope.
Local Open Scope list_scope.
Local Open Scope Z_scope.

(** ** Go primitives *)

Module Go.

Definition minInt : Z := - 2 ^ 63.
Definition maxInt : Z := 2 ^ 63 - 1.

  (** Wrap-around of [int] arithmetic. *)
Definition wrap64 (z : Z) : Z := (z + 2 ^ 63) mod 2 ^ 64 - 2 ^ 63.

Definition add (a b : Z) : Z := wrap64 (a + b).
Definition mul (a b : Z) : Z := wrap64 (a * b).

  (** [strconv.ParseInt(s, 10, 0)] on a well-formed numeral: the value,
      saturated at the bounds of [int] (the range error is dropped by the
      callers below, and so is the syntax error, which yields [0]). *)
Definition saturate (z : Z) : Z :=
    if z <? minInt then minInt else if maxInt <? z then maxInt else z.

Definition parse_decimal (s : string) : option Z :=
    match s with
    | String "+"%char s' => Z.of_uint <$> NilZero.uint_of_string s'
    | _ => Z.of_int <$> NilZero.int_of_string s
    end.

  (** [n, _ := strconv.Atoi(s)]: the error is ignored at every call site. *)
Definition Atoi (s : string) : Z :=
    match parse_decimal s with
    | Some z => saturate z
    | None => 0
    end.

Definition Itoa (z : Z) : string := NilZero.string_of_int (Z.to_int z).

End Go.

(** ** Data model (package [models], reconstructed from its uses) *)

Module Vote.
Record t := mk {
    GameBin : string;
    Source : string;
    StepBin : string;
    Payload : string   (* the remaining fields, opaque to the store *)
  }.
End Vote.

Module Result.
Record t := mk {
    Bin : string;
    StepBin : string;
    GameBin : string;
    GamerId : string;
    TimeStamp : string;
    Vote : Vote.t
  }.
End Result.

Module Step.
Record t := mk {
    Bin : string;
    StepType : string;
    Duration : string;
    StepIndex : Z;
    RequiresVote : bool;
    VoteType : string;
    NextStep : string;
    StartTime : string;
    EndTime : string;
    Result : gmap string (list Result.t)
  }.

Definition zero : t := mk "" "" "" 0 false "" "" "" "" ∅.

Definition set_StepIndex (i : Z) (s : t) : t :=
    mk (Bin s) (StepType s) (Duration s) i (RequiresVote s) (VoteType s)
       (NextStep s) (StartTime s) (EndTime s) (Result s).
Definition set_StartTime (v : string) (s : t) : t :=
    mk (Bin s) (StepType s) (Duration s) (StepIndex s) (RequiresVote s)
       (VoteType s) (NextStep s) v (EndTime s) (Result s).
Definition set_EndTime (v : string) (s : t) : t :=
    mk (Bin s) (StepType s) (Duration s) (StepIndex s) (RequiresVote s)
       (VoteType s) (NextStep s) (StartTime s) v (Result s).
Definition set_Result (v : gmap string (list Result.t)) (s : t) : t :=
    mk (Bin s) (StepType s) (Duration s) (StepIndex s) (RequiresVote s)
       (VoteType s) (NextStep s) (StartTime s) (EndTime s) v.
End Step.

Module Gamer.
Record t := mk {
    Bin : string;
    GameId : string;
    CharacterId : string;
    IsAlive : bool
  }.
End Gamer.

Module Game.
Record t := mk {
    Bin : string;
    CurrentStep : string;
    Status : string;
    Invited : list string;
    Gamers : gmap string Gamer.t;
    Steps : gmap string Step.t;
    StepResults : gmap string (list Result.t)
  }.

Definition zero : t := mk "" "" "" [] ∅ ∅ ∅.

Definition set_CurrentStep (v : string) (g : t) : t :=
    mk (Bin g) v (Status g) (Invited g) (Gamers g) (Steps g) (StepResults g).
Definition set_Status (v : string) (g : t) : t :=
    mk (Bin g) (CurrentStep g) v (Invited g) (Gamers g) (Steps g) (StepResults g).
Definition set_Invited (v : list string) (g : t) : t :=
    mk (Bin g) (CurrentStep g) (Status g) v (Gamers g) (Steps g) (StepResults g).
Definition set_Gamers (v : gmap string Gamer.t) (g : t) : t :=
    mk (Bin g) (CurrentStep g) (Status g) (Invited g) v (Steps g) (StepResults g).
Definition set_Steps (v : gmap string Step.t) (g : t) : t :=
    mk (Bin g) (CurrentStep g) (Status g) (Invited g) (Gamers g) v (StepResults g).
Definition set_StepResults (v : gmap string (list Result.t)) (g : t) : t :=
    mk (Bin g) (CurrentStep g) (Status g) (Invited g) (Gamers g) (Steps g) v.
End Game.

Module Invitation.
Record t := mk {
    Bin : string;
    GameGroup : string;
    CreatorId : string;
    Status : string;
    Invitation : string;
    Message : string;
    Time : string;
    GameId : string;
    Accepted : bool;
    Declined : bool
  }.

Definition zero : t := mk "" "" "" "" "" "" "" "" false false.

Definition set_Status (v : string) (i : t) : t :=
    mk (Bin i) (GameGroup i) (CreatorId i) v (Invitation i) (Message i)
       (Time i) (GameId i) (Accepted i) (Declined i).
Definition set_Accepted (v : bool) (i : t) : t :=
    mk (Bin i) (GameGroup i) (CreatorId i) (Status i) (Invitation i)
       (Message i) (Time i) (GameId i) v (Declined i).
Definition set_Declined (v : bool) (i : t) : t :=
    mk (Bin i) (GameGroup i) (CreatorId i) (Status i) (Invitation i)
       (Message i) (Time i) (GameId i) (Accepted i) v.

  (** The two terminal flags are never both set. *)
Definition exclusive (i : t) : Prop := ¬ (Accepted i = true ∧ Declined i = true).

Definition terminal (i : t) : bool := Accepted i || Declined i.
End Invitation.

Module Player.
Record t := mk {
    Bin : string;
    UserName : string;
    Status : string;
    Photo : string;
    Privacy : string;
    Invitations : list Invitation.t;
    GroupIds : list string
  }.

Definition zero : t := mk "" "" "" "" "" [] [].

Definition set_Invitations (v : list Invitation.t) (p : t) : t :=
    mk (Bin p) (UserName p) (Status p) (Photo p) (Privacy p) v (GroupIds p).
Definition set_GroupIds (v : list string) (p : t) : t :=
    mk (Bin p) (UserName p) (Status p) (Photo p) (Privacy p) (Invitations p) v.
End Player.

Module Group.
Record t := mk {
    Bin : string;
    GroupName : string;
    Capacity : Z;
    Status : string;
    Members : list Player.t
  }.

Definition set_Members (v : list Player.t) (g : t) : t :=
    mk (Bin g) (GroupName g) (Capacity g) (Status g) v.
End Group.

Module GameCharacter.
Record t := mk { Bin : string }.
End GameCharacter.

Module Ability.
Record t := mk { Bin : string }.
End Ability.

(** ** The remote tree

    A node is the JSON value stored under a path.  Collections that the
    program addresses child by child ([players/<bin>/invitations/<key>],
    [game_groups/<bin>/members/<key>]) are maps from the child key; a Go
    slice written as a whole becomes the map of its indices
    ([encode_list]), and a read into a Go slice succeeds only on such a map
    ([decode_list]). *)

Fixpoint encode_from {A} (i : nat) (l : list A) : gmap string A :=
  match l with
  | [] => ∅
  | x :: l' => <[pretty i := x]> (encode_from (S i) l')
  end.

Definition encode_list {A} (l : list A) : gmap string A := encode_from 0 l.

Definition decode_list {A} (m : gmap string A) : option (list A) :=
  mapM (λ i : nat, m !! pretty i) (seq 0 (size m)).

Module PlayerNode.
Record t := mk {
  Bin : string;
  UserName : string;
  Status : string;
  Photo : string;
  Privacy : string;
  Invitations : gmap string Invitation.t;
  GroupIds : list string
}.

Definition zero : t := mk "" "" "" "" "" ∅ [].

Definition set_Invitations (v : gmap string Invitation.t) (p : t) : t :=
  mk (Bin p) (UserName p) (Status p) (Photo p) (Privacy p) v (GroupIds p).
Definition set_GroupIds (v : list string) (p : t) : t :=
  mk (Bin p) (UserName p) (Status p) (Photo p) (Privacy p) (Invitations p) v.

Definition encode (p : Player.t) : t :=
  mk (Player.Bin p) (Player.UserName p) (Player.Status p) (Player.Photo p)
     (Player.Privacy p) (encode_list (Player.Invitations p)) (Player.GroupIds p).

Definition decode (n : t) : option Player.t :=
  l ← decode_list (Invitations n);
  Some (Player.mk (Bin n) (UserName n) (Status n) (Photo n) (Privacy n) l (GroupIds n)).
End PlayerNode.

Module GroupNode.
Record t := mk {
  Bin : string;
  GroupName : string;
  Capacity : Z;
  Status : string;
  Members : gmap string Player.t
}.

Definition zero : t := mk "" "" 0 "" ∅.

Definition set_Members (v : gmap string Player.t) (g : t) : t :=
  mk (Bin g) (GroupName g) (Capacity g) (Status g) v.

Definition decode (n : t) : option Group.t :=
  l ← decode_list (Members n);
  Some (Group.mk (Bin n) (GroupName n) (Capacity n) (Status n) l).
End GroupNode.

Record Db := mkDb {
  db_players : gmap string PlayerNode.t;
  db_game_groups : gmap string GroupNode.t;
  db_games : gmap string Game.t;
  (* the child [players] of a game node, which no field of [Game] reads *)
  db_game_players : gmap string (gmap string Gamer.t);
  db_steps : gmap string Step.t;
  db_characters : gmap string GameCharacter.t;
  db_abilities : gmap string Ability.t
}.

Definition empty_db : Db := mkDb ∅ ∅ ∅ ∅ ∅ ∅ ∅.

Definition on_players (f : gmap string PlayerNode.t → gmap string PlayerNode.t) (d : Db) : Db :=
  mkDb (f (db_players d)) (db_game_groups d) (db_games d) (db_game_players d)
       (db_steps d) (db_characters d) (db_abilities d).
Definition on_game_groups (f : gmap string GroupNode.t → gmap string GroupNode.t) (d : Db) : Db :=
  mkDb (db_players d) (f (db_game_groups d)) (db_games d) (db_game_players d)
       (db_steps d) (db_characters d) (db_abilities d).
Definition on_games (f : gmap string Game.t → gmap string Game.t) (d : Db) : Db :=
  mkDb (db_players d) (db_game_groups d) (f (db_games d)) (db_game_players d)
       (db_steps d) (db_characters d) (db_abilities d).
Definition on_game_players (f : gmap string (gmap string Gamer.t) → gmap string (gmap string Gamer.t)) (d : Db) : Db :=
  mkDb (db_players d) (db_game_groups d) (db_games d) (f (db_game_players d))
       (db_steps d) (db_characters d) (db_abilities d).
Definition on_steps (f : gmap string Step.t → gmap string Step.t) (d : Db) : Db :=
  mkDb (db_players d) (db_game_groups d) (db_games d) (db_game_players d)
       (f (db_steps d)) (db_characters d) (db_abilities d).
Definition on_characters (f : gmap string GameCharacter.t → gmap string GameCharacter.t) (d : Db) : Db :=
  mkDb (db_players d) (db_game_groups d) (db_games d) (db_game_players d)
       (db_steps d) (f (db_characters d)) (db_abilities d).
Definition on_abilities (f : gmap string Ability.t → gmap string Ability.t) (d : Db) : Db :=
  mkDb (db_players d) (db_game_groups d) (db_games d) (db_game_players d)
       (db_steps d) (db_characters d) (f (db_abilities d)).

(** ** The store: remote tree, mutex and fault schedule *)

Record Store := mkStore {
  db : Db;
  mu : bool;              (* [Publisher.mu] is held *)
  faults : list bool      (* outcome of the coming remote calls; [true] fails *)
}.

Inductive outcome (A : Type) : Type :=
| Done (a : A) (s : Store)
| Panic
| Deadlock.
Arguments Done {A} a s.
Arguments Panic {A}.
Arguments Deadlock {A}.

Definition M (A : Type) : Type := Store → outcome A.

#[global] Instance M_ret : MRet M := λ A a s, Done a s.
#[global] Instance M_bind : MBind M := λ A B f m s,
  match m s with
  | Done a s' => f a s'
  | Panic => Panic
  | Deadlock => Deadlock
  end.

Definition panic {A} : M A := λ _, Panic.

(** [error] is [nil] ([None]) or carries its message. *)
Definition error : Type := option string.

Definition store_unavailable : string := "remote call failed".

(** One remote call: [true] when it fails. *)
Definition remote : M bool := λ s,
  match faults s with
  | [] => Done false s
  | f :: fs => Done f (mkStore (db s) (mu s) fs)
  end.

Definition read : M Db := λ s, Done (db s) s.
Definition write (f : Db → Db) : M unit := λ s, Done () (mkStore (f (db s)) (mu s) (faults s)).

(** [store.mu.Lock()]: blocks for ever when the mutex is held. *)
Definition Lock : M unit := λ s,
  if mu s then Deadlock else Done () (mkStore (db s) true (faults s)).

(** [store.mu.Unlock()]: a fatal error when the mutex is not held. *)
Definition Unlock : M unit := λ s,
  if mu s then Done () (mkStore (db s) false (faults s)) else Panic.

(** [ref.Set(ctx, v)] and [ref.Update(ctx, m)] as a change of the tree. *)
Definition remote_write (f : Db → Db) : M error :=
  failed ← remote;
  if failed : bool then mret (Some store_unavailable)
  else write f;; mret None.

(** ** Entity accessors *)

(** The dynamically typed argument of [Create] and result of [GetByBin]. *)
Inductive entity :=
| EPlayer (p : Player.t)
| EGroup (g : Group.t)
| EGame (g : Game.t)
| EStep (s : Step.t)
| ECharacter (c : GameCharacter.t)
| EAbility (a : Ability.t).

Definition CreateStep (b : Step.t) : M error :=
  Lock;;
  failed ← remote;
  if failed : bool then mret (Some store_unavailable)   (* returns with the mutex held *)
  else
    write (on_steps (insert (Step.Bin b) b));;
    Unlock;;
    mret None.

Definition CreateGame (b : Game.t) : M error :=
  Lock;;
  failed ← remote;
  if failed : bool then mret (Some store_unavailable)
  else
    write (on_games (insert (Game.Bin b) b));;
    Unlock;;
    mret None.

Definition CreatePlayer (b : Player.t) : M error :=
  remote_write (on_players (insert (Player.Bin b) (PlayerNode.encode b))).

Definition CreateCharacter (character : GameCharacter.t) : M error :=
  remote_write (on_characters (insert (GameCharacter.Bin character) character)).

Definition CreateAbility (ability : Ability.t) : M error :=
  remote_write (on_abilities (insert (Ability.Bin ability) ability)).

(** [Create(b, path)]: a failed type assertion panics. *)
Definition Create (b : entity) (path : string) : M error :=
  if String.eqb path "players" then
    match b with EPlayer p => CreatePlayer p | _ => panic end
  else if String.eqb path "games" then
    match b with EGame g => CreateGame g | _ => panic end
  else if String.eqb path "steps" then
    match b with EStep s => CreateStep s | _ => panic end
  else if String.eqb path "characters" then
    match b with ECharacter c => CreateCharacter c | _ => panic end
  else if String.eqb path "abilities" then
    match b with EAbility a => CreateAbility a | _ => panic end
  else mret (Some ("invalid data type: " +:+ path)).


(** A remote read that decodes the node found by [get]; a node that does
    not decode is an error of [ref.Get]. *)
Definition remote_read {A} (get : Db → option A) : M (option A * error) :=
  failed ← remote;
  if failed : bool then mret (None, Some store_unavailable)
  else
    d ← read;
    match get d with
    | Some a => mret (Some a, None)
    | None => mret (None, Some "json: cannot unmarshal")
    end.

(** [GetByBin(b, dataType)]: an absent node decodes to the zero struct. *)
Definition GetByBin (b dataType : string) : M (option entity * error) :=
  if String.eqb dataType "players" then
    remote_read (λ d, EPlayer <$> PlayerNode.decode (default PlayerNode.zero (db_players d !! b)))
  else if String.eqb dataType "game_groups" then
    remote_read (λ d, EGroup <$> GroupNode.decode (default GroupNode.zero (db_game_groups d !! b)))
  else if String.eqb dataType "games" then
    remote_read (λ d, Some (EGame (default Game.zero (db_games d !! b))))
  else if String.eqb dataType "characters" then
    remote_read (λ d, Some (ECharacter (default (GameCharacter.mk "") (db_characters d !! b))))
  else if String.eqb dataType "abilities" then
    remote_read (λ d, Some (EAbility (default (Ability.mk "") (db_abilities d !! b))))
  else mret (None, Some ("invalid data type: " +:+ dataType)).

(** [getGameByBin(bin)]: decodes into a [*Game], which stays [nil] on an
    absent node. *)
Definition getGameByBin (bin : string) : M (option Game.t * error) :=
  failed ← remote;
  if failed : bool then mret (None, Some store_unavailable)
  else d ← read; mret (db_games d !! bin, None).

Definition GetStepByBin (step : string) : M (option Step.t * error) :=
  failed ← remote;
  if failed : bool then mret (None, Some store_unavailable)
  else
    d ← read;
    let c := default Step.zero (db_steps d !! step) in
    if String.eqb (Step.Bin c) "" then mret (None, None)
    else mret (Some c, None).

(** The entries of the [map[string]interface{}] handed to [Update]: one
    constructor per key that the package writes. *)
Module Field.
Inductive t :=
| status (v : string)                            (* "status" *)
| current_step (v : string)                      (* "current_step" *)
| steps (v : gmap string Step.t)                 (* "steps" *)
| step_results (v : gmap string (list Result.t)) (* "step_results" *)
| gamers (v : gmap string Gamer.t)               (* "gamers" *)
| players (v : gmap string Gamer.t)              (* "players" *)
| invited (v : list string)                      (* "invited" *)
| invitations (v : list Invitation.t)            (* "invitations" *)
| group_ids (v : list string)                    (* "group_ids" *)
| members (v : list Player.t)                    (* "members" *)
| accepted (v : bool)                            (* "accepted" *)
| declined (v : bool)                            (* "declined" *)
| step_result (step gamer : string) (v : list Result.t).
                                    (* "steps/<step>/result/<gamer>" *)
End Field.

(** The effect of one entry on each kind of node; an entry under a key
    that no typed read of the node observes leaves the node as it is. *)
Definition apply_player_field (n : PlayerNode.t) (f : Field.t) : PlayerNode.t :=
  match f with
  | Field.invitations v => PlayerNode.set_Invitations (encode_list v) n
  | Field.group_ids v => PlayerNode.set_GroupIds v n
  | _ => n
  end.

Definition apply_group_field (n : GroupNode.t) (f : Field.t) : GroupNode.t :=
  match f with
  | Field.members v => GroupNode.set_Members (encode_list v) n
  | _ => n
  end.

Definition set_step_result (step gamer : string) (v : list Result.t) (g : Game.t) : Game.t :=
  let st := default Step.zero (Game.Steps g !! step) in
  Game.set_Steps (<[step := Step.set_Result (<[gamer := v]> (Step.Result st)) st]> (Game.Steps g)) g.

Definition apply_game_field (g : Game.t) (f : Field.t) : Game.t :=
  match f with
  | Field.status v => Game.set_Status v g
  | Field.current_step v => Game.set_CurrentStep v g
  | Field.steps v => Game.set_Steps v g
  | Field.step_results v => Game.set_StepResults v g
  | Field.gamers v => Game.set_Gamers v g
  | Field.invited v => Game.set_Invited v g
  | Field.step_result step gamer v => set_step_result step gamer v g
  | _ => g
  end.

Definition apply_invitation_field (i : Invitation.t) (f : Field.t) : Invitation.t :=
  match f with
  | Field.accepted v => Invitation.set_Accepted v i
  | Field.declined v => Invitation.set_Declined v i
  | _ => i
  end.

(** The change of the tree made by [ref("games/"+b).Update(m)]. *)
Definition update_game (b : string) (m : list Field.t) (d : Db) : Db :=
  foldl (λ d f,
    match f with
    | Field.players v => on_game_players (insert b v) d
    | _ => on_games (λ gs, <[b := apply_game_field (default Game.zero (gs !! b)) f]> gs) d
    end) d m.

Definition UpdateGame (b : string) (m : list Field.t) : M error :=
  remote_write (update_game b m).

Definition UpdateGameGroup (b : string) (m : list Field.t) : M error :=
  remote_write (on_game_groups (λ gs,
    <[b := foldl apply_group_field (default GroupNode.zero (gs !! b)) m]> gs)).

Definition UpdatePlayer (b : string) (m : list Field.t) : M error :=
  remote_write (on_players (λ ps,
    <[b := foldl apply_player_field (default PlayerNode.zero (ps !! b)) m]> ps)).

(** [UpdateGamersInGame] addresses ["games/"+b+"gamers"]: the node of the
    game whose key is [b] followed by [gamers]. *)
Definition UpdateGamersInGame (b : string) (m : list Field.t) : M error :=
  remote_write (update_game (b +:+ "gamers") m).

Definition Update (b : string) (m : list Field.t) (path : string) : M error :=
  if String.eqb path "players" then UpdatePlayer b m
  else if String.eqb path "game_groups" then UpdateGameGroup b m
  else if String.eqb path "games" then UpdateGame b m
  else if String.eqb path "gamers" then UpdateGamersInGame b m
  else mret (Some ("invalid data type: " +:+ path)).

Definition update_invitation (inviteId : string) (m : list Field.t) (n : PlayerNode.t)
  : PlayerNode.t :=
  PlayerNode.set_Invitations
    (<[inviteId := foldl apply_invitation_field
                     (default Invitation.zero (PlayerNode.Invitations n !! inviteId)) m]>
       (PlayerNode.Invitations n)) n.

Definition UpdateInvitation (pId inviteId : string) (m : list Field.t) : M error :=
  remote_write (on_players (λ ps,
    <[pId := update_invitation inviteId m (default PlayerNode.zero (ps !! pId))]> ps)).

(** [AddPlayerToGroupMembers(gId, bin, m)] sets
    [game_groups/<gId>/members/<bin>]. *)
Definition AddPlayerToGroupMembers (gId bin : string) (m : Player.t) : M error :=
  remote_write (on_game_groups (λ gs,
    let n := default GroupNode.zero (gs !! gId) in
    <[gId := GroupNode.set_Members (<[bin := m]> (GroupNode.Members n)) n]> gs)).

(** ** Step scheduler *)

(** The body of one iteration of [for i, s := range steps], before the
    step is appended and created: the step as mutated and the value of
    [lastEndTime] after the iteration. *)
Definition schedule_step (i : nat) (s : Step.t) (startTime lastEndTime : string)
  : Step.t * string :=
  let s := Step.set_StepIndex (Z.of_nat i) s in
  if Nat.eqb i 0 then
    let startTimeMillis := Go.Atoi startTime in
    let stepDurationSeconds := Go.Atoi (Step.Duration s) in
    let eTime := Go.add (Go.add startTimeMillis (Go.mul stepDurationSeconds 1000)) 500 in
    let s := Step.set_StartTime startTime s in
    let s := Step.set_EndTime (Go.Itoa eTime) s in
    (s, Step.EndTime s)
  else
    let parsedEndTime := Go.Atoi lastEndTime in
    let s := Step.set_StartTime (Go.Itoa (Go.add parsedEndTime 500)) s in
    let startTimeMillis := Go.Atoi (Step.StartTime s) in
    let stepDurationSeconds := Go.Atoi (Step.Duration s) in
    let eTime := Go.add (Go.add startTimeMillis (Go.mul stepDurationSeconds 1000)) 500 in
    let s := Step.set_EndTime (Go.Itoa eTime) s in
    (s, lastEndTime).

(** The second loop of [AddAllStepsToDb].  [visited] are the steps already
    scheduled, [rest] the steps still to visit, [appended] what
    [steps = append(steps, s)] has added behind the original elements.
    The result is the caller's steps as the call leaves them and the slice
    returned ([None] for [nil]). *)
Fixpoint range_steps (i : nat) (rest : list Step.t) (startTime lastEndTime : string)
    (visited appended : list Step.t) : M (list Step.t * option (list Step.t)) :=
  match rest with
  | [] => mret (visited, Some (visited ++ appended))
  | s :: rest' =>
      let '(s', lastEndTime') := schedule_step i s startTime lastEndTime in
      err ← Create (EStep s') "steps";
      match err with
      | Some _ => mret (visited ++ s' :: rest', None)
      | None =>
          range_steps (S i) rest' startTime lastEndTime'
                      (visited ++ [s']) (appended ++ [s'])
      end
  end.

Definition AddAllStepsToDb (steps : list Step.t) (startTime : string)
  : M (list Step.t * option (list Step.t)) :=
  let steps := imap (λ i s, Step.set_StepIndex (Z.of_nat i) s) steps in
  range_steps 0 steps startTime "" [] [].


(** ** Vote aggregation *)

(** [buildStepResult(game, gamerId, action)]: the game as mutated and the
    update map; [None] is the nil dereference of a current step that the
    game's [Steps] does not hold.  The two guards that replace a [nil]
    result map and a [nil] result list by empty ones change nothing here,
    where [nil] and empty coincide. *)
Definition buildStepResult (stamp uuid : string) (game : Game.t) (gamerId : string)
    (action : Vote.t) : option (Game.t * list Field.t) :=
  match Game.Steps game !! Game.CurrentStep game with
  | None => None
  | Some st =>
      let res := default [] (Step.Result st !! gamerId) in
      let res := res ++ [Result.mk uuid (Vote.StepBin action) (Game.Bin game)
                                   gamerId stamp action] in
      let st := Step.set_Result (<[gamerId := res]> (Step.Result st)) st in
      let game := Game.set_Steps (<[Game.CurrentStep game := st]> (Game.Steps game)) game in
      Some (game, [Field.step_result (Game.CurrentStep game) gamerId res])
  end.

Definition Vote_locked (stamp uuid : string) (vote : Vote.t) : M bool :=
  '(game, err) ← getGameByBin (Vote.GameBin vote);
  match err with
  | Some _ => mret false
  | None =>
      match game with
      | None => panic
      | Some game =>
          match buildStepResult stamp uuid game (Vote.Source vote) vote with
          | None => panic
          | Some (game, mp) =>
              err ← UpdateGame (Game.Bin game) mp;
              match err with
              | Some _ => mret false
              | None => mret true
              end
          end
      end
  end.

(** [Vote(vote)]: the body runs between [Lock] and the deferred [Unlock]. *)
Definition Vote (stamp uuid : string) (vote : Vote.t) : M bool :=
  Lock;;
  r ← Vote_locked stamp uuid vote;
  Unlock;;
  mret r.

(** ** Archival *)

(** The order in which a [range] over a map visits its entries is not
    specified: every enumeration of the entries is possible. *)
Record RangeOrder := mkRangeOrder {
  range : ∀ A : Type, gmap string A → list (string * A);
  range_perm : ∀ (A : Type) (m : gmap string A), range A m ≡ₚ map_to_list m
}.
Arguments range _ {A} _.

Definition key_order : RangeOrder :=
  mkRangeOrder (λ A m, map_to_list m) (λ A m, reflexivity _).

(** [game.StepResults[res.GamerId] = append(game.StepResults[res.GamerId], res)] *)
Definition archive_result (sr : gmap string (list Result.t)) (res : Result.t)
  : gmap string (list Result.t) :=
  <[Result.GamerId res := default [] (sr !! Result.GamerId res) ++ [res]]> sr.

Definition archive_step (o : RangeOrder) (sr : gmap string (list Result.t)) (step : Step.t)
  : gmap string (list Result.t) :=
  foldl (λ sr kv, foldl archive_result sr kv.2) sr (range o (Step.Result step)).

(** First loop of [ArchiveStepResults]. *)
Definition archive_loop (o : RangeOrder) (game : Game.t) : Game.t :=
  foldl (λ game kv,
    let step : Step.t := kv.2 in
    if Nat.eqb (size (Step.Result step)) 0 then game
    else
      let game := Game.set_StepResults (archive_step o (Game.StepResults game) step) game in
      Game.set_Steps (<[kv.1 := Step.set_Result ∅ step]> (Game.Steps game)) game)
    game (range o (Game.Steps game)).

(** Second loop: [step.Result = nil] for every step. *)
Definition clear_loop (o : RangeOrder) (game : Game.t) : Game.t :=
  foldl (λ game kv,
    Game.set_Steps (<[kv.1 := Step.set_Result ∅ kv.2]> (Game.Steps game)) game)
    game (range o (Game.Steps game)).

Definition ArchiveStepResults (o : RangeOrder) (gameId : string) : M error :=
  '(g, err) ← GetByBin gameId "games";
  match err with
  | Some _ => mret err
  | None =>
      match g with
      | Some (EGame game) =>
          let game := archive_loop o game in
          let game := clear_loop o game in
          Update gameId [Field.steps (Game.Steps game);
                         Field.step_results (Game.StepResults game)] "games"
      | _ => panic
      end
  end.

(** ** Game lifecycle *)

Definition SetNewStep (gameId : string) : M unit :=
  '(game, err) ← GetByBin gameId "games";
  match err with
  | Some _ => mret ()
  | None =>
      match game with
      | Some (EGame g) =>
          let g := Game.set_CurrentStep "1" g in
          Update gameId [Field.current_step (Game.CurrentStep g)] "games";;
          mret ()
      | _ => panic
      end
  end.

(** [SetNextStep(gameId)]; the step that [GetStepByBin] reports as absent
    ([nil, nil]) is dereferenced. *)
Definition SetNextStep (gameId : string) : M unit :=
  '(game, err) ← GetByBin gameId "games";
  match err with
  | Some _ => mret ()
  | None =>
      match game with
      | Some (EGame g) =>
          '(currentStep, err) ← GetStepByBin (Game.CurrentStep g);
          match err with
          | Some _ => mret ()
          | None =>
              match currentStep with
              | None => panic
              | Some currentStep =>
                  let g := Game.set_CurrentStep (Step.Bin currentStep) g in
                  Update gameId [Field.current_step (Game.CurrentStep g)] "games";;
                  mret ()
              end
          end
      | _ => panic
      end
  end.

(** ** Invitations *)

(** [append(l[:i], l[i+1:]...)] at the first [i] whose element satisfies
    [hit], as the removal loops do before their [break]. *)
Fixpoint remove_first {A} (hit : A → bool) (l : list A) : list A :=
  match l with
  | [] => []
  | m :: l' => if hit m then l' else m :: remove_first hit l'
  end.

Definition AcceptGameInvitation (uuid : string) (playerId : string)
    (invitation : Invitation.t) : M (bool * error) :=
  '(game, err) ← GetByBin (Invitation.GameId invitation) "games";
  match err with
  | Some _ => mret (false, err)
  | None =>
      match game with
      | Some (EGame g) =>
          if Nat.eqb (size (Game.Gamers g)) 0 then panic   (* entry of a nil map *)
          else
            let g := Game.set_Gamers
                       (<[playerId := Gamer.mk uuid (Invitation.GameId invitation) "3" true]>
                          (Game.Gamers g)) g in
            err ← Update (Invitation.GameId invitation)
                         [Field.players (Game.Gamers g)] "games";
            match err with
            | Some _ => mret (false, err)
            | None =>
                err ← Update playerId
                  [Field.invitations
                     [Invitation.mk (Invitation.Bin invitation)
                        (Invitation.GameGroup invitation)
                        (Invitation.CreatorId invitation)
                        "received" "game" "I'm down!" ""
                        (Invitation.GameId invitation) true false]] "players";
                match err with
                | Some _ => mret (false, err)
                | None => mret (true, None)
                end
            end
      | _ => panic
      end
  end.

Definition DeclineGameInvitation (playerId : string) (invitation : Invitation.t)
  : M (bool * error) :=
  '(game, err) ← GetByBin (Invitation.GameId invitation) "games";
  match err with
  | Some _ => mret (false, err)
  | None =>
      match game with
      | Some (EGame g) =>
          let g := Game.set_Invited
                     (remove_first (λ m, String.eqb m playerId) (Game.Invited g)) g in
          err ← Update (Invitation.GameId invitation)
                       [Field.invited (Game.Invited g)] "games";
          match err with
          | Some _ => mret (false, err)
          | None =>
              err ← Update playerId
                [Field.invitations
                   [Invitation.mk (Invitation.Bin invitation)
                      (Invitation.GameGroup invitation)
                      (Invitation.CreatorId invitation)
                      "received" "game" "I'm not down!" ""
                      (Invitation.GameId invitation) false true]] "players";
              match err with
              | Some _ => mret (false, err)
              | None => mret (true, None)
              end
          end
      | _ => panic
      end
  end.

(** The first loop of [AcceptGroupInvitation] over [p.Invitations]. *)
Inductive scan :=
| Refused (msg : string)                 (* returned from inside the loop *)
| Marked (l : list Invitation.t)         (* an invitation was updated; [break] *)
| Missed.                                (* no invitation has the id *)

Fixpoint accept_scan (invitationId : string) (l : list Invitation.t) : scan :=
  match l with
  | [] => Missed
  | inv :: l' =>
      if String.eqb (Invitation.Bin inv) invitationId then
        if Invitation.Accepted inv then Refused "invitation already accepted"
        else if Invitation.Declined inv then Refused "invitation already declined"
        else Marked (Invitation.set_Status "accepted" (Invitation.set_Accepted true inv) :: l')
      else
        match accept_scan invitationId l' with
        | Marked l'' => Marked (inv :: l'')
        | r => r
        end
  end.

(** The statements of [AcceptGroupInvitation] that follow the first loop:
    the group id joins [p.GroupIds] unless it is there, and the player is
    written among the members of the group. *)
Definition AcceptGroupInvitation_join (p : Player.t) (groupId : string)
  : M (Player.t * (bool * error)) :=
  let p := if bool_decide (groupId ∈ Player.GroupIds p) then p
           else Player.set_GroupIds (Player.GroupIds p ++ [groupId]) p in
  err ← Update (Player.Bin p) [Field.group_ids (Player.GroupIds p)] "players";
  match err with
  | Some _ => mret (p, (false, err))
  | None =>
      '(gameGroup, err) ← GetByBin groupId "game_groups";
      match err with
      | Some _ => mret (p, (false, err))
      | None =>
          match gameGroup with
          | Some (EGroup g) =>
              err ← AddPlayerToGroupMembers groupId (Group.Bin g) p;
              match err with
              | Some _ => mret (p, (false, err))
              | None => mret (p, (true, None))
              end
          | _ => panic
          end
      end
  end.

(** [AcceptGroupInvitation(p, invitationId, groupId)]: the player as the
    call leaves it, and the results.  The result of [UpdateInvitation] is
    dropped. *)
Definition AcceptGroupInvitation (p : Player.t) (invitationId groupId : string)
  : M (Player.t * (bool * error)) :=
  match accept_scan invitationId (Player.Invitations p) with
  | Refused msg => mret (p, (false, Some msg))
  | Marked l =>
      let p := Player.set_Invitations l p in
      UpdateInvitation (Player.Bin p) invitationId
                       [Field.accepted true; Field.declined false];;
      AcceptGroupInvitation_join p groupId
  | Missed => AcceptGroupInvitation_join p groupId
  end.

(** The first loop of [DeclineGameGroupInvitation]. *)
Fixpoint decline_scan (invitationId : string) (l : list Invitation.t) : list Invitation.t :=
  match l with
  | [] => []
  | inv :: l' =>
      if String.eqb (Invitation.Bin inv) invitationId then
        Invitation.set_Status "declined"
          (Invitation.set_Accepted false (Invitation.set_Declined true inv)) :: l'
      else inv :: decline_scan invitationId l'
  end.

(** [DeclineGameGroupInvitation(p, invitationId, groupId)] has no result:
    the value is the player as the call leaves it. *)
Definition DeclineGameGroupInvitation (p : Player.t) (invitationId groupId : string)
  : M Player.t :=
  let p := Player.set_Invitations (decline_scan invitationId (Player.Invitations p)) p in
  err ← Update (Player.Bin p) [Field.invitations (Player.Invitations p)] "players";
  match err with
  | Some _ => mret p
  | None =>
      '(gameGroup, err) ← GetByBin groupId "game_groups";
      match err with
      | Some _ => mret p
      | None =>
          match gameGroup with
          | Some (EGroup g) =>
              let g := Group.set_Members
                         (remove_first (λ m, String.eqb (Player.Bin m) (Player.Bin p))
                                       (Group.Members g)) g in
              Update groupId [Field.members (Group.Members g)] "game_groups";;
              mret p
          | _ => panic
          end
      end
  end.

(** ** The second copy of the package

    The second copy declares the members of a group as a map keyed by bin.
    Its [Vote], [SetNextStep] and [AcceptGroupInvitation] and the first
    loop of its [DeclineGameGroupInvitation] are those of [store.go], and
    so is its [buildStepResult], up to a guard that is commented out and
    changes nothing here.  Its [ArchiveStepResults] and its two functions
    on game invitations differ, as follows. *)
Module Part000.

(** The first loop of [ArchiveStepResults] binds the extended list to a
    local variable and never stores it; it does not reset [step.Result]
    either, which is left to the second loop. *)

Definition archive_result (sr : gmap string (list Result.t)) (res : Result.t)
  : gmap string (list Result.t) :=
  let r := default [] (sr !! Result.GamerId res) in
  let r := r ++ [res] in
  sr.

Definition archive_step (o : RangeOrder) (sr : gmap string (list Result.t)) (step : Step.t)
  : gmap string (list Result.t) :=
  foldl (λ sr kv, foldl archive_result sr kv.2) sr (range o (Step.Result step)).

Definition archive_loop (o : RangeOrder) (game : Game.t) : Game.t :=
  foldl (λ game kv,
    let step : Step.t := kv.2 in
    if Nat.eqb (size (Step.Result step)) 0 then game
    else Game.set_StepResults (archive_step o (Game.StepResults game) step) game)
    game (range o (Game.Steps game)).

Definition ArchiveStepResults (o : RangeOrder) (gameId : string) : M error :=
  '(g, err) ← GetByBin gameId "games";
  match err with
  | Some _ => mret err
  | None =>
      match g with
      | Some (EGame game) =>
          let game := archive_loop o game in
          let game := clear_loop o game in
          Update gameId [Field.steps (Game.Steps game);
                         Field.step_results (Game.StepResults game)] "games"
      | _ => panic
      end
  end.

(** [AcceptGameInvitation] and [DeclineGameInvitation] leave the game
    alone and only write the player's invitations. *)
Definition AcceptGameInvitation (playerId : string) (invitation : Invitation.t)
  : M (bool * error) :=
  err ← Update playerId
    [Field.invitations
       [Invitation.mk (Invitation.Bin invitation)
          (Invitation.GameGroup invitation)
          (Invitation.CreatorId invitation)
          "received" "game" "I'm down!" ""
          (Invitation.GameId invitation) true false]] "players";
  match err with
  | Some _ => mret (false, err)
  | None => mret (true, None)
  end.

Definition DeclineGameInvitation (playerId : string) (invitation : Invitation.t)
  : M (bool * error) :=
  err ← Update playerId
    [Field.invitations
       [Invitation.mk (Invitation.Bin invitation)
          (Invitation.GameGroup invitation)
          (Invitation.CreatorId invitation)
          "received" "game" "I'm not down!" ""
          (Invitation.GameId invitation) false true]] "players";
  match err with
  | Some _ => mret (false, err)
  | None => mret (true, None)
  end.

End Part000.

(** ** Vocabulary of the properties *)

(** The test of the loops that look an invitation up by its id. *)
Definition has_id (invitationId : string) (i : Invitation.t) : bool :=
  String.eqb (Invitation.Bin i) invitationId.

(** The message of the error that refuses a terminal invitation. *)
Definition refusal (inv : Invitation.t) : string :=
  if Invitation.Accepted inv then "invitation already accepted"
  else "invitation already declined".

(** What the first loop of [DeclineGameGroupInvitation] makes of the
    invitation it reaches. *)
Definition declined_of (inv : Invitation.t) : Invitation.t :=
  Invitation.set_Status "declined"
    (Invitation.set_Accepted false (Invitation.set_Declined true inv)).

(** A request against one player's invitations. *)
Inductive transition :=
| Accept (invitationId groupId : string)
| Decline (invitationId groupId : string).

Definition apply_transition (t : transition) (p : Player.t) : M Player.t :=
  match t with
  | Accept invitationId groupId =>
      r ← AcceptGroupInvitation p invitationId groupId; mret r.1
  | Decline invitationId groupId =>
      DeclineGameGroupInvitation p invitationId groupId
  end.

Fixpoint apply_transitions (ts : list transition) (p : Player.t) : M Player.t :=
  match ts with
  | [] => mret p
  | t :: ts' => p' ← apply_transition t p; apply_transitions ts' p'
  end.

(** Every invitation persisted under any player is exclusive. *)
Definition stored_exclusive (d : Db) : Prop :=
  ∀ pId n key inv,
    db_players d !! pId = Some n →
    PlayerNode.Invitations n !! key = Some inv →
    Invitation.exclusive inv.


(** Total correctness of a computation: from a store that satisfies [P] it
    returns (no panic, no deadlock) a value and a store related by [Q]. *)
Definition returns {A} (P : Store → Prop) (m : M A) (Q : A → Store → Prop) : Prop :=
  ∀ s, P s → ∃ a s', m s = Done a s' ∧ Q a s'.


(** What the first loop of [AcceptGroupInvitation] makes of the pending
    invitation it reaches. *)
Definition accepted_of (inv : Invitation.t) : Invitation.t :=
  Invitation.set_Status "accepted" (Invitation.set_Accepted true inv).

(** The invitations of the player when [AcceptGroupInvitation] is over. *)
Definition accepted_invitations (invitationId : string) (l : list Invitation.t)
  : list Invitation.t :=
  match accept_scan invitationId l with
  | Marked l' => l'
  | _ => l
  end.


(** ** Sample data *)

Module Sample.

Definition pending : Invitation.t :=
  Invitation.mk "i1" "g1" "p1" "received" "group" "join us" "" "" false false.

Definition accepted : Invitation.t :=
  Invitation.mk "i1" "g1" "p1" "accepted" "group" "join us" "" "" true false.

Definition declined : Invitation.t :=
  Invitation.mk "i1" "g1" "p1" "declined" "group" "join us" "" "" false true.

Definition other : Invitation.t :=
  Invitation.mk "i0" "" "p1" "received" "game" "play?" "" "game1" false false.

Definition player (invs : list Invitation.t) : Player.t :=
  Player.mk "p2" "bo" "available" "" "public" invs [].

Definition group : GroupNode.t := GroupNode.mk "g1" "friends" 3 "waiting" ∅.

(** A tree that holds the group [g1], without members yet. *)
Definition tree : Db := on_game_groups (insert "g1" group) empty_db.

(** The mutex is free and no remote call fails. *)
Definition store : Store := mkStore tree false [].

(** The same, when the group already lists player [p2] (written as the
    one-element member list). *)
Definition member_store : Store :=
  mkStore (on_game_groups
             (insert "g1" (GroupNode.set_Members (encode_list [player [pending]]) group))
             empty_db)
          false [].

Definition step (bin duration next : string) : Step.t :=
  Step.mk bin "night" duration 0 false "" next "" "" ∅.

Definition vote (choice : string) : Vote.t := Vote.mk "game1" "p1" "s1" choice.

Definition result (bin gamer stamp choice : string) : Result.t :=
  Result.mk bin "s1" "game1" gamer stamp (Vote.mk "game1" gamer "s1" choice).

(** A game on its step [s1], whose successor is [s2]; gamer [p1] has
    voted once in [s1]. *)
Definition game : Game.t :=
  Game.mk "game1" "s1" "started" ["p2"]
    {["p1" := Gamer.mk "gamer1" "game1" "1" true]}
    {["s1" := Step.set_Result {["p1" := [result "r1" "p1" "10" "x"]]} (step "s1" "30" "s2");
      "s2" := step "s2" "45" ""]}
    ∅.

(** A tree with that game, its two steps, and player [p2] holding two
    invitations. *)
Definition game_tree : Db :=
  on_players (insert "p2" (PlayerNode.encode (player [other; pending])))
    (on_steps (insert "s1" (step "s1" "30" "s2"))
       (on_steps (insert "s2" (step "s2" "45" ""))
          (on_games (insert "game1" game) empty_db))).

Definition game_store : Store := mkStore game_tree false [].

End Sample.


(** The invitation that [AcceptGameInvitation] persists for [invitation]. *)
Definition accepted_game_invitation (invitation : Invitation.t) : Invitation.t :=
  Invitation.mk (Invitation.Bin invitation) (Invitation.GameGroup invitation)
    (Invitation.CreatorId invitation) "received" "game" "I'm down!" ""
    (Invitation.GameId invitation) true false.

(** The invitation that [DeclineGameInvitation] persists for [invitation]. *)
Definition declined_game_invitation (invitation : Invitation.t) : Invitation.t :=
  Invitation.mk (Invitation.Bin invitation) (Invitation.GameGroup invitation)
    (Invitation.CreatorId invitation) "received" "game" "I'm not down!" ""
    (Invitation.GameId invitation) false true.

(** The invitations persisted under a player. *)
Definition stored_invitations (s : Store) (playerId : string)
  : option (gmap string Invitation.t) :=
  PlayerNode.Invitations <$> db_players (db s) !! playerId.

(** The game that a read of [games/<gameId>] decodes. *)
Definition stored_game (s : Store) (gameId : string) : Game.t :=
  default Game.zero (db_games (db s) !! gameId).


(** The transient results of a gamer under a step of a game ([nil] when
    the step or the entry is absent). *)
Definition transient_results (g : Game.t) (step gamer : string) : list Result.t :=
  default [] (st ← Game.Steps g !! step; Step.Result st !! gamer).

(** The archived results of a gamer. *)
Definition archived_results (g : Game.t) (gamer : string) : list Result.t :=
  default [] (Game.StepResults g !! gamer).


(** The results that the first loop of [ArchiveStepResults] visits, in the
    order of the visit. *)
Definition step_results (o : RangeOrder) (step : Step.t) : list Result.t :=
  range o (Step.Result step) ≫= (λ kv, kv.2).

Definition all_results (o : RangeOrder) (game : Game.t) : list Result.t :=
  range o (Game.Steps game) ≫= (λ kv, step_results o kv.2).

(** [r] is held in the transient result map of some step of [game]. *)
Definition held_in (game : Game.t) (r : Result.t) : Prop :=
  ∃ stepBin st key l,
    Game.Steps game !! stepBin = Some st ∧
    Step.Result st !! key = Some l ∧
    r ∈ l.

(** Successive archival calls on one game, each with the enumeration
    orders its loops happen to follow. *)
Fixpoint archive_calls (archive : RangeOrder → string → M error)
    (os : list RangeOrder) (gameId : string) : M unit :=
  match os with
  | [] => mret ()
  | o :: os' => archive o gameId;; archive_calls archive os' gameId
  end.


(** A loop body that replaces the value under the visited key by [h] of
    it, unless [keep] holds of the value. *)
Definition update_entry {V} (keep : V → bool) (h : V → V)
    (acc : gmap string V) (kv : string * V) : gmap string V :=
  if keep kv.2 then acc else <[kv.1 := h kv.2]> acc.

(** The guard [step.Result != nil] of the first archival loop, negated. *)
Definition no_result (step : Step.t) : bool := Nat.eqb (size (Step.Result step)) 0.


(** The steps as the second loop of [AddAllStepsToDb] leaves them when
    every [Create] succeeds. *)
Fixpoint scheduled_from (i : nat) (rest : list Step.t) (startTime lastEndTime : string)
  : list Step.t :=
  match rest with
  | [] => []
  | s :: rest' =>
      let '(s', lastEndTime') := schedule_step i s startTime lastEndTime in
      s' :: scheduled_from (S i) rest' startTime lastEndTime'
  end.

Definition scheduled (steps : list Step.t) (startTime : string) : list Step.t :=
  scheduled_from 0 steps startTime "".

(** [endTime = startTime + duration * 1000 + 500], as the code computes it. *)
Definition end_of (s : Step.t) : string :=
  Go.Itoa (Go.add (Go.add (Go.Atoi (Step.StartTime s))
                          (Go.mul (Go.Atoi (Step.Duration s)) 1000)) 500).

(** [time + 500], as the code computes the start of a later step. *)
Definition after (time : string) : string :=
  Go.Itoa (Go.add (Go.Atoi time) 500).


(** ** Vocabulary of the further properties *)

(** The result that [buildStepResult] appends for a vote. *)
Definition vote_result (stamp uuid : string) (game : Game.t) (vote : Vote.t) : Result.t :=
  Result.mk uuid (Vote.StepBin vote) (Game.Bin game) (Vote.Source vote) stamp vote.

(** The tree after [steps] have been created one after the other. *)
Definition created_steps (steps : list Step.t) (d : Db) : Db :=
  foldl (λ d st, on_steps (insert (Step.Bin st) st) d) d steps.


(** The player once [AcceptGroupInvitation] has added the group id. *)
Definition with_group_id (groupId : string) (p : Player.t) : Player.t :=
  if bool_decide (groupId ∈ Player.GroupIds p) then p
  else Player.set_GroupIds (Player.GroupIds p ++ [groupId]) p.

(** The group that a read of [game_groups/<groupId>] decodes, if it does. *)
Definition stored_group (d : Db) (groupId : string) : option Group.t :=
  GroupNode.decode (default GroupNode.zero (db_game_groups d !! groupId)).

(** The members persisted under a group, by key. *)
Definition stored_members (d : Db) (groupId : string) : gmap string Player.t :=
  GroupNode.Members (default GroupNode.zero (db_game_groups d !! groupId)).

(** The node persisted for a player. *)
Definition stored_player (d : Db) (playerId : string) : PlayerNode.t :=
  default PlayerNode.zero (db_players d !! playerId).


(** ** Further functions of [store.go] *)

(** [AddInvitationToPlayer(playerId, bin, m)] sets
    [players/<playerId>/invitations/<bin>]. *)
Definition AddInvitationToPlayer (playerId bin : string) (m : Invitation.t) : M error :=
  remote_write (on_players (λ ps,
    let n := default PlayerNode.zero (ps !! playerId) in
    <[playerId := PlayerNode.set_Invitations (<[bin := m]> (PlayerNode.Invitations n)) n]> ps)).

(** [AddStepToGame(step, id)] sets [games/<id>/steps/<step.Bin>]. *)
Definition AddStepToGame (step : Step.t) (id : string) : M error :=
  remote_write (on_games (λ gs,
    let g := default Game.zero (gs !! id) in
    <[id := Game.set_Steps (<[Step.Bin step := step]> (Game.Steps g)) g]> gs)).

(** [GetGamerByBin(b, gId)] decodes [games/<gId>/gamers/<b>] into a
    [*Gamer], which stays [nil] on an absent node. *)
Definition GetGamerByBin (b gId : string) : M (option Gamer.t * error) :=
  failed ← remote;
  if failed : bool then mret (None, Some store_unavailable)
  else d ← read; mret (Game.Gamers (default Game.zero (db_games d !! gId)) !! b, None).

(** [SetGameFirstStep(bin, step)] sets [games/<bin>/current_step]. *)
Definition SetGameFirstStep (bin step : string) : M error :=
  remote_write (on_games (λ gs,
    <[bin := Game.set_CurrentStep step (default Game.zero (gs !! bin))]> gs)).

(** [AddGamerToGame(gameId, gamer)]; the result is the error, if any. *)
Definition AddGamerToGame (gameId : string) (gamer : Gamer.t) : M error :=
  '(game, err) ← GetByBin gameId "games";
  match err with
  | Some _ => mret err
  | None =>
      match game with
      | Some (EGame g) =>
          (* a [nil] gamer map is replaced by an empty one before the write *)
          let g := Game.set_Gamers (<[Gamer.Bin gamer := gamer]> (Game.Gamers g)) g in
          Update gameId [Field.gamers (Game.Gamers g)] "games"
      | _ => panic
      end
  end.

(** The loop of [RemovePlayerFromGame] over the gamers in the order of the
    enumeration: at the first gamer whose [bin] is [playerId] the entry
    under the key [playerId] is deleted and the loop is left. *)
Fixpoint remove_gamer (visit : list (string * Gamer.t)) (playerId : string)
    (gamers : gmap string Gamer.t) : gmap string Gamer.t :=
  match visit with
  | [] => gamers
  | kv :: visit' =>
      if String.eqb (Gamer.Bin kv.2) playerId then delete playerId gamers
      else remove_gamer visit' playerId gamers
  end.

Definition RemovePlayerFromGame (o : RangeOrder) (playerId gameId : string) : M unit :=
  '(game, err) ← GetByBin gameId "games";
  match err with
  | Some _ => mret ()
  | None =>
      match game with
      | Some (EGame g) =>
          let g := Game.set_Gamers
                     (remove_gamer (range o (Game.Gamers g)) playerId (Game.Gamers g)) g in
          Update gameId [Field.gamers (Game.Gamers g)] "games";;
          mret ()
      | _ => panic
      end
  end.

(** The loop of [AddStepsToGame]. *)
Fixpoint AddStepsToGame_range (rest : list Step.t) (gameId : string)
    (steps : list Step.t) : M (option (list Step.t)) :=
  match rest with
  | [] => mret (Some steps)
  | s :: rest' =>
      err ← AddStepToGame s gameId;
      match err with
      | Some _ => mret None
      | None => AddStepsToGame_range rest' gameId steps
      end
  end.

Definition AddStepsToGame (steps : list Step.t) (gameId : string)
  : M (option (list Step.t)) :=
  AddStepsToGame_range steps gameId steps.



(** [AddPlayerToGroup(playerId, groupId)] has no result. *)
Definition AddPlayerToGroup (playerId groupId : string) : M unit :=
  '(gameGroup, err) ← GetByBin groupId "game_groups";
  match err with
  | Some _ => mret ()
  | None =>
      match gameGroup with
      | Some (EGroup g) =>
          '(player, err) ← GetByBin playerId "players";
          match err with
          | Some _ => mret ()
          | None =>
              match player with
              | Some (EPlayer p) =>
                  let g := Group.set_Members (Group.Members g ++ [p]) g in
                  Update groupId [Field.members (Group.Members g)] "game_groups";;
                  mret ()
              | _ => panic
              end
          end
      | _ => panic
      end
  end.

Definition RemovePlayerFromGroup (playerId groupId : string) : M unit :=
  '(gameGroup, err) ← GetByBin groupId "game_groups";
  match err with
  | Some _ => mret ()
  | None =>
      match gameGroup with
      | Some (EGroup g) =>
          let g := Group.set_Members
                     (remove_first (λ m, String.eqb (Player.Bin m) playerId)
                                   (Group.Members g)) g in
          Update groupId [Field.members (Group.Members g)] "game_groups";;
          mret ()
      | _ => panic
      end
  end.

Definition InvitePlayerToGroup (playerId : string) (invitation : Invitation.t) : M unit :=
  '(player, err) ← GetByBin playerId "players";
  match err with
  | Some _ => mret ()
  | None =>
      match player with
      | Some (EPlayer p) =>
          AddInvitationToPlayer (Player.Bin p) (Invitation.Bin invitation) invitation;;
          mret ()
      | _ => panic
      end
  end.

(** [InvitePlayerToGame(playerId, invitation)].  [GetByBin] yields a
    [*models.Player]; the assertion [p.(models.Player)] that follows asks
    for the struct itself and panics on every value [GetByBin] can
    return. *)
Definition InvitePlayerToGame (playerId : string) (invitation : Invitation.t)
  : M (bool * error) :=
  err ← AddInvitationToPlayer playerId (Invitation.Bin invitation) invitation;
  match err with
  | Some _ => mret (false, err)
  | None =>
      '(p, err) ← GetByBin playerId "players";
      match err with
      | Some _ => mret (false, err)
      | None => panic
      end
  end.

(** The first loop of [CreateGameGroup]: the error of [GetByBin] is
    dropped and its value asserted to be a player, which panics on the
    [nil] of a failed read. *)
Fixpoint collect_users (userIds : list string) (users : list Player.t)
  : M (list Player.t) :=
  match userIds with
  | [] => mret users
  | uId :: rest =>
      '(user, _) ← GetByBin uId "players";
      match user with
      | Some (EPlayer p) => collect_users rest (users ++ [p])
      | _ => panic
      end
  end.

Definition CreateGameGroup (uuid : string) (groupName : string) (cap : Z)
    (ownerId : string) (userIds : list string) : M (bool * error) :=
  users ← collect_users userIds [];
  '(owner, _) ← GetByBin ownerId "players";
  match owner with
  | Some (EPlayer _) =>
      err ← Create (EGroup (Group.mk uuid groupName cap "waiting" users)) "game_groups";
      match err with
      | Some _ => mret (false, err)
      | None => mret (true, None)
      end
  | _ => panic
  end.

(** The loop of [AddRandomUsers]; [uuid i] and [rnd i] are what
    [uuid.New()] and the random source give at iteration [i].
    [rand.Intn(0)] panics. *)
Fixpoint AddRandomUsers_range (uuid : nat → string) (rnd : nat → nat) (i : nat)
    (rest : list string) (photoUrls : list string) : M (bool * error) :=
  match rest with
  | [] => mret (true, None)
  | un :: rest' =>
      match photoUrls !! (rnd i mod length photoUrls)%nat with
      | None => panic
      | Some photo =>
          err ← Create (EPlayer (Player.mk (uuid i) un "available" photo "public" [] []))
                       "player";
          match err with
          | Some _ => mret (false, err)
          | None => AddRandomUsers_range uuid rnd (S i) rest' photoUrls
          end
      end
  end.

Definition AddRandomUsers (uuid : nat → string) (rnd : nat → nat)
    (userNames photoUrls : list string) : M (bool * error) :=
  AddRandomUsers_range uuid rnd 0 userNames photoUrls.


(** The steps of a game after [steps] have been set one after the other,
    each under its bin. *)
Definition with_steps (steps : list Step.t) (m : gmap string Step.t) : gmap string Step.t :=
  foldl (λ m st, <[Step.Bin st := st]> m) m steps.

(** * Properties *)

(** ** Reasoning about store computations *)

Lemma returns_ret {A} (P : Store → Prop) (a : A) (Q : A → Store → Prop) :
  (∀ s, P s → Q a s) → returns P (mret a) Q.
Proof. intros HQ s Hs. exists a, s. split; [done|]. by apply HQ. Qed.

Lemma returns_bind {A B} (P : Store → Prop) (m : M A) (f : A → M B)
    (Q : A → Store → Prop) (R : B → Store → Prop) :
  returns P m Q →
  (∀ a, returns (Q a) (f a) R) →
  returns P (m ≫= f) R.
Proof.
  intros Hm Hf s Hs. destruct (Hm s Hs) as (a & s1 & Hrun & Ha).
  destruct (Hf a s1 Ha) as (b & s2 & Hrun2 & Hb).
  exists b, s2. split; [|done].
  unfold mbind, M_bind. by rewrite Hrun.
Qed.

Lemma returns_weaken {A} (P P' : Store → Prop) (m : M A) (Q Q' : A → Store → Prop) :
  returns P' m Q' → (∀ s, P s → P' s) → (∀ a s, Q' a s → Q a s) → returns P m Q.
Proof.
  intros Hm HP HQ s Hs. destruct (Hm s (HP s Hs)) as (a & s' & ? & ?).
  exists a, s'. eauto.
Qed.

(** A remote write either fails and leaves the tree alone, or succeeds and
    applies its change; the mutex is not touched.  [I] relates the tree and
    the state of the mutex. *)
Lemma remote_write_returns (I : Db → bool → Prop) (f : Db → Db) :
  (∀ d m, I d m → I (f d) m) →
  returns (λ s, I (db s) (mu s)) (remote_write f) (λ _ s, I (db s) (mu s)).
Proof.
  intros Hf [d m fs] Hd; simpl in *.
  unfold remote_write, mbind, M_bind, remote; simpl.
  destruct fs as [|[] fs]; simpl; eauto 10.
Qed.

Lemma remote_read_returns {A} (I : Db → bool → Prop) (get : Db → option A) :
  returns (λ s, I (db s) (mu s)) (remote_read get)
          (λ r s, I (db s) (mu s) ∧
                  (r.2 = None → ∃ a, r.1 = Some a ∧ get (db s) = Some a)).
Proof.
  intros [d m fs] Hd; simpl in *.
  unfold remote_read, mbind, M_bind, remote, read; simpl.
  destruct fs as [|[] fs]; simpl.
  - destruct (get d) eqn:Hget; simpl; eauto 10.
    do 2 eexists. split; [done|]. simpl. repeat split; try done.
  - do 2 eexists. split; [done|]. simpl. repeat split; try done.
  - destruct (get d) eqn:Hget; simpl; eauto 10.
    do 2 eexists. split; [done|]. simpl. repeat split; try done.
Qed.

Lemma GetByBin_group_returns (I : Db → bool → Prop) (groupId : string) :
  returns (λ s, I (db s) (mu s)) (GetByBin groupId "game_groups")
          (λ r s, I (db s) (mu s) ∧ (r.2 = None → ∃ g, r.1 = Some (EGroup g))).
Proof.
  unfold GetByBin; simpl.
  eapply returns_weaken; [apply (remote_read_returns I)|done|].
  intros [r e] s (? & Hr). split; [done|].
  intros He. destruct (Hr He) as (a & -> & Hget).
  destruct (GroupNode.decode _); simplify_eq/=. eauto.
Qed.

(** ** Invitation transitions *)

Lemma accept_scan_terminal invitationId l inv :
  find (has_id invitationId) l = Some inv →
  Invitation.terminal inv = true →
  accept_scan invitationId l = Refused (refusal inv).
Proof.
  induction l as [|i l IH]; simpl; [discriminate|].
  unfold has_id at 1. destruct (String.eqb (Invitation.Bin i) invitationId).
  - intros [= ->] Hterm. unfold Invitation.terminal in Hterm. unfold refusal.
    destruct (Invitation.Accepted inv); [done|].
    simpl in Hterm. by rewrite Hterm.
  - intros Hfind Hterm. by rewrite IH.
Qed.

(** C6: when the invitation that the lookup by id reaches is already
    accepted, [AcceptGroupInvitation] returns [false] with the error
    "invitation already accepted"; when it is already declined, with the
    error "invitation already declined".  In both cases the player (hence
    the invitation's [accepted], [declined] and [status]) and the whole
    store, remote tree and fault schedule included, are exactly as before:
    nothing was mutated and no remote call was made. *)
Theorem AcceptGroupInvitation_refuses_terminal
    (p : Player.t) (invitationId groupId : string) (inv : Invitation.t) (s : Store) :
  find (has_id invitationId) (Player.Invitations p) = Some inv →
  Invitation.terminal inv = true →
  AcceptGroupInvitation p invitationId groupId s
  = Done (p, (false, Some (refusal inv))) s.
Proof.
  intros Hfind Hterm. unfold AcceptGroupInvitation.
  by rewrite (accept_scan_terminal _ _ _ Hfind Hterm).
Qed.

(** *** What the lookup loops do to the invitation they reach *)

Lemma accept_scan_exclusive invitationId l l' :
  Forall Invitation.exclusive l →
  accept_scan invitationId l = Marked l' →
  Forall Invitation.exclusive l'.
Proof.
  revert l'. induction l as [|i l IH]; intros l' Hl; simpl; [discriminate|].
  apply Forall_cons in Hl as [Hi Hl].
  destruct (String.eqb (Invitation.Bin i) invitationId).
  - destruct (Invitation.Accepted i) eqn:Ha; [discriminate|].
    destruct (Invitation.Declined i) eqn:Hd; [discriminate|].
    intros [= <-]. constructor; [|done].
    unfold Invitation.exclusive; simpl. rewrite Hd. intros [_ [=]].
  - destruct (accept_scan invitationId l) as [|l''|]; try discriminate.
    intros [= <-]. constructor; auto.
Qed.

Lemma declined_of_exclusive inv : Invitation.exclusive (declined_of inv).
Proof. unfold Invitation.exclusive, declined_of; simpl. intros [[=] _]. Qed.

Lemma decline_scan_exclusive invitationId l :
  Forall Invitation.exclusive l →
  Forall Invitation.exclusive (decline_scan invitationId l).
Proof.
  induction 1 as [|i l Hi Hl IH]; simpl; [constructor|].
  destruct (String.eqb (Invitation.Bin i) invitationId).
  - constructor; [apply declined_of_exclusive|done].
  - by constructor.
Qed.

Lemma decline_scan_find invitationId l inv :
  find (has_id invitationId) l = Some inv →
  find (has_id invitationId) (decline_scan invitationId l) = Some (declined_of inv).
Proof.
  induction l as [|i l IH]; simpl; [discriminate|].
  unfold has_id at 1. destruct (String.eqb (Invitation.Bin i) invitationId) eqn:Hid.
  - intros [= ->]. simpl. unfold has_id; simpl. by rewrite Hid.
  - intros Hfind. simpl. unfold has_id at 1. rewrite Hid. auto.
Qed.

(** *** The persisted invitations *)

Lemma encode_from_elem {A} (l : list A) (i : nat) (key : string) (x : A) :
  encode_from i l !! key = Some x → x ∈ l.
Proof.
  revert i. induction l as [|y l IH]; intros i; simpl.
  - by rewrite lookup_empty.
  - rewrite lookup_insert. case_decide.
    + intros [= ->]. left.
    + intros Hl. right. eauto.
Qed.

Lemma stored_exclusive_players (f : gmap string PlayerNode.t → gmap string PlayerNode.t)
    (d : Db) :
  stored_exclusive d →
  (∀ pId n key inv,
     f (db_players d) !! pId = Some n →
     PlayerNode.Invitations n !! key = Some inv →
     Invitation.exclusive inv) →
  stored_exclusive (on_players f d).
Proof. intros _ Hf pId n key inv; simpl. apply Hf. Qed.

Lemma stored_exclusive_game_groups f d :
  stored_exclusive d → stored_exclusive (on_game_groups f d).
Proof. intros Hd pId n key inv; simpl. apply Hd. Qed.

Lemma UpdateInvitation_exclusive pId inviteId :
  returns (λ s, stored_exclusive (db s))
          (UpdateInvitation pId inviteId [Field.accepted true; Field.declined false])
          (λ _ s, stored_exclusive (db s)).
Proof.
  apply (remote_write_returns (λ d _, stored_exclusive d)).
  intros d _ Hd. apply stored_exclusive_players; [done|].
  intros p n key inv. rewrite lookup_insert. case_decide as Hp; [|by apply Hd].
  intros [= <-]; simpl. rewrite lookup_insert. case_decide.
  - intros [= <-]. unfold Invitation.exclusive; simpl. intros [_ [=]].
  - destruct (db_players d !! pId) as [n|] eqn:Hn; simpl.
    + by apply (Hd pId n).
    + by rewrite lookup_empty.
Qed.

Lemma Update_group_ids_exclusive b l :
  returns (λ s, stored_exclusive (db s))
          (Update b [Field.group_ids l] "players")
          (λ _ s, stored_exclusive (db s)).
Proof.
  apply (remote_write_returns (λ d _, stored_exclusive d)).
  intros d _ Hd. apply stored_exclusive_players; [done|].
  intros p n key inv. rewrite lookup_insert. case_decide as Hp; [|by apply Hd].
  intros [= <-]; simpl.
  destruct (db_players d !! b) as [n|] eqn:Hn; simpl.
  - by apply (Hd b n).
  - by rewrite lookup_empty.
Qed.

Lemma Update_invitations_exclusive b l :
  Forall Invitation.exclusive l →
  returns (λ s, stored_exclusive (db s))
          (Update b [Field.invitations l] "players")
          (λ _ s, stored_exclusive (db s)).
Proof.
  intros Hl. apply (remote_write_returns (λ d _, stored_exclusive d)).
  intros d _ Hd. apply stored_exclusive_players; [done|].
  intros p n key inv. rewrite lookup_insert. case_decide as Hp; [|by apply Hd].
  intros [= <-]; simpl. intros Hin%encode_from_elem.
  by eapply Forall_forall in Hl.
Qed.

Lemma AddPlayerToGroupMembers_exclusive gId bin m :
  returns (λ s, stored_exclusive (db s))
          (AddPlayerToGroupMembers gId bin m)
          (λ _ s, stored_exclusive (db s)).
Proof.
  apply (remote_write_returns (λ d _, stored_exclusive d)).
  intros d _ Hd. by apply stored_exclusive_game_groups.
Qed.

Lemma Update_members_exclusive b l :
  returns (λ s, stored_exclusive (db s))
          (Update b [Field.members l] "game_groups")
          (λ _ s, stored_exclusive (db s)).
Proof.
  apply (remote_write_returns (λ d _, stored_exclusive d)).
  intros d _ Hd. by apply stored_exclusive_game_groups.
Qed.

Lemma returns_pure {A} (φ : Prop) (P : Store → Prop) (m : M A) (Q : A → Store → Prop) :
  (φ → returns P m Q) → returns (λ s, P s ∧ φ) m Q.
Proof. intros Hm s [Hs Hφ]. by apply Hm. Qed.

(** Whatever the remote calls do, [AcceptGroupInvitation] returns and
    keeps the persisted invitations exclusive; the invitations in memory
    are those that the first loop left. *)
Lemma AcceptGroupInvitation_join_exclusive q groupId :
  returns (λ s, stored_exclusive (db s)) (AcceptGroupInvitation_join q groupId)
          (λ r s, stored_exclusive (db s) ∧
                  Player.Invitations r.1 = Player.Invitations q).
Proof.
  unfold AcceptGroupInvitation_join. cbv zeta.
  set (q' := if bool_decide (groupId ∈ Player.GroupIds q) then q else _).
  assert (Hq' : Player.Invitations q' = Player.Invitations q)
    by (subst q'; by case_bool_decide).
  rewrite <- Hq'. clearbody q'.
  eapply returns_bind; [apply Update_group_ids_exclusive|].
  intros [e|]; [by apply returns_ret|].
  eapply returns_bind;
    [apply (GetByBin_group_returns (λ d _, stored_exclusive d))|].
  intros [g [e|]]; apply returns_pure; simpl; [intros _; by apply returns_ret|].
  intros Hg; destruct (Hg eq_refl) as [g' ->].
  eapply returns_bind; [apply AddPlayerToGroupMembers_exclusive|].
  intros [e|]; by apply returns_ret.
Qed.

Lemma AcceptGroupInvitation_exclusive p invitationId groupId :
  returns (λ s, stored_exclusive (db s))
          (AcceptGroupInvitation p invitationId groupId)
          (λ r s, stored_exclusive (db s) ∧
                  Player.Invitations r.1
                  = accepted_invitations invitationId (Player.Invitations p)).
Proof.
  unfold AcceptGroupInvitation, accepted_invitations.
  destruct (accept_scan invitationId (Player.Invitations p)) as [msg|l|] eqn:Hscan.
  - by apply returns_ret.
  - cbv zeta. eapply returns_bind; [apply UpdateInvitation_exclusive|].
    intros ?. apply AcceptGroupInvitation_join_exclusive.
  - apply AcceptGroupInvitation_join_exclusive.
Qed.

Lemma DeclineGameGroupInvitation_exclusive p invitationId groupId :
  Forall Invitation.exclusive (Player.Invitations p) →
  returns (λ s, stored_exclusive (db s))
          (DeclineGameGroupInvitation p invitationId groupId)
          (λ r s, stored_exclusive (db s) ∧
                  r = Player.set_Invitations
                        (decline_scan invitationId (Player.Invitations p)) p).
Proof.
  intros Hp. unfold DeclineGameGroupInvitation. cbv zeta.
  pose proof (decline_scan_exclusive invitationId _ Hp) as Hl.
  eapply returns_bind; [by apply Update_invitations_exclusive|].
  intros [e|]; [by apply returns_ret|].
  eapply returns_bind;
    [apply (GetByBin_group_returns (λ d _, stored_exclusive d))|].
  intros [g [e|]]; apply returns_pure; simpl; [intros _; by apply returns_ret|].
  intros Hg; destruct (Hg eq_refl) as [g' ->].
  eapply returns_bind; [apply Update_members_exclusive|].
  intros ?. by apply returns_ret.
Qed.

Lemma accepted_invitations_exclusive invitationId l :
  Forall Invitation.exclusive l →
  Forall Invitation.exclusive (accepted_invitations invitationId l).
Proof.
  intros Hl. unfold accepted_invitations.
  destruct (accept_scan invitationId l) eqn:Hscan; try done.
  by eapply accept_scan_exclusive.
Qed.

Lemma accept_scan_pending invitationId l inv :
  find (has_id invitationId) l = Some inv →
  Invitation.terminal inv = false →
  find (has_id invitationId) (accepted_invitations invitationId l)
  = Some (accepted_of inv).
Proof.
  unfold accepted_invitations.
  induction l as [|i l IH]; simpl; [discriminate|].
  unfold has_id at 1. destruct (String.eqb (Invitation.Bin i) invitationId) eqn:Hid.
  - intros [= ->]. unfold Invitation.terminal. intros [Ha Hd]%orb_false_elim.
    rewrite Ha, Hd. simpl. unfold has_id; simpl. by rewrite Hid.
  - intros Hfind Hterm. specialize (IH Hfind Hterm).
    destruct (accept_scan invitationId l); simpl; unfold has_id at 1;
      rewrite Hid; simpl in *; done.
Qed.

Lemma stored_exclusive_empty : stored_exclusive empty_db.
Proof. intros pId n key inv; simpl. by rewrite lookup_empty. Qed.

Lemma apply_transition_exclusive t p :
  Forall Invitation.exclusive (Player.Invitations p) →
  returns (λ s, stored_exclusive (db s)) (apply_transition t p)
          (λ q s, stored_exclusive (db s) ∧
                  Forall Invitation.exclusive (Player.Invitations q)).
Proof.
  intros Hp. destruct t as [invitationId groupId|invitationId groupId]; simpl.
  - eapply returns_bind; [apply AcceptGroupInvitation_exclusive|].
    intros r. apply returns_pure. intros Hr. apply returns_ret.
    intros s Hs. split; [done|]. rewrite Hr.
    by apply accepted_invitations_exclusive.
  - eapply returns_weaken;
      [by apply DeclineGameGroupInvitation_exclusive|done|].
    intros q s [Hs ->]. split; [done|]. simpl.
    by apply decline_scan_exclusive.
Qed.

(** C7: from a player whose invitations, in memory and persisted, are
    exclusive (never [accepted] and [declined] at once), every sequence of
    accept and decline requests runs to its end, whatever remote calls fail
    on the way, and leaves all invitations, in memory and persisted,
    exclusive.  An accept that reaches a pending invitation leaves it with
    [accepted = true] and [declined = false]; a decline leaves the
    invitation it reaches with [declined = true] and [accepted = false]. *)
Theorem transitions_keep_invitations_exclusive (p : Player.t) (s : Store) :
  Forall Invitation.exclusive (Player.Invitations p) →
  stored_exclusive (db s) →
  (∀ ts, ∃ p' s',
     apply_transitions ts p s = Done p' s' ∧
     Forall Invitation.exclusive (Player.Invitations p') ∧
     stored_exclusive (db s')) ∧
  (∀ invitationId groupId inv,
     find (has_id invitationId) (Player.Invitations p) = Some inv →
     Invitation.terminal inv = false →
     ∃ p' s',
       apply_transition (Accept invitationId groupId) p s = Done p' s' ∧
       find (has_id invitationId) (Player.Invitations p') = Some (accepted_of inv) ∧
       Invitation.Accepted (accepted_of inv) = true ∧
       Invitation.Declined (accepted_of inv) = false) ∧
  (∀ invitationId groupId inv,
     find (has_id invitationId) (Player.Invitations p) = Some inv →
     ∃ p' s',
       apply_transition (Decline invitationId groupId) p s = Done p' s' ∧
       find (has_id invitationId) (Player.Invitations p') = Some (declined_of inv) ∧
       Invitation.Declined (declined_of inv) = true ∧
       Invitation.Accepted (declined_of inv) = false).
Proof.
  intros Hp Hs. split; [|split].
  - intros ts. revert p s Hp Hs.
    induction ts as [|t ts IH]; intros p s Hp Hs; simpl.
    + by exists p, s.
    + destruct (apply_transition_exclusive t p Hp s Hs) as (q & s1 & Hrun & Hs1 & Hq).
      destruct (IH q s1 Hq Hs1) as (p' & s' & Hrun' & ? & ?).
      exists p', s'. split; [|done].
      unfold mbind, M_bind. by rewrite Hrun.
  - intros invitationId groupId inv Hfind Hterm. simpl.
    destruct (AcceptGroupInvitation_exclusive p invitationId groupId s Hs)
      as (r & s' & Hrun & _ & Hr).
    exists r.1, s'. unfold mbind, M_bind. rewrite Hrun. split; [done|].
    rewrite Hr. split; [by apply accept_scan_pending|].
    split; [done|]. unfold Invitation.terminal in Hterm.
    apply orb_false_elim in Hterm as [_ Hd]. done.
  - intros invitationId groupId inv Hfind. simpl.
    destruct (DeclineGameGroupInvitation_exclusive p invitationId groupId Hp s Hs)
      as (q & s' & Hrun & _ & ->).
    eexists _, s'. split; [done|]. simpl.
    split; [by apply decline_scan_find|done].
Qed.

Lemma transitions_keep_invitations_exclusive_witness :
  ∃ p' s',
    apply_transitions [Accept "i1" "g1"; Decline "i1" "g1"; Accept "i1" "g1"]
                      (Sample.player [Sample.other; Sample.pending]) Sample.store
    = Done p' s' ∧
    Forall Invitation.exclusive (Player.Invitations p') ∧
    stored_exclusive (db s').
Proof.
  refine (proj1 (transitions_keep_invitations_exclusive
                   (Sample.player [Sample.other; Sample.pending]) Sample.store _ _) _).
  - repeat constructor; intros [? ?]; discriminate.
  - intros pId n key inv; simpl. rewrite lookup_empty. discriminate.
Defined.

Lemma AcceptGroupInvitation_refuses_terminal_witness :
  AcceptGroupInvitation (Sample.player [Sample.other; Sample.declined]) "i1" "g1" Sample.store
  = Done (Sample.player [Sample.other; Sample.declined],
          (false, Some "invitation already declined")) Sample.store.
Proof.
  apply (AcceptGroupInvitation_refuses_terminal
           (Sample.player [Sample.other; Sample.declined]) "i1" "g1" Sample.declined);
    reflexivity.
Defined.

(** Remote writes and reads return whatever the fault schedule holds. *)
Lemma DeclineGameGroupInvitation_returns p invitationId groupId :
  returns (λ _, True) (DeclineGameGroupInvitation p invitationId groupId)
          (λ r _, r = Player.set_Invitations
                        (decline_scan invitationId (Player.Invitations p)) p).
Proof.
  unfold DeclineGameGroupInvitation. cbv zeta.
  eapply returns_bind; [by apply (remote_write_returns (λ _ _, True))|].
  intros [e|]; [by apply returns_ret|].
  eapply returns_bind; [apply (GetByBin_group_returns (λ _ _, True))|].
  intros [g [e|]]; apply returns_pure; simpl; [intros _; by apply returns_ret|].
  intros Hg; destruct (Hg eq_refl) as [g' ->].
  eapply returns_bind; [by apply (remote_write_returns (λ _ _, True))|].
  intros ?. by apply returns_ret.
Qed.

(** C5 (as the code has it): on an invitation that is already terminal,
    [AcceptGroupInvitation] fails explicitly: it returns [false] and an
    error, and changes nothing.  [DeclineGameGroupInvitation] has no result
    and no such check: it always returns, and leaves the invitation it
    reaches with [declined = true], [accepted = false] and status
    "declined", also when the invitation was accepted before. *)
Theorem terminal_invitation_accept_refused_decline_overwrites
    (p : Player.t) (invitationId groupId : string) (inv : Invitation.t) (s : Store) :
  find (has_id invitationId) (Player.Invitations p) = Some inv →
  Invitation.terminal inv = true →
  AcceptGroupInvitation p invitationId groupId s
  = Done (p, (false, Some (refusal inv))) s ∧
  ∃ p' s',
    DeclineGameGroupInvitation p invitationId groupId s = Done p' s' ∧
    find (has_id invitationId) (Player.Invitations p') = Some (declined_of inv) ∧
    Invitation.Declined (declined_of inv) = true ∧
    Invitation.Accepted (declined_of inv) = false ∧
    Invitation.Status (declined_of inv) = "declined".
Proof.
  intros Hfind Hterm. split.
  - unfold AcceptGroupInvitation.
    by rewrite (accept_scan_terminal _ _ _ Hfind Hterm).
  - destruct (DeclineGameGroupInvitation_returns p invitationId groupId s I)
      as (q & s' & Hrun & ->).
    eexists _, s'. split; [done|]. simpl.
    split; [by apply decline_scan_find|done].
Qed.

Lemma terminal_invitation_accept_refused_decline_overwrites_witness :
  AcceptGroupInvitation (Sample.player [Sample.accepted]) "i1" "g1" Sample.store
  = Done (Sample.player [Sample.accepted], (false, Some "invitation already accepted"))
         Sample.store ∧
  ∃ p' s',
    DeclineGameGroupInvitation (Sample.player [Sample.accepted]) "i1" "g1" Sample.store
    = Done p' s' ∧
    find (has_id "i1") (Player.Invitations p') = Some Sample.declined.
Proof.
  destruct (terminal_invitation_accept_refused_decline_overwrites
              (Sample.player [Sample.accepted]) "i1" "g1" Sample.accepted Sample.store
              eq_refl eq_refl) as [Ha (p' & s' & Hd & Hfind & _)].
  split; [exact Ha|]. exists p', s'. split; [exact Hd|exact Hfind].
Defined.

(** C5, refuted as stated: declining an invitation that was accepted does
    not fail; the call returns, and the invitation is declined and no
    longer accepted, in memory and in the tree. *)
Lemma decline_flips_accepted_invitation :
  Invitation.terminal Sample.accepted = true ∧
  ∃ s',
    DeclineGameGroupInvitation (Sample.player [Sample.accepted]) "i1" "g1" Sample.store
    = Done (Sample.player [Sample.declined]) s' ∧
    Invitation.Accepted Sample.declined = false ∧
    Invitation.Declined Sample.declined = true ∧
    (db_players (db s') !! "p2") ≫= (λ n, PlayerNode.Invitations n !! "0")
    = Some Sample.declined.
Proof.
  split; [reflexivity|]. eexists. split; [vm_compute; reflexivity|].
  repeat split; vm_compute; reflexivity.
Qed.

(** ** Game invitations *)

Lemma pretty_0 : pretty 0%nat = "0".
Proof. vm_compute. reflexivity. Qed.

Lemma encode_list_singleton {A} (x : A) : encode_list [x] = {["0" := x]}.
Proof. unfold encode_list; simpl. rewrite pretty_0. by rewrite insert_empty. Qed.

Lemma AcceptGameInvitation_success uuid playerId invitation s s' :
  AcceptGameInvitation uuid playerId invitation s = Done (true, None) s' →
  stored_invitations s' playerId
  = Some (encode_list [accepted_game_invitation invitation]).
Proof.
  destruct s as [d m fs].
  unfold AcceptGameInvitation, GetByBin, Update, UpdateGame, UpdatePlayer,
    remote_read, remote_write, remote, read, write, mbind, M_bind, mret, M_ret,
    stored_invitations; simpl.
  destruct fs as [|[] fs]; simpl; try discriminate.
  all: destruct (size _ =? _)%nat; simpl; try discriminate.
  all: try (destruct fs as [|[] fs]; simpl; try discriminate).
  all: try (destruct fs as [|[] fs]; simpl; try discriminate).
  all: intros [= <-]; simpl; by rewrite lookup_insert_eq.
Qed.

Lemma DeclineGameInvitation_success playerId invitation s s' :
  DeclineGameInvitation playerId invitation s = Done (true, None) s' →
  stored_invitations s' playerId
  = Some (encode_list [declined_game_invitation invitation]).
Proof.
  destruct s as [d m fs].
  unfold DeclineGameInvitation, GetByBin, Update, UpdateGame, UpdatePlayer,
    remote_read, remote_write, remote, read, write, mbind, M_bind, mret, M_ret,
    stored_invitations; simpl.
  destruct fs as [|[] fs]; simpl; try discriminate.
  all: try (destruct fs as [|[] fs]; simpl; try discriminate).
  all: try (destruct fs as [|[] fs]; simpl; try discriminate).
  all: intros [= <-]; simpl; by rewrite lookup_insert_eq.
Qed.

Lemma Part000_game_invitation_success playerId invitation s s' :
  (Part000.AcceptGameInvitation playerId invitation s = Done (true, None) s' →
   stored_invitations s' playerId
   = Some (encode_list [accepted_game_invitation invitation])) ∧
  (Part000.DeclineGameInvitation playerId invitation s = Done (true, None) s' →
   stored_invitations s' playerId
   = Some (encode_list [declined_game_invitation invitation])).
Proof.
  destruct s as [d m fs].
  unfold Part000.AcceptGameInvitation, Part000.DeclineGameInvitation,
    Update, UpdatePlayer, remote_write, remote, write, mbind, M_bind, mret, M_ret,
    stored_invitations; simpl.
  split.
  all: destruct fs as [|[] fs]; simpl; try discriminate.
  all: intros [= <-]; simpl; by rewrite lookup_insert_eq.
Qed.

Lemma game_invitation_fault_free uuid playerId invitation s :
  faults s = [] →
  (Game.Gamers (stored_game s (Invitation.GameId invitation)) ≠ ∅ →
   ∃ s', AcceptGameInvitation uuid playerId invitation s = Done (true, None) s') ∧
  (∃ s', DeclineGameInvitation playerId invitation s = Done (true, None) s') ∧
  (∃ s', Part000.AcceptGameInvitation playerId invitation s = Done (true, None) s') ∧
  (∃ s', Part000.DeclineGameInvitation playerId invitation s = Done (true, None) s').
Proof.
  destruct s as [d m fs]; simpl. intros ->.
  unfold AcceptGameInvitation, DeclineGameInvitation,
    Part000.AcceptGameInvitation, Part000.DeclineGameInvitation,
    GetByBin, Update, UpdateGame, UpdatePlayer, stored_game,
    remote_read, remote_write, remote, read, write, mbind, M_bind, mret, M_ret;
    simpl.
  split; [|split; [|split]].
  - intros Hne. destruct (size _ =? _)%nat eqn:Hsize.
    + apply Nat.eqb_eq, map_size_empty_iff in Hsize. done.
    + eexists. reflexivity.
  - eexists. reflexivity.
  - eexists. reflexivity.
  - eexists. reflexivity.
Qed.

(** C10: when [AcceptGameInvitation] or [DeclineGameInvitation] succeeds
    (in [store.go] and in the second copy alike), what is persisted as the
    player's invitations is the one-element list built from the invitation
    being processed, with status "received", the fixed message and the
    flags of the answer: index [0] holds that record and no other key is
    left, whatever invitations the player had before.  With no failing
    remote call both succeed (the accept of [store.go] needs a game with a
    gamer map to write into). *)
Theorem game_invitation_overwrites_invitations
    (uuid playerId : string) (invitation : Invitation.t) (s : Store) :
  (∀ s' (run : M (bool * error)),
     run = AcceptGameInvitation uuid playerId invitation ∨
     run = Part000.AcceptGameInvitation playerId invitation →
     run s = Done (true, None) s' →
     stored_invitations s' playerId
     = Some {["0" := accepted_game_invitation invitation]} ∧
     Invitation.Status (accepted_game_invitation invitation) = "received" ∧
     Invitation.Message (accepted_game_invitation invitation) = "I'm down!") ∧
  (∀ s' (run : M (bool * error)),
     run = DeclineGameInvitation playerId invitation ∨
     run = Part000.DeclineGameInvitation playerId invitation →
     run s = Done (true, None) s' →
     stored_invitations s' playerId
     = Some {["0" := declined_game_invitation invitation]} ∧
     Invitation.Status (declined_game_invitation invitation) = "received" ∧
     Invitation.Message (declined_game_invitation invitation) = "I'm not down!") ∧
  (faults s = [] →
   (Game.Gamers (stored_game s (Invitation.GameId invitation)) ≠ ∅ →
    ∃ s', AcceptGameInvitation uuid playerId invitation s = Done (true, None) s') ∧
   (∃ s', DeclineGameInvitation playerId invitation s = Done (true, None) s') ∧
   (∃ s', Part000.AcceptGameInvitation playerId invitation s = Done (true, None) s') ∧
   (∃ s', Part000.DeclineGameInvitation playerId invitation s = Done (true, None) s')).
Proof.
  split; [|split].
  - intros s' run [-> | ->] Hrun; (split; [|split; reflexivity]);
      rewrite <- encode_list_singleton.
    + exact (AcceptGameInvitation_success _ _ _ _ _ Hrun).
    + exact (proj1 (Part000_game_invitation_success _ _ _ _) Hrun).
  - intros s' run [-> | ->] Hrun; (split; [|split; reflexivity]);
      rewrite <- encode_list_singleton.
    + exact (DeclineGameInvitation_success _ _ _ _ Hrun).
    + exact (proj2 (Part000_game_invitation_success _ _ _ _) Hrun).
  - apply game_invitation_fault_free.
Qed.

Lemma game_invitation_overwrites_invitations_witness :
  stored_invitations Sample.game_store "p2"
  = Some {["0" := Sample.other; "1" := Sample.pending]} ∧
  ∃ s',
    AcceptGameInvitation "u1" "p2" Sample.other Sample.game_store
    = Done (true, None) s' ∧
    stored_invitations s' "p2"
    = Some {["0" := accepted_game_invitation Sample.other]}.
Proof.
  split; [vm_compute; reflexivity|].
  destruct (game_invitation_overwrites_invitations
              "u1" "p2" Sample.other Sample.game_store) as (Hacc & _ & Hrun).
  destruct (Hrun eq_refl) as (Hok & _).
  destruct Hok as [s' Hs'].
  - intros Hempty. apply (f_equal (λ m, m !! "p1")) in Hempty.
    vm_compute in Hempty. discriminate.
  - exists s'. split; [exact Hs'|].
    exact (proj1 (Hacc s' _ (or_introl eq_refl) Hs')).
Defined.

(** ** Group membership *)

(** C8, at a group [g1] and a player [p2] with a pending invitation.  When
    the group has no member, the accept succeeds and the member collection
    then holds the player under the key [g1], the bin of the group, and
    nothing under [p2], the bin of the player.  When the group already
    lists [p2], the accept succeeds and the collection holds two entries
    for [p2]: the old one and a new one under [g1]. *)
Theorem AcceptGroupInvitation_keys_member_by_group_bin :
  (∃ p' s',
     AcceptGroupInvitation (Sample.player [Sample.pending]) "i1" "g1" Sample.store
     = Done (p', (true, None)) s' ∧
     Player.Bin p' = "p2" ∧
     (GroupNode.Members <$> db_game_groups (db s') !! "g1") = Some {["g1" := p']}) ∧
  (∃ p' s' members,
     (GroupNode.Members <$> db_game_groups (db Sample.member_store) !! "g1")
     = Some {["0" := Sample.player [Sample.pending]]} ∧
     AcceptGroupInvitation (Sample.player [Sample.pending]) "i1" "g1" Sample.member_store
     = Done (p', (true, None)) s' ∧
     (GroupNode.Members <$> db_game_groups (db s') !! "g1") = Some members ∧
     size members = 2%nat ∧
     (Player.Bin <$> members !! "0") = Some "p2" ∧
     (Player.Bin <$> members !! "g1") = Some "p2").
Proof.
  split.
  - eexists _, _. split; [vm_compute; reflexivity|].
    split; vm_compute; reflexivity.
  - eexists _, _, _. split; [vm_compute; reflexivity|].
    split; [vm_compute; reflexivity|].
    split; [vm_compute; reflexivity|].
    repeat split; vm_compute; reflexivity.
Qed.

(** ** Current-step advancement *)

(** C9, at a game on step [s1] whose [nextStep] is [s2], both steps being
    in the tree: [SetNextStep] returns and the game is still on [s1]. *)
Theorem SetNextStep_stays_on_current_step :
  Game.CurrentStep (stored_game Sample.game_store "game1") = "s1" ∧
  (Step.NextStep <$> db_steps (db Sample.game_store) !! "s1") = Some "s2" ∧
  is_Some (db_steps (db Sample.game_store) !! "s2") ∧
  ∃ s',
    SetNextStep "game1" Sample.game_store = Done () s' ∧
    Game.CurrentStep (stored_game s' "game1") = "s1".
Proof.
  split; [vm_compute; reflexivity|].
  split; [vm_compute; reflexivity|].
  split; [vm_compute; eauto|].
  eexists. split; vm_compute; reflexivity.
Qed.

(** Whatever the tree holds, [SetNextStep] never reads [nextStep]: when it
    writes, the new current step is the [bin] recorded in the step stored
    under the old current step. *)
Lemma SetNextStep_writes_bin_of_current_step gameId s s' :
  SetNextStep gameId s = Done () s' →
  db s' = db s ∨
  ∃ step,
    db_steps (db s) !! Game.CurrentStep (stored_game s gameId) = Some step ∧
    db s' = update_game gameId [Field.current_step (Step.Bin step)] (db s).
Proof.
  destruct s as [d m fs].
  unfold SetNextStep, GetByBin, GetStepByBin, Update, UpdateGame, stored_game,
    remote_read, remote_write, remote, read, write, mbind, M_bind, mret, M_ret;
    simpl.
  destruct fs as [|[] fs]; simpl; try (intros [= <-]; by left).
  all: try (destruct fs as [|[] fs]; simpl; try (intros [= <-]; by left)).
  all: destruct (db_steps d !! _) as [step|] eqn:Hstep; simpl; try discriminate.
  all: destruct (String.eqb (Step.Bin step) ""); simpl; try discriminate.
  all: try (destruct fs as [|[] fs]; simpl; try (intros [= <-]; by left)).
  all: intros [= <-]; right; exists step; by simpl.
Qed.

(** ** Step scheduler *)

(** C1, at three steps of 30, 45 and 60 seconds scheduled from ["1000"]:
    the call returns the three steps followed by the three steps again;
    indices are the positions, step 0 starts at ["1000"], every end time is
    start + duration * 1000 + 500, step 1 starts 500 after the end of step
    0; but step 2 starts at ["32000"], 500 after the end of step 0 again,
    and not at ["78000"], 500 after the end of step 1. *)
Theorem AddAllStepsToDb_third_step_starts_with_second :
  ∃ s0 s1 s2 s',
    AddAllStepsToDb [Sample.step "a" "30" ""; Sample.step "b" "45" "";
                     Sample.step "c" "60" ""] "1000" Sample.store
    = Done ([s0; s1; s2], Some [s0; s1; s2; s0; s1; s2]) s' ∧
    (Step.StepIndex s0, Step.StartTime s0, Step.EndTime s0) = (0, "1000", "31500") ∧
    (Step.StepIndex s1, Step.StartTime s1, Step.EndTime s1) = (1, "32000", "77500") ∧
    (Step.StepIndex s2, Step.StartTime s2, Step.EndTime s2) = (2, "32000", "92500") ∧
    Go.Itoa (Go.add (Go.Atoi (Step.EndTime s1)) 500) = "78000".
Proof.
  eexists _, _, _, _. split; [vm_compute; reflexivity|].
  repeat split; vm_compute; reflexivity.
Qed.

(** What the scheduler does in general. *)

Lemma CreateStep_ok (b : Step.t) (s : Store) :
  mu s = false → faults s = [] →
  ∃ s', Create (EStep b) "steps" s = Done None s' ∧ mu s' = false ∧ faults s' = [].
Proof.
  destruct s as [d m fs]; simpl. intros -> ->.
  eexists. split; [reflexivity|]. done.
Qed.

Lemma range_steps_ok (rest : list Step.t) (i : nat) (startTime lastEndTime : string)
    (visited appended : list Step.t) (s : Store) :
  mu s = false → faults s = [] →
  ∃ s',
    range_steps i rest startTime lastEndTime visited appended s
    = Done (visited ++ scheduled_from i rest startTime lastEndTime,
            Some ((visited ++ scheduled_from i rest startTime lastEndTime)
                  ++ appended ++ scheduled_from i rest startTime lastEndTime)) s' ∧
    mu s' = false ∧ faults s' = [].
Proof.
  revert i lastEndTime visited appended s.
  induction rest as [|st rest IH]; intros i lastEndTime visited appended s Hmu Hfs.
  - exists s. simpl. by rewrite !app_nil_r.
  - cbn [range_steps scheduled_from].
    destruct (schedule_step i st startTime lastEndTime) as [st' last'].
    destruct (CreateStep_ok st' s Hmu Hfs) as (s1 & Hrun & Hmu1 & Hfs1).
    destruct (IH (S i) last' (visited ++ [st']) (appended ++ [st']) s1 Hmu1 Hfs1)
      as (s' & Hrun' & Hmu' & Hfs').
    exists s'. split; [|done].
    unfold mbind, M_bind. rewrite Hrun, Hrun'.
    by rewrite <- !app_assoc.
Qed.

Lemma scheduled_from_later (rest : list Step.t) (i : nat) (startTime lastEndTime : string)
    (j : nat) (st : Step.t) :
  scheduled_from (S i) rest startTime lastEndTime !! j = Some st →
  Step.StepIndex st = Z.of_nat (S i + j) ∧
  Step.StartTime st = after lastEndTime ∧
  Step.EndTime st = end_of st.
Proof.
  revert i j. induction rest as [|st0 rest IH]; intros i j; [done|].
  cbn [scheduled_from]. unfold schedule_step. cbn [Nat.eqb].
  destruct j as [|j]; cbn [lookup list_lookup].
  - intros [= <-]. rewrite Nat.add_0_r.
    unfold end_of, after, Step.set_EndTime, Step.set_StartTime, Step.set_StepIndex.
    cbn [Step.StartTime Step.EndTime Step.Duration Step.StepIndex].
    split; [reflexivity|]. split; reflexivity.
  - intros Hj. apply IH in Hj as (-> & ? & ?). split; [|done]. f_equal. lia.
Qed.

(** X1: with a free mutex and no failing remote call, [AddAllStepsToDb]
    returns the scheduled steps followed by themselves.  Step [i] has index
    [i]; step 0 starts at the start time given; every step ends at its
    start + duration * 1000 + 500; and every later step starts 500 after the
    end of step 0. *)
Theorem AddAllStepsToDb_schedule (steps : list Step.t) (startTime : string) (s : Store) :
  mu s = false → faults s = [] →
  ∃ s',
    AddAllStepsToDb steps startTime s
    = Done (scheduled steps startTime,
            Some (scheduled steps startTime ++ scheduled steps startTime)) s' ∧
    length (scheduled steps startTime) = length steps ∧
    ∀ i st,
      scheduled steps startTime !! i = Some st →
      Step.StepIndex st = Z.of_nat i ∧
      (Step.Duration <$> steps !! i) = Some (Step.Duration st) ∧
      Step.EndTime st = end_of st ∧
      (i = 0%nat → Step.StartTime st = startTime) ∧
      ∀ st0, (0 < i)%nat → scheduled steps startTime !! 0%nat = Some st0 →
             Step.StartTime st = after (Step.EndTime st0).
Proof.
  intros Hmu Hfs. unfold AddAllStepsToDb.
  destruct (range_steps_ok (imap (λ i st, Step.set_StepIndex (Z.of_nat i) st) steps)
              0 startTime "" [] [] s Hmu Hfs) as (s' & Hrun & _ & _).
  assert (Hsched : ∀ i rest last,
    scheduled_from i (imap (λ j st, Step.set_StepIndex (Z.of_nat (i + j)) st) rest)
                   startTime last
    = scheduled_from i rest startTime last).
  { intros i rest. revert i. induction rest as [|st rest IH]; intros i last; [done|].
    cbn [imap scheduled_from].
    replace (schedule_step i (Step.set_StepIndex (Z.of_nat (i + 0)) st) startTime last)
      with (schedule_step i st startTime last)
      by (unfold schedule_step; destruct st; done).
    destruct (schedule_step i st startTime last) as [st' last'].
    f_equal. rewrite <- (IH (S i) last'). f_equal.
    apply imap_ext. intros j x _; simpl. do 2 f_equal. lia. }
  specialize (Hsched 0%nat steps ""). simpl in Hsched, Hrun.
  rewrite Hsched in Hrun. exists s'. split; [exact Hrun|].
  assert (Hlen : ∀ rest i last, length (scheduled_from i rest startTime last) = length rest).
  { induction rest as [|st rest IH]; intros i last; [done|].
    cbn [scheduled_from]. destruct (schedule_step i st startTime last).
    simpl. by rewrite IH. }
  split; [apply Hlen|].
  assert (Hdur : ∀ rest i last j st,
    scheduled_from i rest startTime last !! j = Some st →
    (Step.Duration <$> rest !! j) = Some (Step.Duration st)).
  { induction rest as [|st0 rest IH]; intros i last j st; [done|].
    cbn [scheduled_from].
    destruct (schedule_step i st0 startTime last) as [st' last'] eqn:Hstep.
    destruct j as [|j]; simpl.
    - intros [= <-]. unfold schedule_step in Hstep.
      destruct (Nat.eqb i 0); by simplify_eq/=.
    - apply IH. }
  intros i st Hst. unfold scheduled in *.
  split; [|split; [by eapply Hdur|]].
  all: destruct steps as [|st0 steps]; [done|].
  all: cbn [scheduled_from] in Hst |- *; unfold schedule_step in Hst |- *.
  all: cbn [Nat.eqb] in Hst |- *.
  all: destruct i as [|i]; simpl in Hst.
  - by injection Hst as <-.
  - by apply scheduled_from_later in Hst as (-> & _ & _).
  - injection Hst as <-. simpl. split; [done|]. split; [done|]. intros; lia.
  - apply scheduled_from_later in Hst as (_ & Hstart & Hend).
    split; [done|]. split; [done|]. intros st1 _ [= <-]. done.
Qed.

Lemma AddAllStepsToDb_schedule_witness :
  ∃ s',
    AddAllStepsToDb [Sample.step "a" "30" ""; Sample.step "b" "45" ""] "1000" Sample.store
    = Done (scheduled [Sample.step "a" "30" ""; Sample.step "b" "45" ""] "1000",
            Some (scheduled [Sample.step "a" "30" ""; Sample.step "b" "45" ""] "1000"
                  ++ scheduled [Sample.step "a" "30" ""; Sample.step "b" "45" ""] "1000"))
           s' ∧
    (λ st, (Step.StartTime st, Step.EndTime st))
      <$> scheduled [Sample.step "a" "30" ""; Sample.step "b" "45" ""] "1000"
    = [("1000", "31500"); ("32000", "77500")].
Proof.
  destruct (AddAllStepsToDb_schedule
              [Sample.step "a" "30" ""; Sample.step "b" "45" ""] "1000" Sample.store
              eq_refl eq_refl) as (s' & Hrun & _).
  exists s'. split; [exact Hrun|]. vm_compute. reflexivity.
Defined.

(** ** Votes *)

Lemma set_step_result_transient g step gamer v :
  transient_results (set_step_result step gamer v g) step gamer = v.
Proof.
  unfold transient_results, set_step_result; simpl.
  rewrite lookup_insert_eq; simpl. by rewrite lookup_insert_eq.
Qed.

(** C2: on a free mutex, for a game stored under its own bin whose current
    step is among its steps, [Vote] always returns.  When it returns [true]
    (which it does when no remote call fails) the list stored for the
    source gamer under the current step is the former list followed by
    exactly one new result, whose [stepBin] is the vote's, whose [gameBin]
    is the game's bin and whose [gamerId] is the source gamer; the current
    step is the same.  When it returns [false] the tree is unchanged. *)
Theorem Vote_appends_one_result
    (stamp uuid : string) (vote : Vote.t) (s : Store) (game : Game.t) (st : Step.t) :
  mu s = false →
  db_games (db s) !! Vote.GameBin vote = Some game →
  Game.Bin game = Vote.GameBin vote →
  Game.Steps game !! Game.CurrentStep game = Some st →
  ∃ (ok : bool) s',
    Vote stamp uuid vote s = Done ok s' ∧
    mu s' = false ∧
    (faults s = [] → ok = true) ∧
    (ok = false → db s' = db s) ∧
    (ok = true →
     ∃ r,
       transient_results (stored_game s' (Vote.GameBin vote))
                         (Game.CurrentStep game) (Vote.Source vote)
       = transient_results game (Game.CurrentStep game) (Vote.Source vote) ++ [r] ∧
       Result.StepBin r = Vote.StepBin vote ∧
       Result.GameBin r = Game.Bin game ∧
       Result.GamerId r = Vote.Source vote ∧
       Game.CurrentStep (stored_game s' (Vote.GameBin vote)) = Game.CurrentStep game).
Proof.
  destruct s as [d m fs]; simpl. intros -> Hgame Hbin Hstep.
  unfold Vote, Vote_locked, getGameByBin, buildStepResult, UpdateGame,
    remote_write, remote, read, write, Lock, Unlock, mbind, M_bind, mret, M_ret;
    simpl.
  destruct fs as [|[] fs]; simpl.
  2: { eexists false, _. split; [done|]. simpl. repeat split; try done. }
  all: rewrite Hgame, Hstep; simpl.
  2: destruct fs as [|[] fs]; simpl.
  3: { eexists false, _. split; [done|]. simpl. repeat split; try done. }
  all: eexists true, _; (split; [done|]); simpl.
  all: split; [done|]; split; [done|]; split; [done|]; intros _.
  all: exists (Result.mk uuid (Vote.StepBin vote) (Game.Bin game)
                         (Vote.Source vote) stamp vote).
  all: unfold stored_game; simpl.
  all: rewrite Hbin, lookup_insert_eq, Hgame; simpl.
  all: rewrite set_step_result_transient.
  all: unfold transient_results; rewrite Hstep; simpl.
  all: done.
Qed.

Lemma Vote_appends_one_result_witness :
  ∃ s' r,
    Vote "11" "r2" (Sample.vote "y") Sample.game_store = Done true s' ∧
    transient_results (stored_game s' "game1") "s1" "p1"
    = [Sample.result "r1" "p1" "10" "x"] ++ [r] ∧
    Result.GamerId r = "p1".
Proof.
  destruct (Vote_appends_one_result "11" "r2" (Sample.vote "y") Sample.game_store
              Sample.game
              (Step.set_Result {["p1" := [Sample.result "r1" "p1" "10" "x"]]}
                               (Sample.step "s1" "30" "s2"))
              eq_refl eq_refl eq_refl eq_refl)
    as (ok & s' & Hrun & _ & Hok & _ & Happ).
  rewrite (Hok eq_refl) in Hrun, Happ.
  destruct (Happ eq_refl) as (r & Hr & _ & _ & Hid & _).
  exists s', r. split; [exact Hrun|]. split; [exact Hr|exact Hid].
Defined.

(** ** Archival *)

(** *** Folding updates over an enumeration of a map *)

Lemma foldl_update_other {V} (keep : V → bool) (h : V → V)
    (l : list (string * V)) (acc : gmap string V) (k : string) :
  k ∉ l.*1 → foldl (update_entry keep h) acc l !! k = acc !! k.
Proof.
  revert acc. induction l as [|[k' v] l IH]; intros acc Hk; simpl; [done|].
  rewrite fmap_cons, not_elem_of_cons in Hk. destruct Hk as [Hne Hk].
  rewrite IH by done. unfold update_entry; simpl.
  destruct (keep v); [done|]. by rewrite lookup_insert_ne.
Qed.

Lemma foldl_update_elem {V} (keep : V → bool) (h : V → V)
    (l : list (string * V)) (acc : gmap string V) (k : string) (v : V) :
  NoDup l.*1 → (k, v) ∈ l → acc !! k = Some v →
  foldl (update_entry keep h) acc l !! k = Some (if keep v then v else h v).
Proof.
  revert acc. induction l as [|[k' v'] l IH]; intros acc Hnd Hin Hacc; simpl.
  { by apply elem_of_nil in Hin. }
  rewrite fmap_cons in Hnd. apply NoDup_cons in Hnd as [Hk' Hnd].
  apply elem_of_cons in Hin as [[= <- <-]|Hin].
  - rewrite foldl_update_other by done. unfold update_entry; simpl.
    destruct (keep v); [done|]. by rewrite lookup_insert_eq.
  - apply IH; [done..|]. unfold update_entry; simpl.
    destruct (keep v'); [done|]. rewrite lookup_insert_ne; [done|].
    intros ->. apply Hk'. apply list_elem_of_fmap. by exists (k, v).
Qed.

Lemma foldl_update_range {V} (keep : V → bool) (h : V → V)
    (o : RangeOrder) (m : gmap string V) :
  foldl (update_entry keep h) m (range o m)
  = (λ v, if keep v then v else h v) <$> m.
Proof.
  assert (Hperm := range_perm o V m).
  apply map_eq. intros k. rewrite lookup_fmap.
  destruct (m !! k) as [v|] eqn:Hk; simpl.
  - apply foldl_update_elem; [| |done].
    + rewrite Hperm. apply NoDup_fst_map_to_list.
    + rewrite Hperm. by apply elem_of_map_to_list.
  - rewrite foldl_update_other; [done|].
    rewrite Hperm. intros ((k' & v) & -> & Hin)%list_elem_of_fmap.
    apply elem_of_map_to_list in Hin. simpl in *. congruence.
Qed.

Lemma range_empty {V} (o : RangeOrder) (m : gmap string V) :
  size m = 0%nat → range o m = [].
Proof.
  intros ->%map_size_empty_iff. apply Permutation_nil_r.
  by rewrite (range_perm o V ∅), map_to_list_empty.
Qed.

(** *** The archive of a gamer after a run of appends *)

Lemma foldl_concat {A B C} (f : A → B → A) (g : C → list B) (l : list C) (a : A) :
  foldl (λ a c, foldl f a (g c)) a l = foldl f a (l ≫= g).
Proof.
  revert a. induction l as [|c l IH]; intros a; [done|].
  rewrite bind_cons, foldl_app. apply IH.
Qed.

Lemma archive_result_fold (sr : gmap string (list Result.t)) (l : list Result.t)
    (gamer : string) :
  default [] (foldl archive_result sr l !! gamer)
  = default [] (sr !! gamer) ++ filter (λ r, Result.GamerId r = gamer) l.
Proof.
  revert sr. induction l as [|r l IH]; intros sr; simpl.
  { by rewrite app_nil_r. }
  rewrite IH. unfold archive_result.
  rewrite filter_cons. case_decide as Hid.
  - rewrite Hid, lookup_insert_eq; simpl. by rewrite <- app_assoc.
  - by rewrite lookup_insert_ne.
Qed.

Lemma archive_step_fold (o : RangeOrder) sr step :
  archive_step o sr step = foldl archive_result sr (step_results o step).
Proof. unfold archive_step, step_results. apply foldl_concat. Qed.

(** *** The two loops *)

Lemma archive_visit (o : RangeOrder) (game : Game.t) (kv : string * Step.t) :
  (let step : Step.t := kv.2 in
   if Nat.eqb (size (Step.Result step)) 0 then game
   else
     let game := Game.set_StepResults (archive_step o (Game.StepResults game) step) game in
     Game.set_Steps (<[kv.1 := Step.set_Result ∅ step]> (Game.Steps game)) game)
  = Game.set_Steps
      (update_entry no_result (Step.set_Result ∅) (Game.Steps game) kv)
      (Game.set_StepResults
         (foldl archive_result (Game.StepResults game) (step_results o kv.2)) game).
Proof.
  cbv zeta. unfold update_entry, no_result.
  destruct (Nat.eqb (size (Step.Result kv.2)) 0) eqn:Hsize.
  - apply Nat.eqb_eq in Hsize. unfold step_results.
    rewrite (range_empty o _ Hsize). by destruct game.
  - by rewrite archive_step_fold.
Qed.

Lemma archive_loop_fold (o : RangeOrder) (l : list (string * Step.t)) (game : Game.t) :
  foldl (λ game kv,
    let step : Step.t := kv.2 in
    if Nat.eqb (size (Step.Result step)) 0 then game
    else
      let game := Game.set_StepResults (archive_step o (Game.StepResults game) step) game in
      Game.set_Steps (<[kv.1 := Step.set_Result ∅ step]> (Game.Steps game)) game)
    game l
  = Game.set_Steps
      (foldl (update_entry no_result (Step.set_Result ∅)) (Game.Steps game) l)
      (Game.set_StepResults
         (foldl archive_result (Game.StepResults game)
                (l ≫= (λ kv, step_results o kv.2))) game).
Proof.
  revert game. induction l as [|kv l IH]; intros game.
  { by destruct game. }
  cbn [foldl]. rewrite archive_visit, IH.
  by rewrite bind_cons, foldl_app.
Qed.

Lemma archive_loop_eq (o : RangeOrder) (game : Game.t) :
  archive_loop o game
  = Game.set_Steps
      ((λ st, if no_result st then st else Step.set_Result ∅ st) <$> Game.Steps game)
      (Game.set_StepResults
         (foldl archive_result (Game.StepResults game) (all_results o game)) game).
Proof.
  unfold archive_loop. rewrite archive_loop_fold.
  by rewrite foldl_update_range.
Qed.

Lemma clear_loop_eq (o : RangeOrder) (game : Game.t) :
  clear_loop o game = Game.set_Steps (Step.set_Result ∅ <$> Game.Steps game) game.
Proof.
  unfold clear_loop.
  assert (Hfold : ∀ l g,
    foldl (λ game kv,
      Game.set_Steps (<[kv.1 := Step.set_Result ∅ kv.2]> (Game.Steps game)) game) g l
    = Game.set_Steps
        (foldl (update_entry (λ _, false) (Step.set_Result ∅)) (Game.Steps g) l) g).
  { induction l as [|kv l IH]; intros g; simpl; [by destruct g|].
    by rewrite IH. }
  by rewrite Hfold, foldl_update_range.
Qed.

Lemma cleared_steps (m : gmap string Step.t) :
  Step.set_Result ∅
    <$> ((λ st, if no_result st then st else Step.set_Result ∅ st) <$> m)
  = Step.set_Result ∅ <$> m.
Proof.
  rewrite <- map_fmap_compose. apply map_fmap_ext.
  intros k st _; simpl. by destruct (no_result st).
Qed.

(** What one archival pass makes of a game. *)
Lemma archive_then_clear (o : RangeOrder) (game : Game.t) :
  clear_loop o (archive_loop o game)
  = Game.set_Steps (Step.set_Result ∅ <$> Game.Steps game)
      (Game.set_StepResults
         (foldl archive_result (Game.StepResults game) (all_results o game)) game).
Proof.
  rewrite clear_loop_eq, archive_loop_eq; simpl. by rewrite cleared_steps.
Qed.

(** *** The results that a pass visits *)

Lemma all_results_held (o : RangeOrder) (game : Game.t) (r : Result.t) :
  r ∈ all_results o game ↔ held_in game r.
Proof.
  unfold all_results, step_results, held_in.
  rewrite list_elem_of_bind. split.
  - intros ([k st] & Hr & Hst). simpl in Hr.
    apply list_elem_of_bind in Hr as ([key l] & Hr & Hl). simpl in Hr.
    rewrite (range_perm o) in Hst, Hl.
    apply elem_of_map_to_list in Hst, Hl. eauto 10.
  - intros (k & st & key & l & Hst & Hl & Hr).
    exists (k, st). split.
    + apply list_elem_of_bind. exists (key, l). split; [done|].
      rewrite (range_perm o). by apply elem_of_map_to_list.
    + rewrite (range_perm o). by apply elem_of_map_to_list.
Qed.

Lemma bind_Permutation_ext {A B} (f g : A → list B) (l : list A) :
  (∀ x, f x ≡ₚ g x) → l ≫= f ≡ₚ l ≫= g.
Proof.
  intros Hfg. induction l as [|x l IH]; [done|].
  by rewrite !bind_cons, Hfg, IH.
Qed.

(** The results visited do not depend, as a multiset, on the order of the
    enumerations. *)
Lemma all_results_order (o o' : RangeOrder) (game : Game.t) :
  all_results o game ≡ₚ all_results o' game.
Proof.
  unfold all_results.
  rewrite (range_perm o), <- (range_perm o').
  apply bind_Permutation_ext. intros [k st]; simpl. unfold step_results.
  by rewrite (range_perm o), <- (range_perm o').
Qed.

Lemma all_results_cleared (o : RangeOrder) (game : Game.t) :
  (∀ k st, Game.Steps game !! k = Some st → Step.Result st = ∅) →
  all_results o game = [].
Proof.
  intros Hclear. apply elem_of_nil_inv. intros r Hr.
  apply all_results_held in Hr as (k & st & key & l & Hst & Hl & _).
  rewrite (Hclear _ _ Hst), lookup_empty in Hl. discriminate.
Qed.

(** *** One call *)

Lemma archive_write (gameId : string) (game' : Game.t) (d : Db) :
  default Game.zero
    (db_games (update_game gameId [Field.steps (Game.Steps game');
                                   Field.step_results (Game.StepResults game')] d)
       !! gameId)
  = Game.set_StepResults (Game.StepResults game')
      (Game.set_Steps (Game.Steps game') (default Game.zero (db_games d !! gameId))).
Proof. simpl. by rewrite !lookup_insert_eq. Qed.

(** [ArchiveStepResults] always returns; it fails, and leaves the tree as
    it is, exactly when one of its two remote calls fails; otherwise the
    stored game is the game read, after the two loops. *)
Lemma ArchiveStepResults_run (o : RangeOrder) (gameId : string) (s : Store) :
  ∃ e s',
    ArchiveStepResults o gameId s = Done e s' ∧
    (faults s = [] → e = None) ∧
    (e ≠ None → db s' = db s) ∧
    (e = None →
     stored_game s' gameId = clear_loop o (archive_loop o (stored_game s gameId))).
Proof.
  destruct s as [d m fs].
  unfold ArchiveStepResults, GetByBin, Update, UpdateGame,
    remote_read, remote_write, remote, read, write, mbind, M_bind, mret, M_ret,
    stored_game.
  cbn -[update_game clear_loop archive_loop].
  destruct fs as [|[] fs]; cbn -[update_game].
  2: { eexists _, _. split; [done|]. repeat split; try done. }
  2: destruct fs as [|[] fs]; cbn -[update_game].
  3: { eexists _, _. split; [done|]. repeat split; try done. }
  all: eexists _, _; (split; [done|]); cbn -[update_game].
  all: repeat split; try done.
  all: intros _; rewrite archive_write, archive_then_clear.
  all: by destruct (default _ _).
Qed.

Lemma Part000_archive_loop_id (o : RangeOrder) (game : Game.t) :
  Part000.archive_loop o game = game.
Proof.
  unfold Part000.archive_loop.
  generalize (range o (Game.Steps game)). intros l. revert game.
  induction l as [|kv l IH]; intros game; [done|]. cbn [foldl].
  assert (Hstep : ∀ sr step, Part000.archive_step o sr step = sr).
  { intros sr step. unfold Part000.archive_step.
    generalize (range o (Step.Result step)). intros l'. revert sr.
    induction l' as [|kv' l' IH']; intros sr; [done|]. cbn [foldl].
    rewrite <- (IH' sr) at 2. f_equal.
    generalize kv'.2. intros rs. clear. revert sr.
    induction rs as [|r rs IHr]; intros sr; [done|]. cbn [foldl]. apply IHr. }
  cbv zeta. rewrite Hstep.
  replace (Game.set_StepResults (Game.StepResults game) game) with game
    by (by destruct game).
  rewrite IH. by destruct (Nat.eqb _ _).
Qed.

Lemma Part000_ArchiveStepResults_run (o : RangeOrder) (gameId : string) (s : Store) :
  ∃ e s',
    Part000.ArchiveStepResults o gameId s = Done e s' ∧
    (faults s = [] → e = None) ∧
    (e ≠ None → db s' = db s) ∧
    (e = None →
     stored_game s' gameId
     = Game.set_Steps (Step.set_Result ∅ <$> Game.Steps (stored_game s gameId))
                      (stored_game s gameId)).
Proof.
  destruct s as [d m fs].
  unfold Part000.ArchiveStepResults, GetByBin, Update, UpdateGame,
    remote_read, remote_write, remote, read, write, mbind, M_bind, mret, M_ret,
    stored_game.
  cbn -[update_game clear_loop Part000.archive_loop].
  destruct fs as [|[] fs]; cbn -[update_game clear_loop Part000.archive_loop].
  2: { eexists _, _. split; [done|]. repeat split; try done. }
  2: destruct fs as [|[] fs]; cbn -[update_game clear_loop Part000.archive_loop].
  3: { eexists _, _. split; [done|]. repeat split; try done. }
  all: eexists _, _; (split; [done|]); cbn -[update_game clear_loop Part000.archive_loop].
  all: repeat split; try done.
  all: intros _; rewrite archive_write, Part000_archive_loop_id, clear_loop_eq.
  all: by destruct (default _ _).
Qed.

(** X2: in [store.go] a call that succeeds appends to each gamer's archive the
    results of that gamer held in the steps' transient maps, in the order
    of the visit, behind what was archived before, and leaves every
    transient map empty; a call that fails changes nothing. *)
Theorem ArchiveStepResults_moves_results (o : RangeOrder) (gameId : string) (s : Store) :
  ∃ e s',
    ArchiveStepResults o gameId s = Done e s' ∧
    (faults s = [] → e = None) ∧
    (e ≠ None → db s' = db s) ∧
    (e = None →
     (∀ gamer,
        archived_results (stored_game s' gameId) gamer
        = archived_results (stored_game s gameId) gamer
          ++ filter (λ r, Result.GamerId r = gamer)
                    (all_results o (stored_game s gameId))) ∧
     (∀ r, r ∈ all_results o (stored_game s gameId) ↔ held_in (stored_game s gameId) r) ∧
     all_results o (stored_game s gameId) ≡ₚ all_results key_order (stored_game s gameId) ∧
     Game.Steps (stored_game s' gameId)
     = Step.set_Result ∅ <$> Game.Steps (stored_game s gameId) ∧
     (∀ r, ¬ held_in (stored_game s' gameId) r)).
Proof.
  destruct (ArchiveStepResults_run o gameId s) as (e & s' & Hrun & Hok & Hfail & Hdone).
  exists e, s'. repeat split; try done.
  - intros gamer. rewrite (Hdone H), archive_then_clear. unfold archived_results; simpl.
    apply archive_result_fold.
  - by apply all_results_held.
  - by apply all_results_held.
  - apply all_results_order.
  - by rewrite (Hdone H), archive_then_clear.
  - intros r (k & st & key & l & Hst & Hl & _).
    rewrite (Hdone H), archive_then_clear in Hst. simpl in Hst.
    rewrite lookup_fmap in Hst. destruct (_ !! k); simplify_eq/=.
Qed.

(** C3, in the second copy of the package, at a game whose step [s1]
    holds one result of gamer [p1] and whose archive is empty: the call
    succeeds, every transient map is empty afterwards, and the archive of
    [p1] is still empty: the result is in neither place. *)
Theorem Part000_ArchiveStepResults_drops_results :
  transient_results Sample.game "s1" "p1" = [Sample.result "r1" "p1" "10" "x"] ∧
  archived_results Sample.game "p1" = [] ∧
  ∃ s',
    Part000.ArchiveStepResults key_order "game1" Sample.game_store = Done None s' ∧
    transient_results (stored_game s' "game1") "s1" "p1" = [] ∧
    archived_results (stored_game s' "game1") "p1" = [] ∧
    Game.StepResults (stored_game s' "game1") = ∅.
Proof.
  split; [vm_compute; reflexivity|]. split; [vm_compute; reflexivity|].
  eexists. split; [vm_compute; reflexivity|].
  repeat split; vm_compute; reflexivity.
Qed.

(** The same call of [store.go] archives the result. *)
Lemma ArchiveStepResults_sample :
  ∃ s',
    ArchiveStepResults key_order "game1" Sample.game_store = Done None s' ∧
    transient_results (stored_game s' "game1") "s1" "p1" = [] ∧
    archived_results (stored_game s' "game1") "p1" = [Sample.result "r1" "p1" "10" "x"].
Proof.
  eexists. split; [vm_compute; reflexivity|].
  split; vm_compute; reflexivity.
Qed.

(** *** Repeated calls *)

Lemma ArchiveStepResults_extends (o : RangeOrder) (gameId : string) (s : Store) :
  ∃ e s',
    ArchiveStepResults o gameId s = Done e s' ∧
    ∀ gamer,
      archived_results (stored_game s gameId) gamer
      `prefix_of` archived_results (stored_game s' gameId) gamer.
Proof.
  destruct (ArchiveStepResults_run o gameId s) as (e & s' & Hrun & _ & Hfail & Hdone).
  exists e, s'. split; [done|]. intros gamer.
  destruct e as [msg|].
  - unfold stored_game. by rewrite Hfail.
  - rewrite (Hdone eq_refl), archive_then_clear. unfold archived_results; simpl.
    rewrite archive_result_fold. by apply prefix_app_r.
Qed.

Lemma Part000_ArchiveStepResults_extends (o : RangeOrder) (gameId : string) (s : Store) :
  ∃ e s',
    Part000.ArchiveStepResults o gameId s = Done e s' ∧
    ∀ gamer,
      archived_results (stored_game s gameId) gamer
      `prefix_of` archived_results (stored_game s' gameId) gamer.
Proof.
  destruct (Part000_ArchiveStepResults_run o gameId s)
    as (e & s' & Hrun & _ & Hfail & Hdone).
  exists e, s'. split; [done|]. intros gamer.
  destruct e as [msg|].
  - unfold stored_game. by rewrite Hfail.
  - by rewrite (Hdone eq_refl).
Qed.

Lemma archive_calls_extend (archive : RangeOrder → string → M error)
    (os : list RangeOrder) (gameId : string) (s : Store) :
  (∀ o s, ∃ e s',
     archive o gameId s = Done e s' ∧
     ∀ gamer,
       archived_results (stored_game s gameId) gamer
       `prefix_of` archived_results (stored_game s' gameId) gamer) →
  ∃ s',
    archive_calls archive os gameId s = Done () s' ∧
    ∀ gamer,
      archived_results (stored_game s gameId) gamer
      `prefix_of` archived_results (stored_game s' gameId) gamer.
Proof.
  intros Hcall. revert s. induction os as [|o os IH]; intros s; simpl.
  - by exists s.
  - destruct (Hcall o s) as (e & s1 & Hrun & Hpre).
    destruct (IH s1) as (s' & Hrun' & Hpre').
    exists s'. split.
    + unfold mbind, M_bind. by rewrite Hrun.
    + intros gamer. etrans; [apply Hpre|apply Hpre'].
Qed.

Lemma ArchiveStepResults_again (o : RangeOrder) (gameId : string) (s s1 : Store)
    (o1 : RangeOrder) :
  ArchiveStepResults o1 gameId s = Done None s1 →
  ∃ e s2,
    ArchiveStepResults o gameId s1 = Done e s2 ∧
    Game.StepResults (stored_game s2 gameId) = Game.StepResults (stored_game s1 gameId).
Proof.
  intros Hfirst.
  destruct (ArchiveStepResults_run o1 gameId s) as (e1 & s1' & Hrun1 & _ & _ & Hdone1).
  rewrite Hfirst in Hrun1. injection Hrun1 as <- <-.
  specialize (Hdone1 eq_refl).
  destruct (ArchiveStepResults_run o gameId s1) as (e & s2 & Hrun & _ & Hfail & Hdone).
  exists e, s2. split; [done|].
  destruct e as [msg|].
  - unfold stored_game. by rewrite Hfail.
  - rewrite (Hdone eq_refl), archive_then_clear; simpl.
    rewrite all_results_cleared; [done|].
    intros k st. rewrite Hdone1, archive_then_clear; simpl.
    rewrite lookup_fmap. destruct (_ !! k); intros; by simplify_eq/=.
Qed.

Lemma Part000_ArchiveStepResults_again (o : RangeOrder) (gameId : string) (s1 : Store) :
  ∃ e s2,
    Part000.ArchiveStepResults o gameId s1 = Done e s2 ∧
    Game.StepResults (stored_game s2 gameId) = Game.StepResults (stored_game s1 gameId).
Proof.
  destruct (Part000_ArchiveStepResults_run o gameId s1)
    as (e & s2 & Hrun & _ & Hfail & Hdone).
  exists e, s2. split; [done|].
  destruct e as [msg|].
  - unfold stored_game. by rewrite Hfail.
  - by rewrite (Hdone eq_refl).
Qed.

(** C4: for [ArchiveStepResults] of [store.go] and of the second copy
    alike.  After a call that succeeded, the next call on the same game,
    whatever order its loops follow and whether or not its remote calls
    fail, returns and leaves the [StepResults] map as the first call left
    it.  Any sequence of calls returns, and for every gamer what was
    archived before is a prefix of what is archived after, so the length of
    the gamer's archive never decreases. *)
Theorem ArchiveStepResults_idempotent_monotone
    (archive : RangeOrder → string → M error) (gameId : string) (s : Store) :
  archive = ArchiveStepResults ∨ archive = Part000.ArchiveStepResults →
  (∀ o1 o2 s1,
     archive o1 gameId s = Done None s1 →
     ∃ e s2,
       archive o2 gameId s1 = Done e s2 ∧
       Game.StepResults (stored_game s2 gameId)
       = Game.StepResults (stored_game s1 gameId)) ∧
  (∀ os, ∃ s',
     archive_calls archive os gameId s = Done () s' ∧
     ∀ gamer,
       archived_results (stored_game s gameId) gamer
       `prefix_of` archived_results (stored_game s' gameId) gamer ∧
       (length (archived_results (stored_game s gameId) gamer)
        ≤ length (archived_results (stored_game s' gameId) gamer))%nat).
Proof.
  intros Harchive. split.
  - intros o1 o2 s1 Hfirst. destruct Harchive as [-> | ->].
    + by eapply ArchiveStepResults_again.
    + apply Part000_ArchiveStepResults_again.
  - intros os.
    destruct (archive_calls_extend archive os gameId s) as (s' & Hrun & Hpre).
    { intros o s0. destruct Harchive as [-> | ->].
      - apply ArchiveStepResults_extends.
      - apply Part000_ArchiveStepResults_extends. }
    exists s'. split; [done|]. intros gamer. split; [done|].
    by apply prefix_length.
Qed.

Lemma ArchiveStepResults_idempotent_monotone_witness :
  ∃ s1 s2,
    ArchiveStepResults key_order "game1" Sample.game_store = Done None s1 ∧
    ArchiveStepResults key_order "game1" s1 = Done None s2 ∧
    Game.StepResults (stored_game s2 "game1")
    = Game.StepResults (stored_game s1 "game1") ∧
    archived_results (stored_game s1 "game1") "p1"
    = [Sample.result "r1" "p1" "10" "x"].
Proof.
  destruct (ArchiveStepResults_idempotent_monotone
              ArchiveStepResults "game1" Sample.game_store (or_introl eq_refl))
    as [Hidem _].
  eexists _. 
  destruct (Hidem key_order key_order _ ltac:(vm_compute; reflexivity))
    as (e & s2 & Hrun & Heq).
  exists s2. split; [vm_compute; reflexivity|].
  assert (He : e = None).
  { vm_compute in Hrun. by injection Hrun as <- _. }
  rewrite He in Hrun. split; [exact Hrun|]. split; [exact Heq|].
  vm_compute. reflexivity.
Defined.

(** * Further properties *)

(** ** Votes: absent data, the mutex, and what a vote leaves alone *)

(** The outcomes of [Vote], case by case. *)
Lemma Vote_run (stamp uuid : string) (vote : Vote.t) (d : Db) (fs : list bool) :
  Vote stamp uuid vote (mkStore d false fs)
  = match fs with
    | true :: fs' => Done false (mkStore d false fs')
    | _ =>
        match db_games d !! Vote.GameBin vote with
        | None => Panic
        | Some game =>
            match Game.Steps game !! Game.CurrentStep game with
            | None => Panic
            | Some st =>
                match tail fs with
                | true :: fs' => Done false (mkStore d false fs')
                | fs' =>
                    Done true
                      (mkStore
                         (update_game (Game.Bin game)
                            [Field.step_result (Game.CurrentStep game) (Vote.Source vote)
                               (default [] (Step.Result st !! Vote.Source vote)
                                ++ [vote_result stamp uuid game vote])] d)
                         false (tail fs'))
                end
            end
        end
    end.
Proof.
  unfold Vote, Vote_locked, getGameByBin, buildStepResult, UpdateGame,
    remote_write, remote, read, write, Lock, Unlock, mbind, M_bind, mret, M_ret.
  cbn -[update_game].
  destruct fs as [|[] fs]; cbn -[update_game]; try done.
  all: destruct (db_games d !! Vote.GameBin vote) as [game|]; cbn -[update_game]; try done.
  all: destruct (Game.Steps game !! Game.CurrentStep game) as [st|];
    cbn -[update_game]; try done.
  destruct fs as [|[] fs]; cbn -[update_game]; done.
Qed.

(** X3: [Vote] dereferences what it reads without a check: when its read
    succeeds and the tree holds no game under the vote's game bin, or holds
    one whose current step is not among its steps, the call panics; and
    when the mutex is already held it never returns. *)
Theorem Vote_panics_on_absent_game_or_step
    (stamp uuid : string) (vote : Vote.t) (s : Store) :
  (mu s = true → Vote stamp uuid vote s = Deadlock) ∧
  (mu s = false → head (faults s) ≠ Some true →
   (db_games (db s) !! Vote.GameBin vote = None ∨
    ∃ game, db_games (db s) !! Vote.GameBin vote = Some game ∧
            Game.Steps game !! Game.CurrentStep game = None) →
   Vote stamp uuid vote s = Panic).
Proof.
  destruct s as [d m fs]; simpl. split.
  - intros ->. reflexivity.
  - intros -> Hhead Habsent. rewrite Vote_run.
    destruct fs as [|[] fs]; simpl in Hhead; try done.
    all: destruct Habsent as [-> | (game & -> & ->)]; done.
Qed.

Lemma Vote_panics_on_absent_game_or_step_witness :
  Vote "11" "r2" (Vote.mk "game2" "p1" "s1" "x") Sample.game_store = Panic ∧
  Vote "11" "r2" (Sample.vote "x") (mkStore Sample.game_tree true []) = Deadlock.
Proof.
  destruct (Vote_panics_on_absent_game_or_step
              "11" "r2" (Vote.mk "game2" "p1" "s1" "x") Sample.game_store) as [_ Hpanic].
  destruct (Vote_panics_on_absent_game_or_step
              "11" "r2" (Sample.vote "x") (mkStore Sample.game_tree true [])) as [Hdead _].
  split.
  - apply Hpanic; [reflexivity|discriminate|]. left. reflexivity.
  - apply Hdead. reflexivity.
Defined.

(** X4: a vote that succeeds writes one list and nothing else, and it
    writes it under the bin recorded inside the game it read: every game
    stored under another key is untouched, and in the game written the
    archive, the gamers, the invited list, the status and the current step
    are those of the game read, as are the results of every other gamer
    and of every other step. *)
Theorem Vote_changes_one_list_only
    (stamp uuid : string) (vote : Vote.t) (s s' : Store) (game : Game.t) :
  db_games (db s) !! Vote.GameBin vote = Some game →
  Vote stamp uuid vote s = Done true s' →
  (∀ key, key ≠ Game.Bin game → db_games (db s') !! key = db_games (db s) !! key) ∧
  db_players (db s') = db_players (db s) ∧
  db_game_groups (db s') = db_game_groups (db s) ∧
  db_steps (db s') = db_steps (db s) ∧
  (Game.Bin game = Vote.GameBin vote →
   let game' := stored_game s' (Vote.GameBin vote) in
   Game.StepResults game' = Game.StepResults game ∧
   Game.Gamers game' = Game.Gamers game ∧
   Game.Invited game' = Game.Invited game ∧
   Game.Status game' = Game.Status game ∧
   Game.CurrentStep game' = Game.CurrentStep game ∧
   ∀ step gamer,
     (step, gamer) ≠ (Game.CurrentStep game, Vote.Source vote) →
     transient_results game' step gamer = transient_results game step gamer).
Proof.
  destruct s as [d m fs]; simpl. intros Hgame Hrun.
  destruct m; [discriminate|]. rewrite Vote_run, Hgame in Hrun.
  assert (∃ st fs', Game.Steps game !! Game.CurrentStep game = Some st ∧
            s' = mkStore
                   (update_game (Game.Bin game)
                      [Field.step_result (Game.CurrentStep game) (Vote.Source vote)
                         (default [] (Step.Result st !! Vote.Source vote)
                          ++ [vote_result stamp uuid game vote])] d) false fs')
    as (st & fs' & Hstep & ->).
  { destruct fs as [|[] fs]; try discriminate.
    all: destruct (Game.Steps game !! Game.CurrentStep game) as [st|]; try discriminate.
    all: simpl in Hrun.
    2: destruct fs as [|[] fs]; try discriminate.
    all: injection Hrun as <-; eauto. }
  simpl. split; [|split; [done|split; [done|split; [done|]]]].
  { intros key Hkey. by rewrite lookup_insert_ne. }
  intros Hbin. unfold stored_game; simpl.
  rewrite Hbin, lookup_insert_eq, Hgame; simpl.
  repeat split; try done.
  intros step gamer Hne. unfold transient_results, set_step_result; simpl.
  rewrite Hstep; simpl.
  destruct (decide (step = Game.CurrentStep game)) as [->|Hstepne].
  - rewrite lookup_insert_eq, Hstep; simpl.
    rewrite lookup_insert_ne; [done|]. congruence.
  - by rewrite lookup_insert_ne.
Qed.

Lemma Vote_changes_one_list_only_witness :
  ∃ s',
    Vote "11" "r2" (Vote.mk "game1" "p9" "s1" "y") Sample.game_store = Done true s' ∧
    transient_results (stored_game s' "game1") "s1" "p1"
    = transient_results Sample.game "s1" "p1".
Proof.
  assert (Hrun : ∃ s', Vote "11" "r2" (Vote.mk "game1" "p9" "s1" "y") Sample.game_store
                       = Done true s') by (eexists; vm_compute; reflexivity).
  destruct Hrun as [s' Hrun]. exists s'. split; [exact Hrun|].
  destruct (Vote_changes_one_list_only "11" "r2" (Vote.mk "game1" "p9" "s1" "y")
              Sample.game_store s' Sample.game eq_refl Hrun)
    as (_ & _ & _ & _ & Hgame).
  destruct (Hgame eq_refl) as (_ & _ & _ & _ & _ & Hkeep).
  apply Hkeep. discriminate.
Defined.

(** ** Step scheduler: a write that fails *)

Lemma scheduled_from_indexed (startTime : string) (rest : list Step.t) (i : nat)
    (last : string) :
  scheduled_from i (imap (λ j st, Step.set_StepIndex (Z.of_nat (i + j)) st) rest)
                 startTime last
  = scheduled_from i rest startTime last.
Proof.
  revert i last. induction rest as [|st rest IH]; intros i last; [done|].
  cbn [imap scheduled_from].
  replace (schedule_step i (Step.set_StepIndex (Z.of_nat (i + 0)) st) startTime last)
    with (schedule_step i st startTime last)
    by (unfold schedule_step; destruct st; done).
  destruct (schedule_step i st startTime last) as [st' last'].
  f_equal. rewrite <- (IH (S i) last'). f_equal.
  apply imap_ext. intros j x _; simpl. do 2 f_equal. lia.
Qed.

Lemma range_steps_fails (startTime : string) (rest : list Step.t) (i : nat)
    (last : string) (visited appended : list Step.t) (d : Db) (k : nat) (fs : list bool) :
  (k < length rest)%nat →
  range_steps i rest startTime last visited appended
    (mkStore d false (replicate k false ++ true :: fs))
  = Done (visited ++ take (S k) (scheduled_from i rest startTime last)
                  ++ drop (S k) rest, None)
         (mkStore (created_steps (take k (scheduled_from i rest startTime last)) d)
                  true fs).
Proof.
  revert i last visited appended d k.
  induction rest as [|st rest IH]; intros i last visited appended d k Hk; simpl in Hk; [lia|].
  cbn [range_steps scheduled_from].
  destruct (schedule_step i st startTime last) as [st' last'].
  destruct k as [|k].
  - simpl. rewrite drop_0. reflexivity.
  - unfold mbind at 1, M_bind at 1.
    replace (Create (EStep st') "steps"
               (mkStore d false (replicate (S k) false ++ true :: fs)))
      with (Done (A:=error) None
              (mkStore (on_steps (insert (Step.Bin st') st') d) false
                       (replicate k false ++ true :: fs))) by reflexivity.
    rewrite IH by lia. cbn [take drop created_steps foldl].
    by rewrite <- app_assoc.
Qed.

(** X5: when the write of step [k] fails after [k] writes that succeeded,
    [AddAllStepsToDb] returns [nil]; nothing is rolled back: the [k] steps
    written before stay in the tree as scheduled, and the caller's steps up
    to [k] keep the times assigned to them.  The failed [CreateStep]
    returned without releasing the mutex, so the mutex is held when the
    call is over and every later [Vote] blocks for ever. *)
Theorem AddAllStepsToDb_failure_keeps_writes_and_mutex
    (steps : list Step.t) (startTime : string) (s : Store) (k : nat) (fs : list bool) :
  mu s = false →
  faults s = replicate k false ++ true :: fs →
  (k < length steps)%nat →
  ∃ objs s',
    AddAllStepsToDb steps startTime s = Done (objs, None) s' ∧
    take (S k) objs = take (S k) (scheduled steps startTime) ∧
    length objs = length steps ∧
    db s' = created_steps (take k (scheduled steps startTime)) (db s) ∧
    mu s' = true ∧
    ∀ stamp uuid vote, Vote stamp uuid vote s' = Deadlock.
Proof.
  destruct s as [d m fs0]; simpl. intros -> -> Hk.
  unfold AddAllStepsToDb.
  rewrite range_steps_fails by (by rewrite length_imap).
  pose proof (scheduled_from_indexed startTime steps 0 "") as Hidx. simpl in Hidx.
  rewrite Hidx. eexists _, _. split; [reflexivity|]. simpl.
  assert (Hlen : ∀ rest i last, length (scheduled_from i rest startTime last) = length rest).
  { induction rest as [|st rest IH]; intros i last; [done|].
    cbn [scheduled_from]. destruct (schedule_step i st startTime last).
    simpl. by rewrite IH. }
  split; [|split; [|done]].
  - rewrite take_app_le; [by rewrite take_take, Nat.min_id|].
    rewrite length_take, Hlen. lia.
  - rewrite length_app, length_take, length_drop, length_imap, Hlen. lia.
Qed.

Lemma AddAllStepsToDb_failure_keeps_writes_and_mutex_witness :
  ∃ objs s',
    AddAllStepsToDb [Sample.step "a" "30" ""; Sample.step "b" "45" ""] "1000"
                    (mkStore empty_db false [false; true]) = Done (objs, None) s' ∧
    (Step.EndTime <$> db_steps (db s') !! "a") = Some "31500" ∧
    db_steps (db s') !! "b" = None ∧
    mu s' = true.
Proof.
  destruct (AddAllStepsToDb_failure_keeps_writes_and_mutex
              [Sample.step "a" "30" ""; Sample.step "b" "45" ""] "1000"
              (mkStore empty_db false [false; true]) 1 [] eq_refl eq_refl)
    as (objs & s' & Hrun & _ & _ & Hdb & Hmu & _).
  { simpl. lia. }
  exists objs, s'. split; [exact Hrun|]. rewrite Hdb.
  split; [vm_compute; reflexivity|]. split; [vm_compute; reflexivity|exact Hmu].
Defined.

(** ** Step scheduler: the numbers behind the strings *)

Lemma parse_decimal_unsigned (s : string) :
  (∀ s', s ≠ String "+"%char s') →
  Go.parse_decimal s = Z.of_int <$> NilZero.int_of_string s.
Proof.
  intros Hplus. destruct s as [|[[] [] [] [] [] [] [] []] s']; try reflexivity.
  by destruct (Hplus s').
Qed.

Lemma string_of_int_no_plus (d : Decimal.signed_int) (s' : string) :
  NilZero.string_of_int d ≠ String "+"%char s'.
Proof. destruct d as [[]|[]]; discriminate. Qed.

Lemma to_int_not_nil (z : Z) :
  Z.to_int z ≠ Decimal.Pos Decimal.Nil ∧ Z.to_int z ≠ Decimal.Neg Decimal.Nil.
Proof.
  destruct z as [|p|p]; simpl; split; try discriminate.
  all: intros [= Hnil]; revert Hnil; apply DecimalPos.Unsigned.to_uint_nonnil.
Qed.

(** [Atoi] reads back what [Itoa] prints. *)
Lemma Atoi_Itoa (z : Z) : Go.minInt ≤ z ≤ Go.maxInt → Go.Atoi (Go.Itoa z) = z.
Proof.
  intros Hz. unfold Go.Atoi, Go.Itoa.
  rewrite parse_decimal_unsigned by apply string_of_int_no_plus.
  destruct (to_int_not_nil z) as [Hpos Hneg].
  rewrite NilZero.isi by done. simpl. rewrite DecimalZ.of_to.
  unfold Go.saturate.
  destruct (Z.ltb_spec z Go.minInt); [lia|].
  destruct (Z.ltb_spec Go.maxInt z); [lia|]. done.
Qed.

Lemma wrap64_small (z : Z) : Go.minInt ≤ z ≤ Go.maxInt → Go.wrap64 z = z.
Proof.
  unfold Go.minInt, Go.maxInt, Go.wrap64. intros Hz.
  rewrite Z.mod_small; lia.
Qed.

Lemma scheduled_first (steps : list Step.t) (startTime : string) (st0 : Step.t) :
  scheduled steps startTime !! 0%nat = Some st0 →
  Step.StartTime st0 = startTime ∧ Step.EndTime st0 = end_of st0 ∧
  ∀ i st, (0 < i)%nat → scheduled steps startTime !! i = Some st →
          Step.StartTime st = after (Step.EndTime st0) ∧ Step.EndTime st = end_of st.
Proof.
  unfold scheduled. destruct steps as [|s0 steps]; [done|].
  cbn [scheduled_from]. unfold schedule_step. cbn [Nat.eqb].
  intros [= <-]. simpl. split; [done|]. split; [done|].
  intros [|i] st Hi Hst; [lia|]. simpl in Hst.
  by apply scheduled_from_later in Hst as (_ & ? & ?).
Qed.

(** X6: the times are decimal strings, and they denote what the contract
    says as long as nothing overflows: with a start time read as [t ≥ 0]
    and durations read as [d0, d ≥ 0], step 0 ends at [t + d0*1000 + 500];
    a later step of duration [d] starts at [t + d0*1000 + 1000] and ends at
    [t + d0*1000 + 1000 + d*1000 + 500].  A duration that is not a decimal
    numeral counts as 0 seconds: the error of [Atoi] is dropped. *)
Theorem scheduled_times_as_numbers
    (steps : list Step.t) (startTime : string) (i : nat) (st0 st : Step.t) :
  scheduled steps startTime !! 0%nat = Some st0 →
  scheduled steps startTime !! i = Some st →
  0 ≤ Go.Atoi startTime →
  0 ≤ Go.Atoi (Step.Duration st0) →
  0 ≤ Go.Atoi (Step.Duration st) →
  Go.Atoi startTime + Go.Atoi (Step.Duration st0) * 1000
  + Go.Atoi (Step.Duration st) * 1000 + 1500 ≤ Go.maxInt →
  Go.Atoi (Step.EndTime st0)
  = Go.Atoi startTime + Go.Atoi (Step.Duration st0) * 1000 + 500 ∧
  (Go.parse_decimal (Step.Duration st0) = None →
   Go.Atoi (Step.EndTime st0) = Go.Atoi startTime + 500) ∧
  ((0 < i)%nat →
   Go.Atoi (Step.StartTime st)
   = Go.Atoi startTime + Go.Atoi (Step.Duration st0) * 1000 + 1000 ∧
   Go.Atoi (Step.EndTime st)
   = Go.Atoi startTime + Go.Atoi (Step.Duration st0) * 1000 + 1000
     + Go.Atoi (Step.Duration st) * 1000 + 500).
Proof.
  intros Hst0 Hst Ht Hd0 Hd Hmax.
  destruct (scheduled_first _ _ _ Hst0) as (Hstart0 & Hend0 & Hlater).
  assert (Hmin : Go.minInt < 0) by done.
  assert (He0 : Go.Atoi (Step.EndTime st0)
                = Go.Atoi startTime + Go.Atoi (Step.Duration st0) * 1000 + 500).
  { rewrite Hend0. unfold end_of, Go.add, Go.mul. rewrite Hstart0.
    rewrite (wrap64_small (_ * 1000)) by lia.
    rewrite (wrap64_small (_ + _ * 1000)) by lia.
    rewrite (wrap64_small (_ + 500)) by lia.
    apply Atoi_Itoa. lia. }
  split; [done|]. split.
  - intros Hbad. rewrite He0. unfold Go.Atoi at 2. rewrite Hbad. lia.
  - intros Hi. destruct (Hlater i st Hi Hst) as [Hstart Hend].
    assert (Hs : Go.Atoi (Step.StartTime st)
                 = Go.Atoi startTime + Go.Atoi (Step.Duration st0) * 1000 + 1000).
    { rewrite Hstart. unfold after, Go.add. rewrite He0.
      rewrite wrap64_small by lia. rewrite Atoi_Itoa by lia. lia. }
    split; [done|].
    rewrite Hend. unfold end_of, Go.add, Go.mul. rewrite Hs.
    rewrite (wrap64_small (_ * 1000)) by lia.
    rewrite (wrap64_small (_ + _ * 1000)) by lia.
    rewrite (wrap64_small (_ + 500)) by lia.
    apply Atoi_Itoa. lia.
Qed.

Lemma scheduled_times_as_numbers_witness :
  ∃ st0 st,
    scheduled [Sample.step "a" "30" ""; Sample.step "b" "x45" ""; Sample.step "c" "60" ""]
              "1000" !! 0%nat = Some st0 ∧
    scheduled [Sample.step "a" "30" ""; Sample.step "b" "x45" ""; Sample.step "c" "60" ""]
              "1000" !! 2%nat = Some st ∧
    Go.Atoi (Step.EndTime st0) = 31500 ∧
    Go.Atoi (Step.StartTime st) = 32000 ∧
    Go.Atoi (Step.EndTime st) = 92500.
Proof.
  eexists _, _. split; [reflexivity|]. split; [reflexivity|].
  destruct (scheduled_times_as_numbers
              [Sample.step "a" "30" ""; Sample.step "b" "x45" ""; Sample.step "c" "60" ""]
              "1000" 2 _ _ eq_refl eq_refl) as (He0 & _ & Hlater).
  - vm_compute. discriminate.
  - vm_compute. discriminate.
  - vm_compute. discriminate.
  - vm_compute. discriminate.
  - destruct (Hlater ltac:(lia)) as [Hs He].
    split; [exact He0|]. split; [exact Hs|exact He].
Defined.

(** ** Group invitations: what an accept does besides the invitation *)

Lemma AcceptGroupInvitation_join_ok (q : Player.t) (groupId : string) (d : Db)
    (m : bool) (g : Group.t) :
  stored_group d groupId = Some g →
  ∃ d',
    AcceptGroupInvitation_join q groupId (mkStore d m [])
    = Done (with_group_id groupId q, (true, None)) (mkStore d' m []) ∧
    stored_members d' groupId
    = <[Group.Bin g := with_group_id groupId q]> (stored_members d groupId) ∧
    PlayerNode.GroupIds (stored_player d' (Player.Bin q))
    = Player.GroupIds (with_group_id groupId q) ∧
    PlayerNode.Invitations (stored_player d' (Player.Bin q))
    = PlayerNode.Invitations (stored_player d (Player.Bin q)).
Proof.
  unfold stored_group. intros Hg.
  assert (Hbin : Player.Bin (with_group_id groupId q) = Player.Bin q)
    by (unfold with_group_id; by case_bool_decide).
  unfold AcceptGroupInvitation_join. fold (with_group_id groupId q).
  cbv zeta. set (q' := with_group_id groupId q) in *. clearbody q'.
  unfold Update, UpdatePlayer, GetByBin, AddPlayerToGroupMembers,
    remote_read, remote_write, remote, read, write, mbind, M_bind, mret, M_ret;
    simpl.
  rewrite Hg; simpl. eexists. split; [reflexivity|].
  unfold stored_members, stored_player; simpl.
  rewrite !lookup_insert_eq, Hbin, lookup_insert_eq; simpl. done.
Qed.

Lemma accept_scan_pending_marked invitationId l inv :
  find (has_id invitationId) l = Some inv →
  Invitation.terminal inv = false →
  ∃ l', accept_scan invitationId l = Marked l' ∧
        find (has_id invitationId) l' = Some (accepted_of inv).
Proof.
  induction l as [|i l IH]; simpl; [discriminate|].
  unfold has_id at 1. destruct (String.eqb (Invitation.Bin i) invitationId) eqn:Hid.
  - intros [= ->]. unfold Invitation.terminal. intros [Ha Hd]%orb_false_elim.
    rewrite Ha, Hd. eexists. split; [done|]. simpl. unfold has_id; simpl. by rewrite Hid.
  - intros Hfind Hterm. destruct (IH Hfind Hterm) as (l' & -> & Hl').
    eexists. split; [done|]. simpl. unfold has_id at 1. by rewrite Hid.
Qed.

Lemma accept_scan_missed invitationId l :
  find (has_id invitationId) l = None → accept_scan invitationId l = Missed.
Proof.
  induction l as [|i l IH]; simpl; [done|].
  unfold has_id at 1. destruct (String.eqb (Invitation.Bin i) invitationId); [done|].
  intros Hfind. by rewrite IH.
Qed.

(** X7: an accept whose invitation id matches none of the player's
    invitations is not refused: with no failing remote call and a group
    that decodes, it returns [true], leaves the invitations as they are,
    adds the group id to the player and writes the player among the
    group's members. *)
Theorem AcceptGroupInvitation_unknown_invitation_joins
    (p : Player.t) (invitationId groupId : string) (s : Store) (g : Group.t) :
  find (has_id invitationId) (Player.Invitations p) = None →
  faults s = [] →
  stored_group (db s) groupId = Some g →
  ∃ s',
    AcceptGroupInvitation p invitationId groupId s
    = Done (with_group_id groupId p, (true, None)) s' ∧
    Player.Invitations (with_group_id groupId p) = Player.Invitations p ∧
    groupId ∈ Player.GroupIds (with_group_id groupId p) ∧
    stored_members (db s') groupId !! Group.Bin g = Some (with_group_id groupId p).
Proof.
  destruct s as [d m fs]; simpl. intros Hfind -> Hg.
  unfold AcceptGroupInvitation. rewrite (accept_scan_missed _ _ Hfind).
  destruct (AcceptGroupInvitation_join_ok p groupId d m g Hg) as (d' & Hrun & Hmem & _).
  eexists. split; [exact Hrun|]. simpl. rewrite Hmem, lookup_insert_eq.
  unfold with_group_id. case_bool_decide; simpl; (split; [done|]); split; try done.
  apply elem_of_app. right. by apply list_elem_of_singleton.
Qed.

Lemma AcceptGroupInvitation_unknown_invitation_joins_witness :
  ∃ p' s',
    AcceptGroupInvitation (Sample.player [Sample.other]) "nope" "g1" Sample.store
    = Done (p', (true, None)) s' ∧
    Player.GroupIds p' = ["g1"] ∧
    stored_members (db s') "g1" !! "g1" = Some p'.
Proof.
  destruct (AcceptGroupInvitation_unknown_invitation_joins
              (Sample.player [Sample.other]) "nope" "g1" Sample.store
              (Group.mk "g1" "friends" 3 "waiting" []) eq_refl eq_refl)
    as (s' & Hrun & _ & _ & Hmem).
  { vm_compute. reflexivity. }
  eexists _, s'. split; [exact Hrun|]. split; [reflexivity|exact Hmem].
Defined.

(** X8: the result of [UpdateInvitation] is dropped.  When that write is
    the only remote call that fails, the accept of a pending invitation
    still returns [true] and the invitation is accepted in memory, while
    the invitations persisted under the player are what they were. *)
Theorem AcceptGroupInvitation_reports_success_on_lost_update
    (p : Player.t) (invitationId groupId : string) (inv : Invitation.t)
    (s : Store) (g : Group.t) :
  find (has_id invitationId) (Player.Invitations p) = Some inv →
  Invitation.terminal inv = false →
  faults s = [true] →
  stored_group (db s) groupId = Some g →
  ∃ p' s',
    AcceptGroupInvitation p invitationId groupId s = Done (p', (true, None)) s' ∧
    find (has_id invitationId) (Player.Invitations p') = Some (accepted_of inv) ∧
    PlayerNode.Invitations (stored_player (db s') (Player.Bin p))
    = PlayerNode.Invitations (stored_player (db s) (Player.Bin p)).
Proof.
  destruct s as [d m fs]; simpl. intros Hfind Hterm -> Hg.
  unfold AcceptGroupInvitation.
  destruct (accept_scan_pending_marked _ _ _ Hfind Hterm) as (l' & -> & Hl').
  cbv zeta.
  destruct (AcceptGroupInvitation_join_ok (Player.set_Invitations l' p) groupId d m g Hg)
    as (d' & Hrun & _ & _ & Hinv).
  eexists _, _. split.
  - unfold mbind at 1, M_bind at 1. exact Hrun.
  - split; [|exact Hinv].
    unfold with_group_id. by case_bool_decide.
Qed.

Lemma AcceptGroupInvitation_reports_success_on_lost_update_witness :
  ∃ p' s',
    AcceptGroupInvitation (Sample.player [Sample.pending]) "i1" "g1"
                          (mkStore Sample.tree false [true])
    = Done (p', (true, None)) s' ∧
    find (has_id "i1") (Player.Invitations p') = Some Sample.accepted ∧
    PlayerNode.Invitations (stored_player (db s') "p2") = ∅.
Proof.
  destruct (AcceptGroupInvitation_reports_success_on_lost_update
              (Sample.player [Sample.pending]) "i1" "g1" Sample.pending
              (mkStore Sample.tree false [true])
              (Group.mk "g1" "friends" 3 "waiting" []) eq_refl eq_refl eq_refl)
    as (p' & s' & Hrun & Hfind & Hkept).
  { vm_compute. reflexivity. }
  exists p', s'. split; [exact Hrun|]. split; [exact Hfind|exact Hkept].
Defined.

Lemma with_group_id_spec (groupId : string) (p : Player.t) :
  Player.Bin (with_group_id groupId p) = Player.Bin p ∧
  Player.Invitations (with_group_id groupId p) = Player.Invitations p ∧
  Player.GroupIds p `prefix_of` Player.GroupIds (with_group_id groupId p) ∧
  groupId ∈ Player.GroupIds (with_group_id groupId p) ∧
  (NoDup (Player.GroupIds p) → NoDup (Player.GroupIds (with_group_id groupId p))).
Proof.
  unfold with_group_id. case_bool_decide as Hin; simpl.
  - repeat split; done.
  - repeat split; try done.
    + by apply prefix_app_r.
    + apply elem_of_app. right. by apply list_elem_of_singleton.
    + intros Hnd. apply NoDup_app. split; [done|]. split.
      * intros x Hx ->%list_elem_of_singleton. done.
      * apply NoDup_singleton.
Qed.

Lemma AcceptGroupInvitation_join_run (q : Player.t) (groupId : string) (s : Store) :
  ∃ r s',
    AcceptGroupInvitation_join q groupId s = Done (with_group_id groupId q, r) s' ∧
    (r.1 = true →
     PlayerNode.GroupIds (stored_player (db s') (Player.Bin q))
     = Player.GroupIds (with_group_id groupId q)).
Proof.
  destruct (with_group_id_spec groupId q) as (Hbin & _).
  unfold AcceptGroupInvitation_join. fold (with_group_id groupId q).
  cbv zeta. set (q' := with_group_id groupId q) in *. clearbody q'.
  destruct s as [d m fs].
  unfold Update, UpdatePlayer, GetByBin, AddPlayerToGroupMembers,
    remote_read, remote_write, remote, read, write, mbind, M_bind, mret, M_ret,
    stored_player; simpl.
  destruct fs as [|[] fs]; simpl.
  2: { eexists _, _. split; [done|]. done. }
  2: destruct fs as [|[] fs]; simpl.
  3: { eexists _, _. split; [done|]. done. }
  all: destruct (GroupNode.decode _) as [g|]; simpl.
  2,4,6: eexists _, _; (split; [done|]); done.
  3: destruct fs as [|[] fs]; simpl.
  4: { eexists _, _. split; [done|]. done. }
  all: eexists _, _; (split; [done|]); simpl; intros _.
  all: by rewrite Hbin, lookup_insert_eq.
Qed.

(** X9: the group ids of the player are extended, never rewritten: after
    any [AcceptGroupInvitation] the former list is a prefix of the new one,
    a list without duplicates stays without duplicates (the id is added
    only when absent), and when the call returns [true] the group id is in
    the list and the list persisted under the player is the list in
    memory. *)
Theorem AcceptGroupInvitation_group_ids
    (p : Player.t) (invitationId groupId : string) (s : Store) :
  ∃ p' r s',
    AcceptGroupInvitation p invitationId groupId s = Done (p', r) s' ∧
    Player.GroupIds p `prefix_of` Player.GroupIds p' ∧
    (NoDup (Player.GroupIds p) → NoDup (Player.GroupIds p')) ∧
    (r.1 = true →
     groupId ∈ Player.GroupIds p' ∧
     PlayerNode.GroupIds (stored_player (db s') (Player.Bin p)) = Player.GroupIds p').
Proof.
  unfold AcceptGroupInvitation.
  destruct (accept_scan invitationId (Player.Invitations p)) as [msg|l|].
  - eexists _, _, _. split; [done|]. simpl. repeat split; done.
  - cbv zeta.
    destruct (remote_write_returns (λ _ _, True)
                (on_players (λ ps,
                   <[Player.Bin p := update_invitation invitationId
                       [Field.accepted true; Field.declined false]
                       (default PlayerNode.zero (ps !! Player.Bin p))]> ps))
                (λ _ _ _, I) s I) as (e & s1 & Hrun1 & _).
    destruct (AcceptGroupInvitation_join_run (Player.set_Invitations l p) groupId s1)
      as (r & s' & Hrun & Hstored).
    destruct (with_group_id_spec groupId (Player.set_Invitations l p))
      as (_ & _ & Hpre & Hin & Hnd).
    eexists _, r, s'. split.
    + unfold mbind at 1, M_bind at 1.
      change (UpdateInvitation (Player.Bin (Player.set_Invitations l p)) invitationId
                [Field.accepted true; Field.declined false] s)
        with (remote_write
                (on_players (λ ps,
                   <[Player.Bin p := update_invitation invitationId
                       [Field.accepted true; Field.declined false]
                       (default PlayerNode.zero (ps !! Player.Bin p))]> ps)) s).
      rewrite Hrun1. exact Hrun.
    + split; [exact Hpre|]. split; [exact Hnd|]. intros Hr. split; [exact Hin|].
      exact (Hstored Hr).
  - destruct (AcceptGroupInvitation_join_run p groupId s) as (r & s' & Hrun & Hstored).
    destruct (with_group_id_spec groupId p) as (_ & _ & Hpre & Hin & Hnd).
    eexists _, r, s'. split; [exact Hrun|].
    split; [exact Hpre|]. split; [exact Hnd|]. intros Hr. split; [exact Hin|].
    exact (Hstored Hr).
Qed.

(** ** Current step: what [SetNextStep] does on every tree *)

(** X10: [SetNextStep] never moves a game.  When the step stored under the
    game's current step carries that bin, the call returns, fault or not,
    and the game is on the same step in the same tree of steps.  When no
    step is stored there (or one without a bin) and the two reads succeed,
    the call panics: [GetStepByBin] reports the absence as [nil, nil] and
    the [nil] step is dereferenced. *)
Theorem SetNextStep_keeps_current_step (gameId : string) (s : Store) :
  (∀ step,
     db_steps (db s) !! Game.CurrentStep (stored_game s gameId) = Some step →
     Step.Bin step = Game.CurrentStep (stored_game s gameId) →
     Step.Bin step ≠ "" →
     ∃ s',
       SetNextStep gameId s = Done () s' ∧
       Game.CurrentStep (stored_game s' gameId) = Game.CurrentStep (stored_game s gameId) ∧
       db_steps (db s') = db_steps (db s)) ∧
  (true ∉ take 2 (faults s) →
   Step.Bin (default Step.zero
               (db_steps (db s) !! Game.CurrentStep (stored_game s gameId))) = "" →
   SetNextStep gameId s = Panic).
Proof.
  destruct s as [d m fs].
  unfold SetNextStep, GetByBin, GetStepByBin, Update, UpdateGame, stored_game,
    remote_read, remote_write, remote, read, write, mbind, M_bind, mret, M_ret;
    simpl.
  split.
  - intros step Hstep Hbin Hne. apply String.eqb_neq in Hne.
    destruct fs as [|[] fs]; simpl; [| by eexists |].
    all: rewrite ?Hstep; simpl; rewrite ?Hne.
    all: try (destruct fs as [|[] fs]; simpl; [| by eexists |]).
    all: rewrite ?Hstep; simpl; rewrite ?Hne.
    all: try (destruct fs as [|[] fs]; simpl; [| by eexists |]).
    all: eexists; (split; [done|]); simpl; rewrite lookup_insert_eq; simpl; done.
  - intros Hfs Hbin.
    destruct fs as [|[] fs]; simpl in *.
    + by rewrite Hbin.
    + exfalso. apply Hfs. left.
    + destruct fs as [|[] fs]; simpl in *.
      * by rewrite Hbin.
      * exfalso. apply Hfs. right. left.
      * by rewrite Hbin.
Qed.

Lemma SetNextStep_keeps_current_step_witness :
  (∃ s', SetNextStep "game1" Sample.game_store = Done () s' ∧
         Game.CurrentStep (stored_game s' "game1") = "s1") ∧
  SetNextStep "game1" (mkStore (on_games (insert "game1" Sample.game) empty_db) false [])
  = Panic.
Proof.
  destruct (SetNextStep_keeps_current_step "game1" Sample.game_store) as [Hkeep _].
  destruct (SetNextStep_keeps_current_step "game1"
              (mkStore (on_games (insert "game1" Sample.game) empty_db) false []))
    as [_ Hpanic].
  split.
  - destruct (Hkeep (Sample.step "s1" "30" "s2") eq_refl eq_refl) as (s' & Hrun & Hcur & _).
    { discriminate. }
    exists s'. split; [exact Hrun|exact Hcur].
  - apply Hpanic; [|reflexivity]. vm_compute. intros H. inversion H.
Defined.

(** ** The [gamers] path of [Update] *)

Lemma append_gamers_ne (b : string) : b +:+ "gamers" ≠ b.
Proof.
  induction b as [|c b IH]; simpl; [discriminate|].
  intros [= Heq]. by apply IH.
Qed.

Lemma update_game_other (k b : string) (m : list Field.t) (d : Db) :
  k ≠ b → db_games (update_game k m d) !! b = db_games d !! b.
Proof.
  intros Hk. unfold update_game. revert d.
  induction m as [|f m IH]; intros d; simpl; [done|].
  rewrite IH. destruct f; simpl; try done; by rewrite lookup_insert_ne.
Qed.

(** X11: [Update(b, m, "gamers")] addresses ["games/"+b+"gamers"], without a
    separator: whatever the entries, the node of game [b] is left as it
    is, and what is written goes to the game whose key is [b] followed by
    [gamers]; a path that [Update] does not know is refused without a
    remote call. *)
Theorem Update_gamers_misses_the_game (b : string) (m : list Field.t) (s : Store) :
  (∃ e s',
     Update b m "gamers" s = Done e s' ∧
     db_games (db s') !! b = db_games (db s) !! b ∧
     (e = None → db s' = update_game (b +:+ "gamers") m (db s))) ∧
  (∀ path,
     path ∉ ["players"; "game_groups"; "games"; "gamers"] →
     Update b m path s = Done (Some ("invalid data type: " +:+ path)) s).
Proof.
  split.
  - destruct s as [d mx fs].
    unfold Update, UpdateGamersInGame, remote_write, remote, write,
      mbind, M_bind, mret, M_ret.
    cbn -[update_game String.append].
    pose proof (update_game_other (b +:+ "gamers") b m d (append_gamers_ne b)) as Hkeep.
    destruct fs as [|[] fs]; cbn -[update_game String.append]; eauto 10.
    eexists _, _. split; [done|]. split; [done|]. discriminate.
  - intros path Hpath. unfold Update.
    repeat (rewrite not_elem_of_cons in Hpath;
            destruct Hpath as [Hne%String.eqb_neq Hpath]; rewrite Hne; clear Hne).
    done.
Qed.

(** ** Creation paths that the dispatcher refuses *)

Lemma collect_users_reads (userIds : list string) (users users' : list Player.t)
    (s s' : Store) :
  collect_users userIds users s = Done users' s' → db s' = db s ∧ mu s' = mu s.
Proof.
  revert users s. induction userIds as [|uId rest IH]; intros users s; simpl.
  { by intros [= _ <-]. }
  unfold mbind, M_bind.
  destruct (remote_read_returns (λ _ _, True)
              (λ d, EPlayer <$> PlayerNode.decode
                      (default PlayerNode.zero (db_players d !! uId))) s I)
    as ([user e] & s1 & Hrun & _).
  change (GetByBin uId "players" s)
    with (remote_read (λ d, EPlayer <$> PlayerNode.decode
                        (default PlayerNode.zero (db_players d !! uId))) s).
  rewrite Hrun.
  assert (Hs1 : db s1 = db s ∧ mu s1 = mu s).
  { destruct s as [d m fs]. unfold remote_read, remote, read, mbind, M_bind, mret, M_ret in Hrun.
    simpl in Hrun. destruct fs as [|[] fs]; simpl in Hrun;
      repeat case_match; by simplify_eq/=. }
  destruct user as [[]|]; try discriminate.
  intros Hrest. apply IH in Hrest as [-> ->]. done.
Qed.

(** X12: [CreateGameGroup] never creates a group.  [Create] has no case
    for ["game_groups"]: whenever the call returns, it returns [false]
    with the error of an invalid data type, and neither the tree nor the
    mutex has changed. *)
Theorem CreateGameGroup_never_creates
    (uuid groupName : string) (cap : Z) (ownerId : string) (userIds : list string)
    (s s' : Store) (r : bool * error) :
  CreateGameGroup uuid groupName cap ownerId userIds s = Done r s' →
  r = (false, Some "invalid data type: game_groups") ∧
  db s' = db s ∧ mu s' = mu s.
Proof.
  unfold CreateGameGroup, mbind at 1, M_bind at 1.
  destruct (collect_users userIds [] s) as [users s1| |] eqn:Husers; try discriminate.
  apply collect_users_reads in Husers as [Hdb Hmu].
  unfold mbind, M_bind.
  change (GetByBin ownerId "players" s1)
    with (remote_read (λ d, EPlayer <$> PlayerNode.decode
                        (default PlayerNode.zero (db_players d !! ownerId))) s1).
  destruct s1 as [d m fs]; simpl in *. subst.
  unfold remote_read, remote, read, mbind, M_bind, mret, M_ret; simpl.
  destruct fs as [|[] fs]; simpl; repeat case_match; simplify_eq/=;
    try discriminate; intros [= <- <-]; done.
Qed.

Lemma CreateGameGroup_never_creates_witness :
  ∃ s',
    CreateGameGroup "u1" "friends" 3 "p2" ["p2"] Sample.game_store
    = Done (false, Some "invalid data type: game_groups") s' ∧
    db s' = db Sample.game_store.
Proof.
  assert (Hrun : ∃ r s', CreateGameGroup "u1" "friends" 3 "p2" ["p2"] Sample.game_store
                         = Done r s') by (eexists _, _; vm_compute; reflexivity).
  destruct Hrun as (r & s' & Hrun).
  destruct (CreateGameGroup_never_creates _ _ _ _ _ _ _ _ Hrun) as (Hr & Hdb & _).
  exists s'. rewrite Hr in Hrun. split; [exact Hrun|exact Hdb].
Defined.

(** X13: [AddRandomUsers] never creates a user.  It hands [Create] the path
    ["player"], which [Create] does not know: for a non-empty list of names
    the first iteration returns [false] with the error of an invalid data
    type, no remote call made and the store untouched; when there is no
    photo to draw from, picking one panics before that.  Without names the
    call returns [true]. *)
Theorem AddRandomUsers_never_creates
    (uuid : nat → string) (rnd : nat → nat) (userNames photoUrls : list string)
    (s : Store) :
  AddRandomUsers uuid rnd userNames photoUrls s
  = match userNames, photoUrls with
    | [], _ => Done (true, None) s
    | _ :: _, [] => Panic
    | _ :: _, _ :: _ => Done (false, Some "invalid data type: player") s
    end.
Proof.
  unfold AddRandomUsers. destruct userNames as [|un rest]; [done|].
  cbn [AddRandomUsers_range]. destruct photoUrls as [|photo urls]; [done|].
  destruct (lookup_lt_is_Some_2 (photo :: urls)
              (rnd 0%nat mod length (photo :: urls))%nat) as [x ->]; [|done].
  apply Nat.mod_upper_bound. done.
Qed.

(** ** Invitations to a game *)

(** X14: [InvitePlayerToGame] never reports success.  Its type assertion
    on the player read back cannot hold, so the call either panics or
    returns [false] with an error; and when its first write succeeded and
    it returns, the invitation is in the tree under the player, keyed by
    its bin, although the call reports a failure. *)
Theorem InvitePlayerToGame_never_succeeds
    (playerId : string) (invitation : Invitation.t) (s s' : Store) (r : bool * error) :
  InvitePlayerToGame playerId invitation s = Done r s' →
  r.1 = false ∧ is_Some r.2 ∧
  (head (faults s) ≠ Some true →
   PlayerNode.Invitations (stored_player (db s') playerId) !! Invitation.Bin invitation
   = Some invitation).
Proof.
  destruct s as [d m fs].
  unfold InvitePlayerToGame, AddInvitationToPlayer, GetByBin,
    remote_read, remote_write, remote, read, write, mbind, M_bind, mret, M_ret,
    stored_player; simpl.
  destruct fs as [|[] fs]; simpl.
  2: { intros [= <- <-]. simpl. split; [done|]. split; [by eexists|]. done. }
  2: destruct fs as [|[] fs]; simpl.
  all: repeat case_match; try discriminate.
  all: intros [= <- <-]; simplify_eq/=; split; [done|]; (split; [by eexists|]); intros _.
  all: rewrite ?lookup_insert_eq; simpl; rewrite ?lookup_insert_eq; done.
Qed.

Lemma InvitePlayerToGame_never_succeeds_witness :
  ∃ e s',
    InvitePlayerToGame "p2" Sample.pending (mkStore Sample.game_tree false [false; true])
    = Done (false, Some e) s' ∧
    PlayerNode.Invitations (stored_player (db s') "p2") !! "i1" = Some Sample.pending.
Proof.
  assert (Hrun : ∃ r s', InvitePlayerToGame "p2" Sample.pending
                           (mkStore Sample.game_tree false [false; true]) = Done r s')
    by (eexists _, _; vm_compute; reflexivity).
  destruct Hrun as ([ok e] & s' & Hrun).
  destruct (InvitePlayerToGame_never_succeeds _ _ _ _ _ Hrun) as (Hok & [msg He] & Hkept).
  simpl in Hok, He. subst ok e. exists msg, s'. split; [exact Hrun|].
  apply Hkept. discriminate.
Defined.

(** ** Game status *)




(** ** Gamers of a game *)

(** X16: [AddGamerToGame] followed by [GetGamerByBin] reads the gamer
    back.  With no failing remote call the gamer is stored under its own
    bin in the game's gamers, also when the game had none (the [nil] map
    is replaced first); the gamers under other keys are kept, and a gamer
    already stored under that bin is replaced. *)
Theorem AddGamerToGame_then_GetGamerByBin (gameId : string) (gamer : Gamer.t) (s : Store) :
  faults s = [] →
  ∃ s',
    AddGamerToGame gameId gamer s = Done None s' ∧
    faults s' = [] ∧
    Game.Gamers (stored_game s' gameId)
    = <[Gamer.Bin gamer := gamer]> (Game.Gamers (stored_game s gameId)) ∧
    GetGamerByBin (Gamer.Bin gamer) gameId s' = Done (Some gamer, None) s'.
Proof.
  destruct s as [d m fs]; simpl. intros ->.
  unfold AddGamerToGame, GetGamerByBin, GetByBin, Update, UpdateGame, stored_game,
    remote_read, remote_write, remote, read, write, mbind, M_bind, mret, M_ret;
    simpl.
  eexists. split; [reflexivity|]. simpl. split; [done|].
  rewrite !lookup_insert_eq; simpl. split; [done|].
  by rewrite lookup_insert_eq.
Qed.

Lemma AddGamerToGame_then_GetGamerByBin_witness :
  ∃ s',
    AddGamerToGame "game9" (Gamer.mk "gamer7" "game9" "2" true) Sample.game_store
    = Done None s' ∧
    GetGamerByBin "gamer7" "game9" s' = Done (Some (Gamer.mk "gamer7" "game9" "2" true), None) s'.
Proof.
  destruct (AddGamerToGame_then_GetGamerByBin "game9" (Gamer.mk "gamer7" "game9" "2" true)
              Sample.game_store eq_refl) as (s' & Hadd & _ & _ & Hget).
  exists s'. split; [exact Hadd|exact Hget].
Defined.

Lemma remove_gamer_spec (visit : list (string * Gamer.t)) (playerId : string)
    (gamers : gmap string Gamer.t) :
  ((∃ kv, kv ∈ visit ∧ Gamer.Bin kv.2 = playerId) →
   remove_gamer visit playerId gamers = delete playerId gamers) ∧
  ((∀ kv, kv ∈ visit → Gamer.Bin kv.2 ≠ playerId) →
   remove_gamer visit playerId gamers = gamers).
Proof.
  induction visit as [|kv visit [IHhit IHmiss]]; simpl.
  - split; [|done]. intros (kv & Hin & _). by apply elem_of_nil in Hin.
  - destruct (String.eqb_spec (Gamer.Bin kv.2) playerId) as [Heq|Hne].
    + split; [done|]. intros Hall. destruct (Hall kv); [left|done].
    + split.
      * intros (kv' & [->|Hin]%elem_of_cons & Hbin); [done|]. apply IHhit. eauto.
      * intros Hall. apply IHmiss. intros kv' Hin. apply Hall. by right.
Qed.

(** X17: [RemovePlayerFromGame] looks for a gamer whose [bin] is the id
    given, but deletes the entry whose key is that id.  With no failing
    remote call, and in whatever order the gamers are visited: every entry
    under another key is kept; the entry under the id is deleted when some
    gamer, under any key, carries the id as its bin, and kept when none
    does.  So a gamer stored under a key that is not its bin cannot be
    removed through its key unless another gamer carries that key as bin. *)
Theorem RemovePlayerFromGame_deletes_key_of_matching_bin
    (o : RangeOrder) (playerId gameId : string) (s : Store) :
  faults s = [] →
  ∃ s',
    RemovePlayerFromGame o playerId gameId s = Done () s' ∧
    (∀ key, key ≠ playerId →
       Game.Gamers (stored_game s' gameId) !! key
       = Game.Gamers (stored_game s gameId) !! key) ∧
    ((∃ key gamer, Game.Gamers (stored_game s gameId) !! key = Some gamer ∧
                   Gamer.Bin gamer = playerId) →
     Game.Gamers (stored_game s' gameId) !! playerId = None) ∧
    ((∀ key gamer, Game.Gamers (stored_game s gameId) !! key = Some gamer →
                   Gamer.Bin gamer ≠ playerId) →
     Game.Gamers (stored_game s' gameId) = Game.Gamers (stored_game s gameId)).
Proof.
  destruct s as [d m fs]; simpl. intros ->.
  unfold RemovePlayerFromGame, GetByBin, Update, UpdateGame, stored_game,
    remote_read, remote_write, remote, read, write, mbind, M_bind, mret, M_ret.
  cbn -[remove_gamer].
  eexists. split; [reflexivity|]. cbn -[remove_gamer].
  rewrite !lookup_insert_eq. cbn -[remove_gamer].
  set (gamers := Game.Gamers (default Game.zero (db_games d !! gameId))).
  destruct (remove_gamer_spec (range o gamers) playerId gamers) as [Hhit Hmiss].
  assert (Hin : ∀ kv, kv ∈ range o gamers ↔ gamers !! kv.1 = Some kv.2).
  { intros [k v]. rewrite (range_perm o). apply elem_of_map_to_list. }
  split; [|split].
  - intros key Hkey.
    destruct (decide (Exists (λ kv : string * Gamer.t, Gamer.Bin kv.2 = playerId)
                             (range o gamers))) as [Hex|Hnex].
    + apply Exists_exists in Hex. rewrite Hhit by done. by rewrite lookup_delete_ne.
    + rewrite Hmiss; [done|]. intros kv Hkv Hbin. apply Hnex.
      apply Exists_exists. eauto.
  - intros (key & gamer & Hg & Hbin). rewrite Hhit.
    + by rewrite lookup_delete_eq.
    + exists (key, gamer). split; [by apply Hin|done].
  - intros Hall. apply Hmiss. intros [k v] Hkv%Hin. by eapply Hall.
Qed.

Lemma RemovePlayerFromGame_deletes_key_of_matching_bin_witness :
  ∃ s',
    RemovePlayerFromGame key_order "p1" "game1" Sample.game_store = Done () s' ∧
    Game.Gamers (stored_game s' "game1") = Game.Gamers Sample.game ∧
    is_Some (Game.Gamers Sample.game !! "p1").
Proof.
  destruct (RemovePlayerFromGame_deletes_key_of_matching_bin
              key_order "p1" "game1" Sample.game_store eq_refl)
    as (s' & Hrun & _ & _ & Hkeep).
  exists s'. split; [exact Hrun|]. split.
  - apply Hkeep. intros key gamer Hg Hbin.
    change (stored_game Sample.game_store "game1") with Sample.game in Hg.
    unfold Sample.game in Hg; simpl in Hg.
    apply lookup_singleton_Some in Hg as [_ <-]. discriminate.
  - eexists. vm_compute. reflexivity.
Defined.

(** ** Steps of a game *)

Lemma with_steps_union (steps : list Step.t) (m : gmap string Step.t) :
  with_steps steps m
  = list_to_map (reverse ((λ st, (Step.Bin st, st)) <$> steps)) ∪ m.
Proof.
  unfold with_steps. revert m. induction steps as [|st steps IH]; intros m; simpl.
  { by rewrite (left_id_L ∅ (∪)). }
  rewrite IH, reverse_cons, list_to_map_app; simpl.
  rewrite <- (assoc_L (∪)). f_equal.
  rewrite insert_empty, <- insert_union_singleton_l. done.
Qed.

Lemma with_steps_twice (steps : list Step.t) (m : gmap string Step.t) :
  with_steps (steps ++ steps) m = with_steps steps m.
Proof.
  rewrite !with_steps_union, fmap_app, reverse_app, list_to_map_app.
  by rewrite (idemp_L (∪)).
Qed.

Lemma with_steps_lookup (steps : list Step.t) (m : gmap string Step.t) (st : Step.t) :
  NoDup (Step.Bin <$> steps) → st ∈ steps → with_steps steps m !! Step.Bin st = Some st.
Proof.
  unfold with_steps. revert m. induction steps as [|st0 steps IH]; intros m Hnd Hin.
  { by apply elem_of_nil in Hin. }
  rewrite fmap_cons in Hnd. apply NoDup_cons in Hnd as [Hfresh Hnd].
  apply elem_of_cons in Hin as [->|Hin]; simpl.
  - clear IH. revert m. induction steps as [|st1 steps IH]; intros m; simpl.
    + by rewrite lookup_insert_eq.
    + rewrite fmap_cons, not_elem_of_cons in Hfresh. destruct Hfresh as [Hne Hfresh].
      apply NoDup_cons in Hnd as [_ Hnd]. rewrite insert_insert_ne by done.
      by apply IH.
  - by apply IH.
Qed.

Lemma AddStepsToGame_range_ok (rest steps : list Step.t) (gameId : string)
    (d : Db) (m : bool) :
  ∃ d',
    AddStepsToGame_range rest gameId steps (mkStore d m [])
    = Done (Some steps) (mkStore d' m []) ∧
    default Game.zero (db_games d' !! gameId)
    = Game.set_Steps
        (with_steps rest (Game.Steps (default Game.zero (db_games d !! gameId))))
        (default Game.zero (db_games d !! gameId)) ∧
    (∀ key, key ≠ gameId → db_games d' !! key = db_games d !! key).
Proof.
  revert d. induction rest as [|st rest IH]; intros d.
  - exists d. split; [done|]. split; [by destruct (default _ _)|done].
  - cbn [AddStepsToGame_range].
    unfold mbind at 1, M_bind at 1, AddStepToGame, remote_write, remote, write,
      mbind, M_bind, mret, M_ret. cbn -[AddStepsToGame_range].
    destruct (IH (on_games (λ gs,
                <[gameId := Game.set_Steps
                    (<[Step.Bin st := st]> (Game.Steps (default Game.zero (gs !! gameId))))
                    (default Game.zero (gs !! gameId))]> gs) d))
      as (d' & Hrun & Hgame & Hother).
    exists d'. split; [exact Hrun|]. split.
    + rewrite Hgame. simpl. rewrite lookup_insert_eq. simpl. done.
    + intros key Hkey. rewrite Hother by done. simpl. by rewrite lookup_insert_ne.
Qed.

(** X18: with no failing remote call [AddStepsToGame] returns the list it
    was given and the game's steps are the former ones overlaid with the
    steps of the list, each under its bin (a later step of the list wins
    over an earlier one with the same bin); the other fields of the game
    and the other games are kept.  A list given twice over, as
    [AddAllStepsToDb] returns it, leaves the same steps as the list given
    once, and when the bins of the list are distinct every step of the list
    is found under its bin. *)
Theorem AddStepsToGame_overlays_steps (steps : list Step.t) (gameId : string) (s : Store) :
  faults s = [] →
  ∃ s',
    AddStepsToGame steps gameId s = Done (Some steps) s' ∧
    stored_game s' gameId
    = Game.set_Steps (with_steps steps (Game.Steps (stored_game s gameId)))
                     (stored_game s gameId) ∧
    (∀ key, key ≠ gameId → db_games (db s') !! key = db_games (db s) !! key) ∧
    (∃ s'',
       AddStepsToGame (steps ++ steps) gameId s = Done (Some (steps ++ steps)) s'' ∧
       stored_game s'' gameId = stored_game s' gameId) ∧
    (NoDup (Step.Bin <$> steps) →
     ∀ st, st ∈ steps → Game.Steps (stored_game s' gameId) !! Step.Bin st = Some st).
Proof.
  destruct s as [d m fs]; simpl. intros ->. unfold AddStepsToGame, stored_game.
  destruct (AddStepsToGame_range_ok steps steps gameId d m) as (d' & Hrun & Hgame & Hother).
  destruct (AddStepsToGame_range_ok (steps ++ steps) (steps ++ steps) gameId d m)
    as (d'' & Hrun2 & Hgame2 & _).
  eexists. split; [exact Hrun|]. simpl.
  split; [exact Hgame|]. split; [exact Hother|]. split.
  - eexists. split; [exact Hrun2|]. simpl.
    by rewrite Hgame, Hgame2, with_steps_twice.
  - intros Hnd st Hst. rewrite Hgame. simpl. by apply with_steps_lookup.
Qed.

Lemma AddStepsToGame_overlays_steps_witness :
  ∃ s',
    AddStepsToGame (scheduled [Sample.step "a" "30" ""; Sample.step "b" "45" ""] "1000"
                    ++ scheduled [Sample.step "a" "30" ""; Sample.step "b" "45" ""] "1000")
                   "game1" Sample.game_store
    = Done (Some (scheduled [Sample.step "a" "30" ""; Sample.step "b" "45" ""] "1000"
                  ++ scheduled [Sample.step "a" "30" ""; Sample.step "b" "45" ""] "1000")) s' ∧
    (Step.EndTime <$> Game.Steps (stored_game s' "game1") !! "b") = Some "77500" ∧
    is_Some (Game.Steps (stored_game s' "game1") !! "s1").
Proof.
  destruct (AddStepsToGame_overlays_steps
              (scheduled [Sample.step "a" "30" ""; Sample.step "b" "45" ""] "1000")
              "game1" Sample.game_store eq_refl)
    as (s1 & _ & Hgame1 & _ & (s2 & Hrun2 & Hsame) & _).
  exists s2. split; [exact Hrun2|]. rewrite Hsame, Hgame1.
  split; [vm_compute; reflexivity|]. eexists. vm_compute. reflexivity.
Defined.

(** ** Slices in the remote tree *)

Lemma encode_from_below {A} (l : list A) (i k : nat) :
  (k < i)%nat → encode_from i l !! pretty k = None.
Proof.
  revert i. induction l as [|x l IH]; intros i Hk; simpl; [done|].
  rewrite lookup_insert_ne; [apply IH; lia|].
  intros Heq%(inj pretty). lia.
Qed.

Lemma encode_from_lookup {A} (l : list A) (i j : nat) :
  encode_from i l !! pretty (i + j)%nat = l !! j.
Proof.
  revert i j. induction l as [|x l IH]; intros i j; simpl; [done|].
  destruct j as [|j].
  - by rewrite Nat.add_0_r, lookup_insert_eq.
  - rewrite lookup_insert_ne; [|intros Heq%(inj pretty); lia].
    replace (i + S j)%nat with (S i + j)%nat by lia. apply IH.
Qed.

Lemma size_encode_from {A} (l : list A) (i : nat) : size (encode_from i l) = length l.
Proof.
  revert i. induction l as [|x l IH]; intros i; simpl; [done|].
  rewrite map_size_insert_None; [by rewrite IH|].
  apply encode_from_below. lia.
Qed.

(** A slice written as a whole is read back as it was. *)
Lemma decode_encode_list {A} (l : list A) : decode_list (encode_list l) = Some l.
Proof.
  unfold decode_list, encode_list. rewrite size_encode_from.
  apply mapM_Some_2. apply Forall2_same_length_lookup_2.
  - by rewrite length_seq.
  - intros i k x [-> _]%lookup_seq Hx. simpl. rewrite <- Hx.
    apply (encode_from_lookup l 0 i).
Qed.

Lemma remove_first_miss {A} (hit : A → bool) (l : list A) :
  (∀ x, x ∈ l → hit x = false) → remove_first hit l = l.
Proof.
  induction l as [|x l IH]; intros Hmiss; simpl; [done|].
  rewrite (Hmiss x) by left. f_equal. apply IH. intros y Hy. apply Hmiss. by right.
Qed.

Lemma remove_first_app {A} (hit : A → bool) (l l' : list A) (x : A) :
  (∀ y, y ∈ l → hit y = false) → hit x = true →
  remove_first hit (l ++ x :: l') = l ++ l'.
Proof.
  induction l as [|y l IH]; intros Hmiss Hx; simpl.
  - by rewrite Hx.
  - rewrite (Hmiss y) by left. f_equal. apply IH; [|done].
    intros z Hz. apply Hmiss. by right.
Qed.

Lemma remove_first_hit {A} (hit : A → bool) (l : list A) :
  (∃ x, x ∈ l ∧ hit x = true) →
  ∃ l1 x l2, l = l1 ++ x :: l2 ∧ hit x = true ∧ (∀ y, y ∈ l1 → hit y = false) ∧
             remove_first hit l = l1 ++ l2.
Proof.
  induction l as [|y l IH]; intros (x & Hin & Hx).
  { by apply elem_of_nil in Hin. }
  destruct (hit y) eqn:Hy.
  - exists [], y, l. simpl. rewrite Hy. repeat split; try done.
    intros z Hz. by apply elem_of_nil in Hz.
  - apply elem_of_cons in Hin as [->|Hin]; [congruence|].
    destruct IH as (l1 & x' & l2 & -> & Hx' & Hmiss & Hrem); [eauto|].
    exists (y :: l1), x', l2. simpl. rewrite Hy, Hrem. repeat split; try done.
    intros z [->|Hz]%elem_of_cons; [done|by apply Hmiss].
Qed.

(** ** Members of a group *)

Lemma group_decode_set_members (n : GroupNode.t) (g : Group.t) (l : list Player.t) :
  GroupNode.decode n = Some g →
  GroupNode.decode (GroupNode.set_Members (encode_list l) n)
  = Some (Group.set_Members l g).
Proof.
  unfold GroupNode.decode. destruct (decode_list (GroupNode.Members n)); [|done].
  simpl. intros [= <-]. by rewrite decode_encode_list.
Qed.

(** X19: [AddPlayerToGroup] appends and checks nothing.  With no failing
    remote call, a group that decodes and a player that decodes, the group
    read back afterwards is the former group with the player added behind
    its members, whether or not the player was a member already and
    whatever the capacity of the group: each call makes the list one
    longer. *)
Theorem AddPlayerToGroup_appends_without_check
    (playerId groupId : string) (s : Store) (g : Group.t) (p : Player.t) :
  faults s = [] →
  stored_group (db s) groupId = Some g →
  PlayerNode.decode (stored_player (db s) playerId) = Some p →
  ∃ s',
    AddPlayerToGroup playerId groupId s = Done () s' ∧
    faults s' = [] ∧
    stored_group (db s') groupId = Some (Group.set_Members (Group.Members g ++ [p]) g) ∧
    db_players (db s') = db_players (db s).
Proof.
  destruct s as [d m fs]; simpl. unfold stored_group, stored_player.
  intros -> Hg Hp.
  unfold AddPlayerToGroup, GetByBin, Update, UpdateGameGroup,
    remote_read, remote_write, remote, read, write, mbind, M_bind, mret, M_ret;
    simpl.
  rewrite Hg; simpl. rewrite Hp; simpl.
  eexists. split; [reflexivity|]. simpl. split; [done|]. split; [|done].
  rewrite lookup_insert_eq; simpl.
  by apply (group_decode_set_members _ g).
Qed.

Lemma AddPlayerToGroup_appends_without_check_witness :
  ∃ s1 s2 g,
    AddPlayerToGroup "p2" "g1"
      (mkStore (on_game_groups (insert "g1" Sample.group) Sample.game_tree) false [])
    = Done () s1 ∧
    AddPlayerToGroup "p2" "g1" s1 = Done () s2 ∧
    stored_group (db s2) "g1" = Some g ∧
    Player.Bin <$> Group.Members g = ["p2"; "p2"].
Proof.
  destruct (AddPlayerToGroup_appends_without_check "p2" "g1"
              (mkStore (on_game_groups (insert "g1" Sample.group) Sample.game_tree) false [])
              (Group.mk "g1" "friends" 3 "waiting" [])
              (Sample.player [Sample.other; Sample.pending]) eq_refl)
    as (s1 & Hrun1 & Hf1 & Hg1 & Hp1).
  { vm_compute. reflexivity. }
  { vm_compute. reflexivity. }
  destruct (AddPlayerToGroup_appends_without_check "p2" "g1" s1 _
              (Sample.player [Sample.other; Sample.pending]) Hf1 Hg1)
    as (s2 & Hrun2 & _ & Hg2 & _).
  { unfold stored_player. rewrite Hp1. vm_compute. reflexivity. }
  exists s1, s2. eexists. split; [exact Hrun1|]. split; [exact Hrun2|].
  split; [exact Hg2|]. reflexivity.
Defined.

(** X20: [RemovePlayerFromGroup] removes one entry at most, the first
    member whose bin is the id given.  With no failing remote call and a
    group that decodes, the group read back afterwards has the former
    members without that entry, in the same order: the list is one shorter
    when some member carries the bin and unchanged when none does, so a
    player listed twice is still a member after one removal. *)
Theorem RemovePlayerFromGroup_removes_first_entry
    (playerId groupId : string) (s : Store) (g : Group.t) :
  faults s = [] →
  stored_group (db s) groupId = Some g →
  ∃ s' members,
    RemovePlayerFromGroup playerId groupId s = Done () s' ∧
    stored_group (db s') groupId = Some (Group.set_Members members g) ∧
    ((∀ p, p ∈ Group.Members g → Player.Bin p ≠ playerId) →
     members = Group.Members g) ∧
    ((∃ p, p ∈ Group.Members g ∧ Player.Bin p = playerId) →
     ∃ l1 p l2,
       Group.Members g = l1 ++ p :: l2 ∧ members = l1 ++ l2 ∧
       Player.Bin p = playerId ∧ ∀ q, q ∈ l1 → Player.Bin q ≠ playerId).
Proof.
  destruct s as [d m fs]; simpl. unfold stored_group. intros -> Hg.
  unfold RemovePlayerFromGroup, GetByBin, Update, UpdateGameGroup,
    remote_read, remote_write, remote, read, write, mbind, M_bind, mret, M_ret.
  cbn -[remove_first]. rewrite Hg. cbn -[remove_first].
  eexists _, _. split; [reflexivity|]. cbn -[remove_first].
  rewrite lookup_insert_eq. cbn -[remove_first].
  split; [by apply (group_decode_set_members _ g)|]. split.
  - intros Hmiss. apply remove_first_miss. intros p Hp.
    apply String.eqb_neq. by apply Hmiss.
  - intros (p & Hp & Hbin).
    destruct (remove_first_hit (λ m0, String.eqb (Player.Bin m0) playerId)
                (Group.Members g)) as (l1 & x & l2 & Hsplit & Hx & Hl1 & Hrem).
    { exists p. split; [done|]. by apply String.eqb_eq. }
    exists l1, x, l2. split; [done|]. split; [done|].
    split; [by apply String.eqb_eq|].
    intros q Hq. apply String.eqb_neq. by apply Hl1.
Qed.

Lemma RemovePlayerFromGroup_removes_first_entry_witness :
  ∃ s' g,
    RemovePlayerFromGroup "p2" "g1" Sample.member_store = Done () s' ∧
    stored_group (db s') "g1" = Some g ∧
    Group.Members g = [].
Proof.
  destruct (RemovePlayerFromGroup_removes_first_entry "p2" "g1" Sample.member_store
              (Group.mk "g1" "friends" 3 "waiting" [Sample.player [Sample.pending]])
              eq_refl)
    as (s' & members & Hrun & Hg & _ & Hhit).
  { vm_compute. reflexivity. }
  destruct Hhit as (l1 & p & l2 & Hsplit & -> & _ & _).
  { eexists. split; [left|reflexivity]. }
  exists s'. eexists. split; [exact Hrun|]. split; [exact Hg|].
  simpl in Hsplit |- *. destruct l1 as [|q [|q' l1]]; simpl in Hsplit.
  - by injection Hsplit as _ <-.
  - injection Hsplit as _ Hnil. by destruct l2.
  - discriminate.
Defined.

Lemma AddPlayerToGroup_run (playerId groupId : string) (d : Db) (m : bool)
    (g : Group.t) (p : Player.t) :
  stored_group d groupId = Some g →
  PlayerNode.decode (stored_player d playerId) = Some p →
  ∃ d',
    AddPlayerToGroup playerId groupId (mkStore d m []) = Done () (mkStore d' m []) ∧
    stored_group d' groupId = Some (Group.set_Members (Group.Members g ++ [p]) g).
Proof.
  unfold stored_group, stored_player. intros Hg Hp.
  unfold AddPlayerToGroup, GetByBin, Update, UpdateGameGroup,
    remote_read, remote_write, remote, read, write, mbind, M_bind, mret, M_ret;
    simpl.
  rewrite Hg; simpl. rewrite Hp; simpl.
  eexists. split; [reflexivity|]. simpl.
  rewrite lookup_insert_eq; simpl.
  by apply (group_decode_set_members _ g).
Qed.

Lemma RemovePlayerFromGroup_run (playerId groupId : string) (d : Db) (m : bool)
    (g : Group.t) :
  stored_group d groupId = Some g →
  ∃ d',
    RemovePlayerFromGroup playerId groupId (mkStore d m []) = Done () (mkStore d' m []) ∧
    stored_group d' groupId
    = Some (Group.set_Members
              (remove_first (λ q, String.eqb (Player.Bin q) playerId) (Group.Members g)) g).
Proof.
  unfold stored_group. intros Hg.
  unfold RemovePlayerFromGroup, GetByBin, Update, UpdateGameGroup,
    remote_read, remote_write, remote, read, write, mbind, M_bind, mret, M_ret.
  cbn -[remove_first]. rewrite Hg. cbn -[remove_first].
  eexists. split; [reflexivity|]. cbn -[remove_first].
  rewrite lookup_insert_eq. cbn -[remove_first].
  by apply (group_decode_set_members _ g).
Qed.

(** X21: adding a player to a group and removing it again is a round trip
    when no member carried the player's bin before: with no failing remote
    call, for a player stored under its own bin, [AddPlayerToGroup]
    followed by [RemovePlayerFromGroup] leaves a group that reads back as
    the group before the two calls. *)
Theorem AddPlayerToGroup_then_RemovePlayerFromGroup
    (playerId groupId : string) (s : Store) (g : Group.t) (p : Player.t) :
  faults s = [] →
  stored_group (db s) groupId = Some g →
  PlayerNode.decode (stored_player (db s) playerId) = Some p →
  Player.Bin p = playerId →
  (∀ q, q ∈ Group.Members g → Player.Bin q ≠ playerId) →
  ∃ s1 s2,
    AddPlayerToGroup playerId groupId s = Done () s1 ∧
    RemovePlayerFromGroup playerId groupId s1 = Done () s2 ∧
    stored_group (db s2) groupId = Some g.
Proof.
  destruct s as [d m fs]; simpl. intros -> Hg Hp Hbin Hmiss.
  destruct (AddPlayerToGroup_run playerId groupId d m g p Hg Hp) as (d1 & Hrun1 & Hg1).
  destruct (RemovePlayerFromGroup_run playerId groupId d1 m _ Hg1) as (d2 & Hrun2 & Hg2).
  eexists _, _. split; [exact Hrun1|]. split; [exact Hrun2|].
  simpl. rewrite Hg2. simpl. rewrite remove_first_app.
  - rewrite app_nil_r. by destruct g.
  - intros q Hq. apply String.eqb_neq. by apply Hmiss.
  - by apply String.eqb_eq.
Qed.

Lemma AddPlayerToGroup_then_RemovePlayerFromGroup_witness :
  ∃ s1 s2,
    AddPlayerToGroup "p2" "g1"
      (mkStore (on_game_groups (insert "g1" Sample.group) Sample.game_tree) false [])
    = Done () s1 ∧
    RemovePlayerFromGroup "p2" "g1" s1 = Done () s2 ∧
    stored_group (db s2) "g1" = Some (Group.mk "g1" "friends" 3 "waiting" []).
Proof.
  apply (AddPlayerToGroup_then_RemovePlayerFromGroup "p2" "g1"
           (mkStore (on_game_groups (insert "g1" Sample.group) Sample.game_tree) false [])
           (Group.mk "g1" "friends" 3 "waiting" [])
           (Sample.player [Sample.other; Sample.pending])).
  - reflexivity.
  - vm_compute. reflexivity.
  - vm_compute. reflexivity.
  - reflexivity.
  - intros q Hq. by apply elem_of_nil in Hq.
Defined.

(** ** Invitations: what is persisted *)

Lemma AcceptGroupInvitation_join_keeps_invitations (q : Player.t) (groupId : string)
    (s s' : Store) (r : Player.t * (bool * error)) (key : string) :
  AcceptGroupInvitation_join q groupId s = Done r s' →
  PlayerNode.Invitations (stored_player (db s') key)
  = PlayerNode.Invitations (stored_player (db s) key).
Proof.
  unfold AcceptGroupInvitation_join. cbv zeta.
  set (q' := if bool_decide (groupId ∈ Player.GroupIds q) then q else _). clearbody q'.
  destruct s as [d m fs].
  unfold Update, UpdatePlayer, GetByBin, AddPlayerToGroupMembers,
    remote_read, remote_write, remote, read, write, mbind, M_bind, mret, M_ret,
    stored_player; simpl.
  assert (Hkeep : PlayerNode.Invitations
            (default PlayerNode.zero
               (<[Player.Bin q' := PlayerNode.set_GroupIds (Player.GroupIds q')
                    (default PlayerNode.zero (db_players d !! Player.Bin q'))]>
                  (db_players d) !! key))
          = PlayerNode.Invitations (default PlayerNode.zero (db_players d !! key))).
  { destruct (decide (Player.Bin q' = key)) as [<-|Hne].
    - by rewrite lookup_insert_eq.
    - by rewrite lookup_insert_ne. }
  destruct fs as [|[] fs]; simpl.
  2: { by intros [= <- <-]. }
  2: destruct fs as [|[] fs]; simpl.
  3: { by intros [= <- <-]. }
  all: destruct (GroupNode.decode _) as [g|]; simpl.
  2,4,6: by intros [= <- <-].
  3: destruct fs as [|[] fs]; simpl.
  all: by intros [= <- <-].
Qed.

(** X22: of an accepted invitation only the two flags are persisted.  When
    the accept of a pending invitation gets its first write through, the
    invitation stored under the player at the key of the invitation id is
    the one stored there before (or an empty one) with [accepted = true]
    and [declined = false]: its status in the tree is the former status,
    not "accepted" as in memory, whatever the later remote calls do. *)
Theorem AcceptGroupInvitation_persists_flags_only
    (p : Player.t) (invitationId groupId : string) (inv : Invitation.t)
    (s s' : Store) (r : Player.t * (bool * error)) :
  find (has_id invitationId) (Player.Invitations p) = Some inv →
  Invitation.terminal inv = false →
  head (faults s) ≠ Some true →
  AcceptGroupInvitation p invitationId groupId s = Done r s' →
  let before := default Invitation.zero
                  (PlayerNode.Invitations (stored_player (db s) (Player.Bin p))
                     !! invitationId) in
  PlayerNode.Invitations (stored_player (db s') (Player.Bin p)) !! invitationId
  = Some (Invitation.set_Declined false (Invitation.set_Accepted true before)) ∧
  Invitation.Status (Invitation.set_Declined false (Invitation.set_Accepted true before))
  = Invitation.Status before ∧
  (Invitation.Status <$> find (has_id invitationId) (Player.Invitations r.1))
  = Some "accepted".
Proof.
  intros Hfind Hterm Hhead. unfold AcceptGroupInvitation.
  destruct (accept_scan_pending_marked _ _ _ Hfind Hterm) as (l' & -> & Hl').
  cbv zeta. intros Hrun.
  assert (∃ s1,
    AcceptGroupInvitation_join (Player.set_Invitations l' p) groupId s1 = Done r s' ∧
    PlayerNode.Invitations (stored_player (db s1) (Player.Bin p)) !! invitationId
    = Some (Invitation.set_Declined false (Invitation.set_Accepted true
              (default Invitation.zero
                 (PlayerNode.Invitations (stored_player (db s) (Player.Bin p))
                    !! invitationId))))) as (s1 & Hjoin & Hstored).
  { destruct s as [d m fs].
    unfold mbind at 1, M_bind at 1, UpdateInvitation, remote_write, remote, write,
      mbind, M_bind, mret, M_ret in Hrun.
    cbn -[AcceptGroupInvitation_join] in Hrun.
    destruct fs as [|[] fs]; cbn -[AcceptGroupInvitation_join] in Hrun, Hhead; [|done|].
    all: eexists; (split; [exact Hrun|]).
    all: unfold stored_player; simpl; rewrite lookup_insert_eq; simpl.
    all: apply lookup_insert_eq. }
  split; [|split; [done|]].
  - rewrite (AcceptGroupInvitation_join_keeps_invitations _ _ _ _ _ _ Hjoin). exact Hstored.
  - destruct (AcceptGroupInvitation_join_run (Player.set_Invitations l' p) groupId s1)
      as (r' & s'' & Hrun' & _).
    rewrite Hjoin in Hrun'. injection Hrun' as -> _. simpl.
    destruct (with_group_id_spec groupId (Player.set_Invitations l' p)) as (_ & -> & _).
    simpl. by rewrite Hl'.
Qed.

Lemma AcceptGroupInvitation_persists_flags_only_witness :
  ∃ p' s',
    AcceptGroupInvitation (Sample.player [Sample.other; Sample.pending]) "i1" "g1"
      (mkStore (on_players
                  (insert "p2" (PlayerNode.set_Invitations {["i1" := Sample.pending]}
                                  PlayerNode.zero)) Sample.tree) false [])
    = Done (p', (true, None)) s' ∧
    (Invitation.Status
       <$> PlayerNode.Invitations (stored_player (db s') "p2") !! "i1") = Some "received" ∧
    (Invitation.Accepted
       <$> PlayerNode.Invitations (stored_player (db s') "p2") !! "i1") = Some true.
Proof.
  assert (Hrun : ∃ p' s',
    AcceptGroupInvitation (Sample.player [Sample.other; Sample.pending]) "i1" "g1"
      (mkStore (on_players
                  (insert "p2" (PlayerNode.set_Invitations {["i1" := Sample.pending]}
                                  PlayerNode.zero)) Sample.tree) false [])
    = Done (p', (true, None)) s') by (eexists _, _; vm_compute; reflexivity).
  destruct Hrun as (p' & s' & Hrun). exists p', s'. split; [exact Hrun|].
  assert (Hhead : head (faults
      (mkStore (on_players
                  (insert "p2" (PlayerNode.set_Invitations {["i1" := Sample.pending]}
                                  PlayerNode.zero)) Sample.tree) false [])) ≠ Some true)
    by discriminate.
  destruct (AcceptGroupInvitation_persists_flags_only
              (Sample.player [Sample.other; Sample.pending]) "i1" "g1" Sample.pending
              _ s' _ eq_refl eq_refl Hhead Hrun) as (Hst & _ & _).
  change (Player.Bin (Sample.player [Sample.other; Sample.pending])) with "p2" in Hst.
  rewrite Hst. split; reflexivity.
Defined.

(** ** Game invitations: the side of the game *)

(** X23: [DeclineGameInvitation] does not roll back.  When its read and
    its write of the game get through, the game's invited list has lost the
    first entry equal to the player id, and that one only (the list is
    unchanged when the id is not in it); every other game is kept.  The
    call reports success exactly when its third remote call, the write of
    the player, does not fail; when it fails the call returns [false] with an
    error, the players are untouched, and the shortened list stays. *)
Theorem DeclineGameInvitation_shortens_invited_without_rollback
    (playerId : string) (invitation : Invitation.t) (s : Store) :
  true ∉ take 2 (faults s) →
  ∃ r s',
    DeclineGameInvitation playerId invitation s = Done r s' ∧
    stored_game s' (Invitation.GameId invitation)
    = Game.set_Invited
        (remove_first (λ m, String.eqb m playerId)
           (Game.Invited (stored_game s (Invitation.GameId invitation))))
        (stored_game s (Invitation.GameId invitation)) ∧
    (∀ key, key ≠ Invitation.GameId invitation →
       db_games (db s') !! key = db_games (db s) !! key) ∧
    (r.1 = true ↔ faults s !! 2%nat ≠ Some true) ∧
    (r.1 = false → is_Some r.2 ∧ db_players (db s') = db_players (db s)).
Proof.
  destruct s as [d m fs]. unfold stored_game; simpl. intros Hfs.
  unfold DeclineGameInvitation, GetByBin, Update, UpdateGame, UpdatePlayer, update_game,
    remote_read, remote_write, remote, read, write, mbind, M_bind, mret, M_ret.
  cbn -[remove_first].
  destruct fs as [|[] fs]; cbn -[remove_first] in Hfs |- *.
  2: { exfalso. apply Hfs. left. }
  2: destruct fs as [|[] fs]; cbn -[remove_first] in Hfs |- *.
  3: { exfalso. apply Hfs. right. left. }
  3: destruct fs as [|[] fs]; cbn -[remove_first].
  all: eexists _, _; (split; [reflexivity|]); cbn -[remove_first].
  all: rewrite lookup_insert_eq; cbn -[remove_first].
  all: split; [reflexivity|].
  all: split; [by intros key Hkey; rewrite lookup_insert_ne|].
  all: split; [split; [done|]|].
  all: try done.
  all: try (intros [=]).
Qed.

Lemma DeclineGameInvitation_shortens_invited_without_rollback_witness :
  ∃ e s',
    DeclineGameInvitation "p2"
      (Invitation.mk "i7" "" "p1" "received" "game" "play?" "" "game1" false false)
      (mkStore (on_games (insert "game1" (Game.set_Invited ["p2"; "p9"; "p2"] Sample.game))
                  Sample.game_tree) false [false; false; true])
    = Done (false, Some e) s' ∧
    Game.Invited (stored_game s' "game1") = ["p9"; "p2"] ∧
    db_players (db s') = db_players Sample.game_tree.
Proof.
  destruct (DeclineGameInvitation_shortens_invited_without_rollback "p2"
              (Invitation.mk "i7" "" "p1" "received" "game" "play?" "" "game1" false false)
              (mkStore (on_games (insert "game1"
                                    (Game.set_Invited ["p2"; "p9"; "p2"] Sample.game))
                          Sample.game_tree) false [false; false; true]))
    as (r & s' & Hrun & Hgame & _ & Hiff & Hfail).
  { simpl. intros H. by repeat (apply elem_of_cons in H as [H|H]; [done|]);
      apply elem_of_nil in H. }
  destruct r as [[] e].
  - exfalso. by apply (proj1 Hiff).
  - destruct (Hfail eq_refl) as [[e' He] Hpl]. simpl in He. subst e.
    exists e', s'. split; [exact Hrun|]. split; [|exact Hpl].
    simpl in Hgame. rewrite Hgame. reflexivity.
Defined.

(** X24: [AcceptGameInvitation] never touches the game's gamers as they
    are read back.  The roster with the new gamer (character ["3"], alive)
    is written under the key [players] of the game, not under [gamers]:
    whenever the call returns, the games are what they were, so with no
    failing remote call [GetGamerByBin] answers for the player what it
    answered before; and a successful call has put the roster under
    [players].  On a game without gamers the call panics once its read
    succeeds, since the entry is assigned in a [nil] map. *)
Theorem AcceptGameInvitation_writes_players_not_gamers
    (uuid playerId : string) (invitation : Invitation.t) (s : Store) :
  (head (faults s) ≠ Some true →
   Game.Gamers (stored_game s (Invitation.GameId invitation)) = ∅ →
   AcceptGameInvitation uuid playerId invitation s = Panic) ∧
  (∀ r s',
     AcceptGameInvitation uuid playerId invitation s = Done r s' →
     db_games (db s') = db_games (db s) ∧
     (r.1 = true →
      db_game_players (db s') !! Invitation.GameId invitation
      = Some (<[playerId := Gamer.mk uuid (Invitation.GameId invitation) "3" true]>
                (Game.Gamers (stored_game s (Invitation.GameId invitation))))) ∧
     (faults s' = [] →
      GetGamerByBin playerId (Invitation.GameId invitation) s'
      = Done (Game.Gamers (stored_game s (Invitation.GameId invitation)) !! playerId, None)
             s')).
Proof.
  destruct s as [d m fs]. unfold stored_game; simpl.
  unfold AcceptGameInvitation, GetGamerByBin, GetByBin, Update, UpdateGame, UpdatePlayer,
    update_game, remote_read, remote_write, remote, read, write, panic,
    mbind, M_bind, mret, M_ret.
  cbn -[default size]. split.
  - intros Hhead Hnil.
    destruct fs as [|[] fs]; cbn -[default size] in Hhead |- *; [|done|].
    all: by rewrite Hnil, map_size_empty.
  - intros r s'.
    destruct fs as [|[] fs]; cbn -[default size].
    2: { intros [= <- <-]. cbn -[default size]. split; [done|]. split; [done|]. by intros ->. }
    all: destruct (size (Game.Gamers (default Game.zero
                     (db_games d !! Invitation.GameId invitation))) =? 0)%nat;
      [done|]; cbn -[default size].
    1: { intros [= <- <-]. cbn -[default size]. split; [done|]. split; [|done].
         intros _. by rewrite lookup_insert_eq. }
    destruct fs as [|[] fs]; cbn -[default size].
    2: { intros [= <- <-]. cbn -[default size]. split; [done|]. split; [done|]. by intros ->. }
    1: { intros [= <- <-]. cbn -[default size]. split; [done|]. split; [|done].
         intros _. by rewrite lookup_insert_eq. }
    destruct fs as [|[] fs]; cbn -[default size].
    all: intros [= <- <-]; cbn -[default size]; (split; [done|]); split; try done.
    all: try (intros _; by rewrite lookup_insert_eq).
    all: by intros ->.
Qed.

Lemma AcceptGameInvitation_writes_players_not_gamers_witness :
  ∃ s',
    AcceptGameInvitation "u1" "p2" (Invitation.mk "i7" "" "p1" "received" "game" "play?" "" "game1" false false)
      Sample.game_store
    = Done (true, None) s' ∧
    GetGamerByBin "p2" "game1" s' = Done (None, None) s' ∧
    AcceptGameInvitation "u1" "p2" (Invitation.mk "i7" "" "p1" "received" "game" "play?" "" "nogame" false false)
      Sample.game_store
    = Panic.
Proof.
  destruct (AcceptGameInvitation_writes_players_not_gamers "u1" "p2"
              (Invitation.mk "i7" "" "p1" "received" "game" "play?" "" "game1" false false)
              Sample.game_store)
    as [_ Hdone].
  destruct (AcceptGameInvitation_writes_players_not_gamers "u1" "p2"
              (Invitation.mk "i7" "" "p1" "received" "game" "play?" "" "nogame" false false)
              Sample.game_store)
    as [Hpanic _].
  assert (Hrun : ∃ s',
    AcceptGameInvitation "u1" "p2"
      (Invitation.mk "i7" "" "p1" "received" "game" "play?" "" "game1" false false)
      Sample.game_store = Done (true, None) s' ∧ faults s' = [])
    by (eexists; split; vm_compute; reflexivity).
  destruct Hrun as (s' & Hrun & Hfs). exists s'. split; [exact Hrun|]. split.
  - destruct (Hdone _ _ Hrun) as (_ & _ & Hget). exact (Hget Hfs).
  - apply Hpanic; [discriminate|reflexivity].
Defined.

(** ** Instances *)

Lemma ArchiveStepResults_moves_results_witness :
  ∃ s',
    ArchiveStepResults key_order "game1" Sample.game_store = Done None s' ∧
    archived_results (stored_game s' "game1") "p1" = [Sample.result "r1" "p1" "10" "x"] ∧
    ∀ r, ¬ held_in (stored_game s' "game1") r.
Proof.
  destruct (ArchiveStepResults_moves_results key_order "game1" Sample.game_store)
    as (e & s' & Hrun & Hok & _ & Hdone).
  rewrite (Hok eq_refl) in Hrun.
  destruct (Hdone (Hok eq_refl)) as (Harch & _ & _ & _ & Hnone).
  exists s'. split; [exact Hrun|]. split; [|exact Hnone].
  rewrite Harch. vm_compute. reflexivity.
Defined.

Lemma AcceptGroupInvitation_group_ids_witness :
  ∃ p' s',
    AcceptGroupInvitation (Sample.player [Sample.other; Sample.pending]) "i1" "g1"
      Sample.store
    = Done (p', (true, None)) s' ∧
    Player.GroupIds p' = ["g1"] ∧
    PlayerNode.GroupIds (stored_player (db s') "p2") = ["g1"].
Proof.
  destruct (AcceptGroupInvitation_group_ids
              (Sample.player [Sample.other; Sample.pending]) "i1" "g1" Sample.store)
    as (p' & r & s' & Hrun & _ & _ & Htrue).
  assert (Hc : ∃ p0 s0,
    AcceptGroupInvitation (Sample.player [Sample.other; Sample.pending]) "i1" "g1"
      Sample.store = Done (p0, (true, None)) s0 ∧ Player.GroupIds p0 = ["g1"])
    by (eexists _, _; split; vm_compute; reflexivity).
  destruct Hc as (p0 & s0 & Hc & Hids). rewrite Hrun in Hc.
  injection Hc as <- -> <-.
  exists p', s'. split; [exact Hrun|]. split; [exact Hids|].
  destruct (Htrue eq_refl) as [_ Hstored].
  change (Player.Bin (Sample.player [Sample.other; Sample.pending])) with "p2" in Hstored.
  by rewrite Hstored.
Defined.

Lemma Update_gamers_misses_the_game_witness :
  ∃ s',
    Update "game1" [Field.gamers ∅] "gamers" Sample.game_store = Done None s' ∧
    db_games (db s') !! "game1" = Some Sample.game ∧
    db_games (db s') !! "game1gamers" = Some Game.zero ∧
    Update "game1" [Field.gamers ∅] "gamer" Sample.game_store
    = Done (Some "invalid data type: gamer") Sample.game_store.
Proof.
  destruct (Update_gamers_misses_the_game "game1" [Field.gamers ∅] Sample.game_store)
    as [(e & s' & Hrun & Hsame & Hdb) Hpath].
  assert (He : e = None).
  { vm_compute in Hrun. by injection Hrun as <- _. }
  subst e. exists s'. split; [exact Hrun|]. split; [|split].
  - rewrite Hsame. vm_compute. reflexivity.
  - rewrite (Hdb eq_refl). vm_compute. reflexivity.
  - apply (Hpath "gamer"). intros H.
    by repeat (apply elem_of_cons in H as [H|H]; [done|]); apply elem_of_nil in H.
Defined.
